(** * Relay-pool manager of shopstr: a shallow embedding of
      [src/utils/nostr/nostr-manager.ts] and its verified properties.

    The class [NostrManager] keeps a registry of relay sessions, multiplexes
    subscriptions over them, puts idle sessions to sleep from a
    self-rescheduling timer, and coordinates NIP-42 authentication.

    Modelling conventions.
    - The mutable fields of the class are the fields of the record
      [NostrManager]; every method is a function in the monad [M], which
      passes that record along and may end in [Throw].  A mutation made
      before a [throw] stays made, as in JavaScript, so a computation
      returns its result together with the state it leaves.
    - Calls that leave the class (the [SimplePool], a relay's transport,
      the console, [setTimeout]) are appended to the field [trace].
    - JavaScript objects have identity.  A relay session lives in the array
      [this.relays], which only ever grows by [push] while the manager is
      open, so a session object is named by its position in that array.  A
      subscription handle is named by a number drawn from [nextSub].
    - [Date.now()] is an argument [now] of the code that reads the clock.
      Timestamps are integral milliseconds and are modelled in [Z].
    - The methods are [async]: a method is modelled run to its end, and
      where a statement depends on what other callers do while a method
      is suspended at an [await], the method takes those calls as an
      argument (the sweep [gc_await]).
    - Manager shutdown ([close()]) empties the registry; the positions
      then name the sessions added afterwards. *)

From Stdlib Require Import ZArith Lia.
From stdpp Require Import base strings list gmap.

(** ** Data model *)

(** [Event] of nostr-tools, with the fields the protocol gives it. *)
Record NostrEvent := {
  ev_id : string;
  ev_pubkey : string;
  ev_created_at : Z;
  ev_kind : Z;
  ev_tags : list (list string);
  ev_content : string;
  ev_sig : string;
}.

(** [type NostrRelay].  The closures [connect] and [disconnect] are
    represented by the effects they cause.  The optional field
    [authenticated] is written by [addRelay], the only place where a
    session is created, so it is never [undefined]. *)
Record NostrRelay := {
  url : string;
  activeSubs : list nat;
  sleeping : bool;
  lastActive : Z;
  authenticated : bool;
}.

(** [type NostrManagerParams] as stored in [this.params]. *)
Record NostrManagerParams := {
  connectionTimeout : option Z;
  keepAliveTime : Z;
  gcInterval : Z;
  readable : bool;
  writable : bool;
  autoAuth : bool;
}.

(** The argument [params?] of the constructor: every option may be left
    out, and the destructuring pattern supplies the defaults. *)
Record NostrManagerOptions := {
  opt_connectionTimeout : option Z;
  opt_keepAliveTime : option Z;
  opt_gcInterval : option Z;
  opt_readable : option bool;
  opt_writable : option bool;
  opt_autoAuth : option bool;
}.

Inductive LogLevel := LogInfo | LogWarn | LogError.

(** What the manager does to the outside world. *)
Inductive Effect :=
| PoolEnsureRelay (u : string)
| RelayConnect (u : string)
| RelayDisconnect (u : string)
| PoolSubscribeMany (us : list string) (sub : nat)
| SubCloserClose (sub : nat)
| Nip42Handshake (u : string)
| HelperAuthenticateToRelays (us : list string)
| PoolPublish (us : list string) (ev : NostrEvent)
| SetTimeout (delay : Z)
| Console (lvl : LogLevel) (about : string).

(** The fields of the class, then the two of the model: the counter that
    names new handles and the trace.  [gcTimeout] holds the delay of the
    timer set last, [None] before the first one. *)
Record NostrManager := {
  params : NostrManagerParams;
  relays : list NostrRelay;
  gcTimeout : option Z;
  authenticatedRelays : gmap string bool;
  nextSub : nat;
  trace : list Effect;
}.

(** Field updates. *)
Definition with_relays (rs : list NostrRelay) (m : NostrManager) : NostrManager :=
  {| params := params m; relays := rs; gcTimeout := gcTimeout m;
     authenticatedRelays := authenticatedRelays m; nextSub := nextSub m;
     trace := trace m |}.

Definition with_gcTimeout (t : option Z) (m : NostrManager) : NostrManager :=
  {| params := params m; relays := relays m; gcTimeout := t;
     authenticatedRelays := authenticatedRelays m; nextSub := nextSub m;
     trace := trace m |}.

Definition with_authenticatedRelays (a : gmap string bool) (m : NostrManager) : NostrManager :=
  {| params := params m; relays := relays m; gcTimeout := gcTimeout m;
     authenticatedRelays := a; nextSub := nextSub m; trace := trace m |}.

Definition with_nextSub (n : nat) (m : NostrManager) : NostrManager :=
  {| params := params m; relays := relays m; gcTimeout := gcTimeout m;
     authenticatedRelays := authenticatedRelays m; nextSub := n;
     trace := trace m |}.

Definition emit (e : Effect) (m : NostrManager) : NostrManager :=
  {| params := params m; relays := relays m; gcTimeout := gcTimeout m;
     authenticatedRelays := authenticatedRelays m; nextSub := nextSub m;
     trace := trace m ++ [e] |}.

(** Effects appended to the trace in order. *)
Definition emit_all (es : list Effect) (m : NostrManager) : NostrManager :=
  foldl (fun m e => emit e m) m es.

Definition set_activeSubs (s : list nat) (r : NostrRelay) : NostrRelay :=
  {| url := url r; activeSubs := s; sleeping := sleeping r;
     lastActive := lastActive r; authenticated := authenticated r |}.

Definition set_sleeping (b : bool) (r : NostrRelay) : NostrRelay :=
  {| url := url r; activeSubs := activeSubs r; sleeping := b;
     lastActive := lastActive r; authenticated := authenticated r |}.

Definition set_lastActive (t : Z) (r : NostrRelay) : NostrRelay :=
  {| url := url r; activeSubs := activeSubs r; sleeping := sleeping r;
     lastActive := t; authenticated := authenticated r |}.

Definition set_authenticated (b : bool) (r : NostrRelay) : NostrRelay :=
  {| url := url r; activeSubs := activeSubs r; sleeping := sleeping r;
     lastActive := lastActive r; authenticated := b |}.

(** ** The monad of the methods *)

Inductive Thrown :=
| ErrNotReadable      (* new Error("not readable") *)
| ErrNotWritable      (* new Error("not writable") *)
| ErrTimeout          (* the timeout error of a fetch *)
| ErrOther (msg : string).

Inductive Result (A : Type) :=
| Ok (a : A)
| Throw (e : Thrown).
Arguments Ok {A} a.
Arguments Throw {A} e.

Definition M (A : Type) : Type := NostrManager -> Result A * NostrManager.

Definition ret {A} (a : A) : M A := fun m => (Ok a, m).

Definition bind {A B} (c : M A) (k : A -> M B) : M B :=
  fun m => match c m with
           | (Ok a, m') => k a m'
           | (Throw e, m') => (Throw e, m')
           end.

Definition throw {A} (e : Thrown) : M A := fun m => (Throw e, m).

(** [try { body } catch (e) { handler }] *)
Definition try_catch {A} (body : M A) (handler : Thrown -> M A) : M A :=
  fun m => match body m with
           | (Ok a, m') => (Ok a, m')
           | (Throw e, m') => handler e m'
           end.

Definition get : M NostrManager := fun m => (Ok m, m).
Definition modify (f : NostrManager -> NostrManager) : M unit := fun m => (Ok tt, f m).
Definition perform (e : Effect) : M unit := modify (emit e).

#[global] Instance M_ret : MRet M := @ret.
#[global] Instance M_bind : MBind M := fun A B k c => bind c k.

(** [for (const x of xs) body(x)] *)
Fixpoint for_of {A} (xs : list A) (body : A -> M unit) : M unit :=
  match xs with
  | [] => ret tt
  | x :: xs' => bind (body x) (fun _ => for_of xs' body)
  end.

(** ** Session registry *)

(** [this.relays.find(r => r.url === relayUrl)] *)
Definition find_relay (relayUrl : string) (rs : list NostrRelay) : option NostrRelay :=
  List.find (fun r => bool_decide (url r = relayUrl)) rs.

(** The object literal built by [addRelay]. *)
Definition new_relay (relayUrl : string) (now : Z) : NostrRelay :=
  {| url := relayUrl; activeSubs := []; sleeping := true;
     lastActive := now; authenticated := false |}.

(** [addRelay(relayUrl, params?)] *)
Definition addRelay (now : Z) (relayUrl : string) : M unit :=
  fun m =>
    match find_relay relayUrl (relays m) with
    | Some _ => (Ok tt, m)
    | None =>
        let m1 := emit (PoolEnsureRelay relayUrl) m in
        (Ok tt, with_relays (relays m1 ++ [new_relay relayUrl now]) m1)
    end.

(** [addRelays(relayUrls, params?)] *)
Definition addRelays (now : Z) (relayUrls : list string) : M unit :=
  for_of relayUrls (addRelay now).

(** In-place update of the session object at position [i]. *)
Definition update_relay (i : nat) (f : NostrRelay -> NostrRelay) : M unit :=
  modify (fun m => with_relays (alter f i (relays m)) m).

(** The writes of [keepAlive] to one session:
    [relay.sleeping = false] (if it was asleep) and
    [relay.lastActive = Date.now()]. *)
Definition wake (now : Z) (r : NostrRelay) : NostrRelay :=
  set_lastActive now (set_sleeping false r).

(** [keepAlive(relays)].  [relay.connect] is an [async] arrow, so calling
    it without [await] never throws into the [try]: the session is always
    marked awake. *)
Definition keepAlive_relay (now : Z) (i : nat) : M unit :=
  fun m =>
    match relays m !! i with
    | None => (Ok tt, m)
    | Some r =>
        let m1 := if sleeping r then emit (RelayConnect (url r)) m else m in
        update_relay i (wake now) m1
    end.

Definition keepAlive (now : Z) (objs : list nat) : M unit :=
  for_of objs (keepAlive_relay now).

(** ** Connection lifecycle (GC) *)

(** The test guarding the body of the sweep. *)
Definition gc_idle (keepAlive_ms now : Z) (r : NostrRelay) : bool :=
  negb (sleeping r)
  && bool_decide (length (activeSubs r) = 0%nat)
  && bool_decide (now - lastActive r > keepAlive_ms)%Z.

(** One pass of [for (const relay of this.relays)] in [gc].  The body only
    touches the session it visits.  [clock k] is what [Date.now()] returns
    when the session at position [k] is examined; [fails u] tells whether
    [await relay.disconnect()] rejects for the relay [u].  This is the
    sweep during which no other method of the manager runs: the sweep
    with what lands while it is suspended at its [await] is [gc_await]
    below. *)
Fixpoint gc_sweep (keepAlive_ms : Z) (clock : nat -> Z) (fails : string -> bool)
    (k : nat) (rs : list NostrRelay) : list NostrRelay * list Effect :=
  match rs with
  | [] => ([], [])
  | r :: rs' =>
      let '(rs'', es) := gc_sweep keepAlive_ms clock fails (S k) rs' in
      if gc_idle keepAlive_ms (clock k) r then
        (set_sleeping true r :: rs'',
         RelayDisconnect (url r)
           :: (if fails (url r) then [Console LogError (url r)] else []) ++ es)
      else (r :: rs'', es)
  end.

(** [gc()]: one sweep, then the timer for the next one. *)
Definition gc (clock : nat -> Z) (fails : string -> bool) : M unit :=
  fun m =>
    let '(rs, es) := gc_sweep (keepAliveTime (params m)) clock fails 0 (relays m) in
    let m1 := with_relays rs m in
    let m2 := emit_all es m1 in
    let delay := keepAliveTime (params m2) in
    (Ok tt, with_gcTimeout (Some delay) (emit (SetTimeout delay) m2)).

(** *** The sweep and its [await] *)

(** What the other callers of the manager do while a method is suspended
    at an [await]: their calls run on the manager, and an error of theirs
    goes to them, not to the suspended method. *)
Definition meanwhile (others : M unit) : M unit :=
  fun m => (Ok tt, (others m).2).

(** The body of the loop of [gc] for the session [relay] at position [k],
    with its [await]: the test is made, [relay.disconnect()] is called and
    the sweep is suspended until that promise settles; [during k] is what
    the other callers do in the meantime; then the sweep logs a rejection
    and assigns [relay.sleeping = true] without looking at the session
    again.  The session is found again at its position, which holds as
    long as [during k] does not shut the manager down. *)
Definition gc_body (clock : nat -> Z) (fails : string -> bool) (during : nat -> M unit)
    (k : nat) (relay : NostrRelay) : M unit :=
  m ← get;
  if gc_idle (keepAliveTime (params m)) (clock k) relay then
    perform (RelayDisconnect (url relay));;
    meanwhile (during k);;
    (if fails (url relay) then perform (Console LogError (url relay)) else ret tt);;
    update_relay k (set_sleeping true)
  else ret tt.

(** [for (const relay of this.relays)] steps through the live array, so
    sessions appended while the sweep is suspended are visited too; [fuel]
    bounds the number of sessions visited, and the result tells whether
    the end of the array was reached. *)
Fixpoint gc_loop (fuel : nat) (clock : nat -> Z) (fails : string -> bool)
    (during : nat -> M unit) (k : nat) : M bool :=
  match fuel with
  | O => ret false
  | S fuel' =>
      m ← get;
      match relays m !! k with
      | None => ret true
      | Some relay =>
          gc_body clock fails during k relay;;
          gc_loop fuel' clock fails during (S k)
      end
  end.

(** [gc()] with the calls that land while it is suspended.  With nothing
    landing it is [gc] above (lemma [gc_await_alone]). *)
Definition gc_await (fuel : nat) (clock : nat -> Z) (fails : string -> bool)
    (during : nat -> M unit) : M bool :=
  finished ← gc_loop fuel clock fails during 0;
  if finished : bool then
    m ← get;
    let delay := keepAliveTime (params m) in
    perform (SetTimeout delay);;
    modify (with_gcTimeout (Some delay));;
    ret true
  else ret false.

(** ** Construction *)

Definition default_ms : Z := 1000 * 60 * 5.

Definition resolve_options (o : option NostrManagerOptions) : NostrManagerParams :=
  {| keepAliveTime := default default_ms (o ≫= opt_keepAliveTime);
     gcInterval := default default_ms (o ≫= opt_gcInterval);
     connectionTimeout := o ≫= opt_connectionTimeout;
     readable := default true (o ≫= opt_readable);
     writable := default true (o ≫= opt_writable);
     autoAuth := default false (o ≫= opt_autoAuth) |}.

Definition empty_manager (p : NostrManagerParams) : NostrManager :=
  {| params := p; relays := []; gcTimeout := None;
     authenticatedRelays := ∅; nextSub := 0; trace := [] |}.

(** [new NostrManager(relays, params)].  Every session is created asleep,
    so the first sweep finds nothing to disconnect and runs to its
    [setTimeout] before the constructor returns. *)
Definition new_NostrManager (now : Z) (relayUrls : list string)
    (o : option NostrManagerOptions) : NostrManager :=
  let m0 := empty_manager (resolve_options o) in
  let m1 := (addRelays now relayUrls m0).2 in
  (gc (fun _ => now) (fun _ => false) m1).2.

(** ** Subscriptions *)

(** The callbacks of [SubscribeManyParams] act on the caller's side of the
    world, of some type [W], and may throw.  [subscribe] reads and rewrites
    [onevent] only; the other fields go to the pool as they are. *)
Definition Callback (W : Type) : Type := NostrEvent -> W -> Result unit * W.

Record SubscribeManyParams (W : Type) := {
  onevent : option (Callback W);
}.
Arguments onevent {W} _.

(** The array [relays] captured by the closure [close]: [this.relays]
    itself when no [relayUrls] was given, otherwise the fresh array made by
    [filter], whose members are sessions of the registry. *)
Inductive RelayScope :=
| WholeRegistry
| Selected (objs : list nat).

(** [type NostrSub]: [_sub] is the pool's subscription, named [sub_ref] in
    the trace and carrying the parameters the pool was given; [close] is
    [sub_close] below. *)
Record NostrSub (W : Type) := {
  sub_ref : nat;
  sub_relays : RelayScope;
  sub_params : SubscribeManyParams W;
}.
Arguments sub_ref {W} _.
Arguments sub_relays {W} _.
Arguments sub_params {W} _.

Definition scope_objs (sc : RelayScope) (m : NostrManager) : list nat :=
  match sc with
  | WholeRegistry => seq 0 (length (relays m))
  | Selected objs => objs
  end.

(** [rs.filter(p)], giving the selected sessions by position; [k] is the
    position of the head of [rs]. *)
Fixpoint filter_from (k : nat) (p : NostrRelay -> bool) (rs : list NostrRelay) : list nat :=
  match rs with
  | [] => []
  | r :: rs' =>
      if p r then k :: filter_from (S k) p rs' else filter_from (S k) p rs'
  end.

(** [relayUrls.includes(r.url)] *)
Definition includes (relayUrls : list string) (r : NostrRelay) : bool :=
  bool_decide (url r ∈ relayUrls).

(** [relayUrls ? this.relays.filter(r => relayUrls.includes(r.url)) : this.relays].
    The test is on the array itself, so an empty array selects by filter. *)
Definition target_scope (relayUrls : option (list string)) (m : NostrManager) : RelayScope :=
  match relayUrls with
  | Some us => Selected (filter_from 0 (includes us) (relays m))
  | None => WholeRegistry
  end.

(** [if (relayUrls) for (const relayUrl of relayUrls) this.addRelay(relayUrl)] *)
Definition ensure_relays (now : Z) (relayUrls : option (list string)) : M unit :=
  match relayUrls with
  | Some us => for_of us (addRelay now)
  | None => ret tt
  end.

(** [relays.map(r => r.url)] *)
Definition urls_of (objs : list nat) (m : NostrManager) : list string :=
  omap (fun i => url <$> relays m !! i) objs.

(** [activeSubs.indexOf(sub)], with [None] for [-1]. *)
Fixpoint index_of (x : nat) (l : list nat) : option nat :=
  match l with
  | [] => None
  | y :: l' => if bool_decide (y = x) then Some 0 else S <$> index_of x l'
  end.

(** [const i = activeSubs.indexOf(sub); if (i !== -1) activeSubs.splice(i, 1)] *)
Definition drop_sub (ref : nat) (l : list nat) : list nat :=
  match index_of ref l with
  | Some i => take i l ++ drop (S i) l
  | None => l
  end.

(** [relay.activeSubs.push(sub)] *)
Definition push_sub (ref : nat) (r : NostrRelay) : NostrRelay :=
  set_activeSubs (activeSubs r ++ [ref]) r.

(** The body of the loop of [close] on one session. *)
Definition remove_sub (ref : nat) (r : NostrRelay) : NostrRelay :=
  set_activeSubs (drop_sub ref (activeSubs r)) r.

(** The state of the promise returned by [fetch]. *)
Inductive Promise (A : Type) :=
| Pending
| Resolved (a : A)
| Rejected (e : Thrown).
Arguments Pending {A}.
Arguments Resolved {A} a.
Arguments Rejected {A} e.

(** Settling a promise a second time does nothing. *)
Definition resolve {A} (a : A) (p : Promise A) : Promise A :=
  match p with Pending => Resolved a | _ => p end.

Definition reject {A} (e : Thrown) (p : Promise A) : Promise A :=
  match p with Pending => Rejected e | _ => p end.

(** What the executor of [fetch] leaves behind: the handle [sub], the
    caller's [oneose], and the promise under construction.  The local array
    [fetchedEvents] is shared by the two callbacks; it is the first
    component of the world the subscription's callback acts on. *)
Record Fetch (W : Type) := {
  fetch_sub : NostrSub (list NostrEvent * W);
  fetch_onEose : W -> Result unit * W;
  fetch_promise : Promise (list NostrEvent);
}.
Arguments fetch_sub {W} _.
Arguments fetch_onEose {W} _.
Arguments fetch_promise {W} _.

(** [close] of the handle. *)
Definition sub_close {W} (sub : NostrSub W) : M unit :=
  perform (SubCloserClose (sub_ref sub));;
  m ← get;
  for_of (scope_objs (sub_relays sub) m)
    (fun i => update_relay i (remove_sub (sub_ref sub))).

(** The pool hands an event to the subscription: [params.onevent(event)]. *)
Definition deliver {W} (sub : NostrSub W) (event : NostrEvent) (w : W) : Result unit * W :=
  match onevent (sub_params sub) with
  | Some cb => cb event w
  | None => (Ok tt, w)
  end.

(** [(event) => { fetchedEvents.push(event); return onEvent(event); }] *)
Definition fetch_onevent {W} (onEvent : Callback W) : Callback (list NostrEvent * W) :=
  fun event fw =>
    let '(r, w') := onEvent event fw.2 in (r, (fw.1 ++ [event], w')).

Section Manager.

(** [verifyEvent] of nostr-tools. *)
Variable verifyEvent : NostrEvent -> bool.

(** [(event) => { if (verifyEvent(event)) onevent(event); }] *)
Definition wrap_onevent {W} (cb : Callback W) : Callback W :=
  fun event w => if verifyEvent event then cb event w else (Ok tt, w).

(** [subscribe(filters, params, relayUrls?)].  The filters are passed to
    the pool untouched and are left out. *)
Definition subscribe {W} (now : Z) (prm : SubscribeManyParams W)
    (relayUrls : option (list string)) : M (NostrSub W) :=
  m ← get;
  if negb (readable (params m)) then throw ErrNotReadable else
  let prm' := {| onevent := wrap_onevent <$> onevent prm |} in
  ensure_relays now relayUrls;;
  m ← get;
  let scope := target_scope relayUrls m in
  let objs := scope_objs scope m in
  let ref := nextSub m in
  modify (with_nextSub (S ref));;
  perform (PoolSubscribeMany (urls_of objs m) ref);;
  for_of objs (fun i => update_relay i (push_sub ref));;
  keepAlive now objs;;
  ret {| sub_ref := ref; sub_relays := scope; sub_params := prm' |}.

(** ** One-shot fetch *)

(** The executor given to [newPromiseWithTimeout], up to the return of
    [subscribe].  A [Throw] here is the executor rejecting.  The callbacks
    are those the caller wrote, acting on the caller's side: [fetch] and
    [subscribe] assign their wrappers to the caller's [params] object, so
    an object handed to a second call carries the wrappers of the first,
    which reach the manager again; such a callback is not a value of
    these types. *)
Definition fetch_start {W} (now : Z) (onEvent : option (Callback W))
    (onEose : option (W -> Result unit * W))
    (relayUrls : option (list string)) : M (Fetch W) :=
  let onEvent' := default (fun _ w => (Ok tt, w)) onEvent in
  let onEose' := default (fun w => (Ok tt, w)) onEose in
  sub ← subscribe now {| onevent := Some (fetch_onevent onEvent') |} relayUrls;
  ret {| fetch_sub := sub; fetch_onEose := onEose'; fetch_promise := Pending |}.

End Manager.

(** The callback [params.oneose] installed by [fetch]:
    [sub.close(); resolve(fetchedEvents); return onEose()]. *)
Definition fetch_oneose {W} (f : Fetch W) (fw : list NostrEvent * W)
    : M (Fetch W * (Result unit * (list NostrEvent * W))) :=
  sub_close (fetch_sub f);;
  let f' := {| fetch_sub := fetch_sub f; fetch_onEose := fetch_onEose f;
               fetch_promise := resolve fw.1 (fetch_promise f) |} in
  let '(r, w') := fetch_onEose f fw.2 in
  ret (f', (r, (fw.1, w'))).

(** Modelled from the spec: [newPromiseWithTimeout] of [utils/timeout],
    which is not among the sources.  "If the timeout elapses first, the
    operation fails with a timeout error."  Its timer knows the promise
    only: [sub] is a local of the executor and [fetch] hands nothing else
    over, so the firing timer has no access to the manager. *)
Definition fetch_timeout {W} (f : Fetch W) : Fetch W :=
  {| fetch_sub := fetch_sub f; fetch_onEose := fetch_onEose f;
     fetch_promise := reject ErrTimeout (fetch_promise f) |}.

(** ** Authentication *)

(** How one attempt against a relay goes: [pool.ensureRelay] may reject,
    the handshake of [nostr-helper-functions] (not among the sources) may
    throw, or it returns its verdict. *)
Inductive AuthOutcome :=
| EnsureRelayRejects
| HandshakeThrows
| HandshakeReturns (result : bool).

(** [await this.pool.ensureRelay(relayUrl)] *)
Definition pool_ensureRelay (o : AuthOutcome) (relayUrl : string) : M unit :=
  perform (PoolEnsureRelay relayUrl);;
  match o with
  | EnsureRelayRejects => throw (ErrOther "ensureRelay")
  | _ => ret tt
  end.

(** [await authenticateToRelay(signer, relay, relayUrl)], the helper. *)
Definition helper_authenticateToRelay (o : AuthOutcome) (relayUrl : string) : M bool :=
  perform (Nip42Handshake relayUrl);;
  match o with
  | HandshakeReturns result => ret result
  | _ => throw (ErrOther "authenticateToRelay")
  end.

(** [const relayObj = this.relays.find(r => r.url === relayUrl);
     if (relayObj) relayObj.authenticated = result] *)
Fixpoint mark_authenticated (relayUrl : string) (result : bool)
    (rs : list NostrRelay) : list NostrRelay :=
  match rs with
  | [] => []
  | r :: rs' =>
      if bool_decide (url r = relayUrl) then set_authenticated result r :: rs'
      else r :: mark_authenticated relayUrl result rs'
  end.

Definition record_outcome (relayUrl : string) (result : bool) : M unit :=
  modify (fun m => with_authenticatedRelays
                     (<[relayUrl := result]> (authenticatedRelays m)) m);;
  modify (fun m => with_relays (mark_authenticated relayUrl result (relays m)) m).

(** [authenticateToRelay(signer, relayUrl)] *)
Definition authenticateToRelay (now : Z) (o : AuthOutcome) (relayUrl : string) : M bool :=
  try_catch
    (m ← get;
     match find_relay relayUrl (relays m) with
     | Some _ => ret tt
     | None => addRelay now relayUrl
     end;;
     pool_ensureRelay o relayUrl;;
     result ← helper_authenticateToRelay o relayUrl;
     record_outcome relayUrl result;;
     perform (Console (if result then LogInfo else LogWarn) relayUrl);;
     ret result : M bool)
    (fun _ => perform (Console LogError relayUrl);; ret false).

(** [isRelayAuthenticated(relayUrl)] *)
Definition isRelayAuthenticated (relayUrl : string) (m : NostrManager) : bool :=
  bool_decide (authenticatedRelays m !! relayUrl = Some true).

(** [if (!relayUrls || relayUrls.length === 0) relayUrls = this.relays.map(r => r.url)] *)
Definition auth_targets (relayUrls : option (list string)) (m : NostrManager) : list string :=
  match relayUrls with
  | None | Some [] => url <$> relays m
  | Some us => us
  end.

(** [authenticateToRelays(signer, relayUrls?)].  The helper of the same
    name is not among the sources; it is the argument [helper], and the
    call to it is logged with the urls it receives.  Its result, a [Map],
    is the list of its entries in insertion order. *)
Definition authenticateToRelays (helper : list string -> M (list (string * bool)))
    (relayUrls : option (list string)) : M (list (string * bool)) :=
  m ← get;
  let relayUrls' := auth_targets relayUrls m in
  perform (Console LogInfo "");;
  perform (HelperAuthenticateToRelays relayUrls');;
  results ← helper relayUrls';
  for_of results (fun ur => record_outcome ur.1 ur.2);;
  perform (Console LogInfo "");;
  ret results.

(** ** Publish *)

(** The body of [for (const relay of relays)] in [publish]. *)
Definition publish_auth (now : Z) (env : string -> AuthOutcome) (i : nat) : M unit :=
  m ← get;
  match relays m !! i with
  | None => ret tt
  | Some relay =>
      if negb (authenticated relay) then
        try_catch
          (result ← authenticateToRelay now (env (url relay)) (url relay);
           if negb result then perform (Console LogWarn (url relay)) else ret tt
           : M unit)
          (fun _ => perform (Console LogWarn (url relay)))
      else ret tt
  end.

(** [publish(event, relayUrls?, signer?)].  [signer] tells whether a signer
    was supplied; what the signer and the relay do during a handshake is
    [env].  The loop over [relays] cannot lengthen the registry, since each
    url it authenticates to is present already. *)
Definition publish (now : Z) (env : string -> AuthOutcome) (event : NostrEvent)
    (relayUrls : option (list string)) (signer : bool) : M unit :=
  m ← get;
  if negb (writable (params m)) then throw ErrNotWritable else
  ensure_relays now relayUrls;;
  m ← get;
  let scope := target_scope relayUrls m in
  keepAlive now (scope_objs scope m);;
  (if autoAuth (params m) && signer
   then for_of (scope_objs scope m) (publish_auth now env)
   else ret tt);;
  m ← get;
  perform (PoolPublish (urls_of (scope_objs scope m) m) event).

(** ** Vocabulary of the statements *)

(** The registry holds at most one session per url. *)
Definition registry_wf (m : NostrManager) : Prop := NoDup (url <$> relays m).

(** Handles are allocated from [nextSub]: no session lists a handle that
    has not been created yet.  This is what object identity of a new
    [NostrSub] amounts to. *)
Definition subs_allocated (m : NostrManager) : Prop :=
  ∀ r s, r ∈ relays m → s ∈ activeSubs r → (s < nextSub m)%nat.

(** How often the handle [ref] occurs in a list of subscriptions. *)
Definition occurrences (ref : nat) (l : list nat) : nat :=
  length (filter (λ s, s = ref) l).

(** The subscriptions listed by the session at position [i]; none when the
    registry has no session there. *)
Definition subs_at (i : nat) (m : NostrManager) : list nat :=
  default [] (activeSubs <$> relays m !! i).

(** Since [m], the handle [ref] has been added to no list of
    subscriptions: every session lists it at most as often as the session
    at the same position did in [m].  The one place where the class adds
    to [activeSubs] is the loop of [subscribe] that pushes the handle just
    made (lemma [steps_adds_no_handle]). *)
Definition not_added_since (ref : nat) (m m' : NostrManager) : Prop :=
  ∀ i, (occurrences ref (subs_at i m') ≤ occurrences ref (subs_at i m))%nat.

(** The same in-place update applied to the sessions at the positions
    [objs], one after the other. *)
Definition alter_all (f : NostrRelay → NostrRelay) (objs : list nat)
    (rs : list NostrRelay) : list NostrRelay :=
  foldl (λ rs i, alter f i rs) rs objs.

(** The boolean an authentication attempt comes to. *)
Definition outcome_result (o : AuthOutcome) : bool :=
  match o with
  | HandshakeReturns result => result
  | _ => false
  end.

(** The relays a handshake was started with, in the order of the trace. *)
Definition handshakes (es : list Effect) : list string :=
  omap (λ e, match e with Nip42Handshake u => Some u | _ => None end) es.

(** ** Concrete managers, used to run the statements *)

Definition relay_a : string := "wss://a.example".
Definition relay_b : string := "wss://b.example".

(** A verifier accepting the events signed ["valid"], and two events. *)
Definition demo_verify (e : NostrEvent) : bool :=
  bool_decide (ev_sig e = "valid").

Definition demo_event (sig : string) : NostrEvent :=
  {| ev_id := "e1"; ev_pubkey := "alice"; ev_created_at := 1700000000;
     ev_kind := 1; ev_tags := []; ev_content := "hello"; ev_sig := sig |}.

(** A caller's callback that leaves a mark on every call and then throws. *)
Definition demo_callback : Callback (list NostrEvent) :=
  λ e w, (Throw (ErrOther "callback"), w ++ [e]).

Definition demo_options (rd wr auto : bool) : NostrManagerOptions :=
  {| opt_connectionTimeout := None; opt_keepAliveTime := None;
     opt_gcInterval := None; opt_readable := Some rd;
     opt_writable := Some wr; opt_autoAuth := Some auto |}.

(** Two relays, both awake: a publish at time 0 has authenticated to
    [relay_a], and one subscription is open on [relay_b]. *)
Definition demo_manager : NostrManager :=
  let m0 := new_NostrManager 0 [relay_a; relay_b] (Some (demo_options true true true)) in
  let m1 := (publish 0 (λ _, HandshakeReturns true) (demo_event "valid") (Some [relay_a]) true m0).2 in
  (subscribe (W:=unit) demo_verify 0 {| onevent := None |} (Some [relay_b]) m1).2.

(** ** Vocabulary of the further statements *)

(** A session with an active subscription is awake. *)
Definition awake_if_subscribed (m : NostrManager) : Prop :=
  ∀ r, r ∈ relays m → activeSubs r ≠ [] → sleeping r = false.

(** A session flagged as authenticated is recorded as authenticated. *)
Definition flag_recorded (m : NostrManager) : Prop :=
  ∀ r, r ∈ relays m → authenticated r = true →
       authenticatedRelays m !! url r = Some true.

(** The urls [keepAlive] reconnects: those of the targeted sessions that
    are asleep, in the order of the targets. *)
Definition asleep_urls (objs : list nat) (rs : list NostrRelay) : list string :=
  omap (λ i, r ← rs !! i; if sleeping r then Some (url r) else None) objs.

(** The relays a sweep disconnected, in the order of the trace. *)
Definition disconnects (es : list Effect) : list string :=
  omap (λ e, match e with RelayDisconnect u => Some u | _ => None end) es.

(** The pool delivers the events [evs] to a subscription one after the
    other.  An error thrown by the callback goes to the pool and does not
    keep the relay from delivering the next event. *)
Fixpoint deliver_all {W} (sub : NostrSub W) (evs : list NostrEvent) (w : W) : W :=
  match evs with
  | [] => w
  | e :: evs' => deliver_all sub evs' (deliver sub e w).2
  end.

(** The caller's world after its [onevent] has seen the events [evs]. *)
Definition run_callback {W} (cb : Callback W) (evs : list NostrEvent) (w : W) : W :=
  foldl (λ w e, (cb e w).2) w evs.

(** ** Manager shutdown *)

(** The handle object a session's list refers to by [ref].  What [close]
    of a handle does depends only on its name and on the array it closed
    over, given by [scopes]. *)
Definition handle_of (scopes : nat → RelayScope) (ref : nat) : NostrSub unit :=
  {| sub_ref := ref; sub_relays := scopes ref; sub_params := {| onevent := None |} |}.

(** The body of [for (const relay of this.relays)] in [close]: the handles
    listed by the session when its turn comes are closed, then the session
    is disconnected (neither is awaited). *)
Definition close_relay (scopes : nat → RelayScope) (i : nat) : M unit :=
  m ← get;
  match relays m !! i with
  | None => ret tt
  | Some relay =>
      for_of (activeSubs relay) (λ ref, sub_close (handle_of scopes ref));;
      perform (RelayDisconnect (url relay))
  end.

(** [close()] of the manager.  The result is the timer handed to
    [clearTimeout]. *)
Definition close (scopes : nat → RelayScope) : M (option Z) :=
  m ← get;
  let timer := gcTimeout m in
  modify (with_authenticatedRelays ∅);;
  for_of (seq 0 (length (relays m))) (close_relay scopes);;
  modify (with_relays []);;
  ret timer.

(** The handles closed at the pool, in the order of the trace. *)
Definition closed_handles (es : list Effect) : list nat :=
  omap (λ e, match e with SubCloserClose ref => Some ref | _ => None end) es.

(** ** The manager as a transition system *)

(** What the methods keep true of a session, given the next free handle
    number and the authentication record: a session with a subscription is
    awake, lists only handles already made, and is flagged authenticated
    only if the record says so. *)
Definition session_ok (n : nat) (rec : gmap string bool) (r : NostrRelay) : Prop :=
  (activeSubs r ≠ [] → sleeping r = false)
  ∧ (∀ s, s ∈ activeSubs r → (s < n)%nat)
  ∧ (authenticated r = true → rec !! url r = Some true).

Definition Inv (m : NostrManager) : Prop :=
  registry_wf m ∧ awake_if_subscribed m ∧ subs_allocated m ∧ flag_recorded m.

(** One call of a method whose code is in the class, with any arguments
    and any behaviour of the relays, run to its end before the next call
    starts: two calls that overlap at an [await] are not a step.
    [authenticateToRelays], which hands the manager to a helper that is
    not among the sources, is left out. *)
Inductive step : NostrManager → NostrManager → Prop :=
| step_addRelay now u m :
    step m (addRelay now u m).2
| step_addRelays now us m :
    step m (addRelays now us m).2
| step_gc clock fails m :
    step m (gc clock fails m).2
| step_subscribe (W : Type) verifyEvent now (prm : SubscribeManyParams W) relayUrls m :
    step m (subscribe verifyEvent now prm relayUrls m).2
| step_sub_close (W : Type) (sub : NostrSub W) m :
    step m (sub_close sub m).2
| step_fetch_start (W : Type) verifyEvent now (onEvent : option (Callback W))
    onEose relayUrls m :
    step m (fetch_start verifyEvent now onEvent onEose relayUrls m).2
| step_fetch_oneose (W : Type) (f : Fetch W) fw m :
    step m (fetch_oneose f fw m).2
| step_publish now env event relayUrls signer m :
    step m (publish now env event relayUrls signer m).2
| step_authenticateToRelay now o u m :
    step m (authenticateToRelay now o u m).2
| step_close scopes m :
    step m (close scopes m).2.

(** The managers one can get: built by the constructor, then used. *)
Inductive reachable : NostrManager → Prop :=
| reachable_new now us o : reachable (new_NostrManager now us o)
| reachable_step m m' : reachable m → step m m' → reachable m'.


(** From [m] to [m'] no handle made before [m] was pushed to a session,
    and no handle number was given out a second time. *)
Definition adds_no_handle (m m' : NostrManager) : Prop :=
  (nextSub m ≤ nextSub m')%nat
  ∧ ∀ ref, (ref < nextSub m)%nat → not_added_since ref m m'.

(** * Properties *)

(** ** The registry holds one session per url *)

Lemma find_relay_None u rs : find_relay u rs = None ↔ u ∉ url <$> rs.
Proof.
  unfold find_relay. induction rs as [|r rs IH]; simpl.
  - split; [intros _; apply not_elem_of_nil | done].
  - rewrite not_elem_of_cons. case_bool_decide as Hu.
    + split; [done | intros [? _]; congruence].
    + rewrite IH. split; [intros ?; split; [intros ->|]; done | intros [_ ?]; done].
Qed.

Lemma find_relay_is_Some u rs : is_Some (find_relay u rs) ↔ u ∈ url <$> rs.
Proof.
  destruct (find_relay u rs) eqn:E.
  - split; [intros _ | eauto].
    destruct (decide (u ∈ url <$> rs)) as [|Hn]; [done|].
    apply find_relay_None in Hn. congruence.
  - split; [intros [? ?]; done|]. intros Hin.
    apply find_relay_None in E. done.
Qed.

Lemma addRelay_present now u m :
  u ∈ url <$> relays m → addRelay now u m = (Ok tt, m).
Proof.
  intros Hin. apply find_relay_is_Some in Hin as [r Hr].
  unfold addRelay. by rewrite Hr.
Qed.

Lemma addRelay_absent now u m :
  u ∉ url <$> relays m →
  addRelay now u m
  = (Ok tt, with_relays (relays m ++ [new_relay u now]) (emit (PoolEnsureRelay u) m)).
Proof.
  intros Hn. apply find_relay_None in Hn. unfold addRelay. by rewrite Hn.
Qed.

Lemma addRelay_registered now u m : u ∈ url <$> relays (addRelay now u m).2.
Proof.
  destruct (decide (u ∈ url <$> relays m)) as [Hin|Hn].
  - by rewrite addRelay_present.
  - rewrite addRelay_absent by done. simpl. rewrite fmap_app. set_solver.
Qed.

Lemma addRelay_wf now u m : registry_wf m → registry_wf (addRelay now u m).2.
Proof.
  unfold registry_wf. intros Hwf.
  destruct (decide (u ∈ url <$> relays m)) as [Hin|Hn].
  - by rewrite addRelay_present.
  - rewrite addRelay_absent by done. simpl. rewrite fmap_app.
    apply NoDup_app. split_and!; [done| |apply NoDup_singleton].
    intros x Hx [->|Hnil]%elem_of_cons; [done | by apply elem_of_nil in Hnil].
Qed.

Lemma addRelay_ok now u m : (addRelay now u m).1 = Ok tt.
Proof. unfold addRelay. by destruct (find_relay u (relays m)). Qed.

Lemma sessions_for_url_unique u rs :
  NoDup (url <$> rs) → u ∈ url <$> rs →
  length (filter (λ r, url r = u) rs) = 1%nat.
Proof.
  induction rs as [|r rs IH]; simpl; intros Hnd Hin.
  - by apply elem_of_nil in Hin.
  - apply NoDup_cons in Hnd as [Hr Hnd]. rewrite filter_cons.
    destruct (decide (url r = u)) as [Hu|Hne]; simpl.
    + f_equal. destruct (filter _ rs) as [|r' l] eqn:E; [done|].
      assert (r' ∈ filter (λ r, url r = u) rs) as Hr' by (rewrite E; left).
      apply list_elem_of_filter in Hr' as [Heq Hr']. destruct Hr.
      rewrite Hu, <- Heq. by apply list_elem_of_fmap_2.
    + apply IH; [done|]. apply elem_of_cons in Hin as [?|?]; [congruence|done].
Qed.

(** C6. [addRelay] is idempotent: on a registry with one session per url,
    a call succeeds, a second call with the same url returns normally and
    leaves the manager exactly as it was (no session added, no call to the
    pool), the registry then holds exactly one session for that url, and a
    session created by the first call is asleep, was last active at the
    time of the call, is not authenticated and has no active
    subscription. *)
Theorem addRelay_idempotent (now1 now2 : Z) (u : string) (m : NostrManager) :
  registry_wf m →
  let m1 := (addRelay now1 u m).2 in
  (addRelay now1 u m).1 = Ok tt
  ∧ addRelay now2 u m1 = (Ok tt, m1)
  ∧ length (filter (λ r, url r = u) (relays m1)) = 1%nat
  ∧ (u ∉ url <$> relays m →
     relays m1 = relays m ++ [{| url := u; activeSubs := []; sleeping := true;
                                 lastActive := now1; authenticated := false |}]).
Proof.
  intros Hwf m1. split_and!.
  - apply addRelay_ok.
  - apply addRelay_present, addRelay_registered.
  - apply sessions_for_url_unique; [by apply addRelay_wf | apply addRelay_registered].
  - intros Hn. unfold m1. by rewrite addRelay_absent.
Qed.

(** ** The GC sweep *)

Lemma emit_all_fields es m :
  let m' := emit_all es m in
  params m' = params m ∧ relays m' = relays m ∧ gcTimeout m' = gcTimeout m
  ∧ authenticatedRelays m' = authenticatedRelays m ∧ nextSub m' = nextSub m
  ∧ trace m' = trace m ++ es.
Proof.
  revert m. induction es as [|e es IH]; intros m; simpl.
  - by rewrite app_nil_r.
  - destruct (IH (emit e m)) as (-> & -> & -> & -> & -> & ->). simpl.
    by rewrite <- app_assoc.
Qed.

Lemma gc_idle_spec kat now r :
  gc_idle kat now r = true
  ↔ sleeping r = false ∧ activeSubs r = [] ∧ (now - lastActive r > kat)%Z.
Proof.
  unfold gc_idle. rewrite !andb_true_iff, negb_true_iff, !bool_decide_eq_true.
  rewrite length_zero_iff_nil. tauto.
Qed.

Lemma gc_sweep_length kat clock fails k rs :
  length (gc_sweep kat clock fails k rs).1 = length rs.
Proof.
  revert k. induction rs as [|r rs IH]; intros k; simpl; [done|].
  specialize (IH (S k)). destruct (gc_sweep kat clock fails (S k) rs) as [rs' es].
  destruct (gc_idle kat (clock k) r); simpl in *; by rewrite IH.
Qed.

Lemma gc_sweep_lookup kat clock fails k rs i r :
  rs !! i = Some r →
  (gc_sweep kat clock fails k rs).1 !! i
  = Some (if gc_idle kat (clock (k + i)%nat) r then set_sleeping true r else r).
Proof.
  revert k i. induction rs as [|r0 rs IH]; intros k i Hi; simpl; [done|].
  specialize (IH (S k)). destruct (gc_sweep kat clock fails (S k) rs) as [rs' es].
  destruct i as [|i]; simpl in Hi.
  - injection Hi as ->. rewrite Nat.add_0_r.
    by destruct (gc_idle kat (clock k) r).
  - specialize (IH i Hi). replace (k + S i)%nat with (S k + i)%nat by lia.
    by destruct (gc_idle kat (clock k) r0).
Qed.

Lemma gc_sweep_disconnects kat clock fails k rs u :
  RelayDisconnect u ∈ (gc_sweep kat clock fails k rs).2
  ↔ ∃ i r, rs !! i = Some r ∧ url r = u
           ∧ gc_idle kat (clock (k + i)%nat) r = true.
Proof.
  revert k. induction rs as [|r0 rs IH]; intros k; simpl.
  - split; [intros H; by apply elem_of_nil in H | intros (i & r & Hi & _); done].
  - specialize (IH (S k)). destruct (gc_sweep kat clock fails (S k) rs) as [rs' es].
    simpl in IH.
    assert (RelayDisconnect u ∈ es
            ↔ ∃ i r, (r0 :: rs) !! S i = Some r ∧ url r = u
                     ∧ gc_idle kat (clock (k + S i)%nat) r = true) as IH'.
    { rewrite IH. split; intros (i & r & Hi & Hu & Hidle); exists i, r;
        (replace (k + S i)%nat with (S k + i)%nat in * by lia); done. }
    destruct (gc_idle kat (clock k) r0) eqn:Hidle0; simpl.
    + rewrite elem_of_cons, elem_of_app, IH'. split.
      * intros [Heq|[Hlog|(i & r & ?)]].
        -- injection Heq as ->. exists 0%nat, r0. by rewrite Nat.add_0_r.
        -- destruct (fails (url r0)); [|by apply elem_of_nil in Hlog].
           apply list_elem_of_singleton in Hlog. done.
        -- by exists (S i), r.
      * intros ([|i] & r & Hi & Hu & Hidle).
        -- left. simpl in Hi. by injection Hi as ->; subst.
        -- right; right. by exists i, r.
    + rewrite IH'. split.
      * intros (i & r & ?). by exists (S i), r.
      * intros ([|i] & r & Hi & Hu & Hidle).
        -- simpl in Hi. injection Hi as ->. rewrite Nat.add_0_r in Hidle. congruence.
        -- by exists i, r.
Qed.

Lemma gc_run clock fails m :
  let sw := gc_sweep (keepAliveTime (params m)) clock fails 0 (relays m) in
  (gc clock fails m).1 = Ok tt
  ∧ params (gc clock fails m).2 = params m
  ∧ relays (gc clock fails m).2 = sw.1
  ∧ gcTimeout (gc clock fails m).2 = Some (keepAliveTime (params m))
  ∧ trace (gc clock fails m).2
    = trace m ++ sw.2 ++ [SetTimeout (keepAliveTime (params m))].
Proof.
  unfold gc. destruct (gc_sweep _ clock fails 0 (relays m)) as [rs es]. simpl.
  destruct (emit_all_fields es (with_relays rs m)) as (Hp & Hr & _ & _ & _ & Ht).
  simpl in *. rewrite Hp, Hr, Ht. by rewrite <- app_assoc.
Qed.

(** A sweep during which nothing else runs leaves the registry at its
    length; a session that is awake, has no active subscription and has
    been idle for more than [keepAliveTime] when the sweep examines it is
    disconnected and marked asleep; every other session (one with an
    active subscription, one already asleep, one idle for [keepAliveTime]
    or less) is left exactly as it was; and the sweep disconnects no relay
    but those of the idle sessions. *)
Lemma gc_uninterrupted_sweep (clock : nat → Z) (fails : string → bool)
    (m : NostrManager) (i : nat) (r : NostrRelay) :
  relays m !! i = Some r →
  let m' := (gc clock fails m).2 in
  let idle (j : nat) (s : NostrRelay) :=
    sleeping s = false ∧ activeSubs s = []
    ∧ (clock j - lastActive s > keepAliveTime (params m))%Z in
  length (relays m') = length (relays m)
  ∧ (idle i r →
     relays m' !! i = Some (set_sleeping true r)
     ∧ RelayDisconnect (url r) ∈ drop (length (trace m)) (trace m'))
  ∧ (¬ idle i r → relays m' !! i = Some r)
  ∧ (∀ u, RelayDisconnect u ∈ drop (length (trace m)) (trace m') →
          ∃ j s, relays m !! j = Some s ∧ url s = u ∧ idle j s).
Proof.
  intros Hi m' idle. subst m'.
  destruct (gc_run clock fails m) as (_ & _ & Hr & _ & Ht). simpl in Hr, Ht.
  rewrite Hr, Ht, drop_app_length.
  pose proof (gc_sweep_lookup (keepAliveTime (params m)) clock fails 0 _ _ _ Hi) as Hl.
  simpl in Hl. split_and!.
  - apply gc_sweep_length.
  - intros Hidle. pose proof Hidle as Hb. apply gc_idle_spec in Hb.
    rewrite Hl, Hb. split; [done|]. apply elem_of_app. left.
    apply gc_sweep_disconnects. by exists i, r.
  - intros Hn. rewrite Hl. destruct (gc_idle _ _ r) eqn:Hb; [|done].
    apply gc_idle_spec in Hb. done.
  - intros u [Hu|Hu]%elem_of_app.
    + apply gc_sweep_disconnects in Hu as (j & s & Hj & Hs & Hb).
      apply gc_idle_spec in Hb. by exists j, s.
    + by apply list_elem_of_singleton in Hu.
Qed.

(** ** Loops over sessions *)

Lemma manager_eq m m' :
  params m = params m' → relays m = relays m' → gcTimeout m = gcTimeout m' →
  authenticatedRelays m = authenticatedRelays m' → nextSub m = nextSub m' →
  trace m = trace m' → m = m'.
Proof. destruct m, m'; simpl; intros; by subst. Qed.

Lemma for_of_update_relay f objs m :
  for_of objs (λ i, update_relay i f) m
  = (Ok tt, with_relays (alter_all f objs (relays m)) m).
Proof.
  revert m. induction objs as [|i objs IH]; intros m; simpl.
  - unfold ret. f_equal. by destruct m.
  - unfold bind, update_relay at 1, modify. rewrite IH. done.
Qed.

Lemma alter_all_length f objs rs : length (alter_all f objs rs) = length rs.
Proof.
  revert rs. induction objs as [|i objs IH]; intros rs; simpl; [done|].
  unfold alter_all in *. simpl. by rewrite IH, length_alter.
Qed.

Lemma alter_all_lookup f objs rs i :
  NoDup objs →
  alter_all f objs rs !! i
  = (if bool_decide (i ∈ objs) then f else id) <$> rs !! i.
Proof.
  revert rs. induction objs as [|j objs IH]; intros rs Hnd.
  - unfold alter_all. simpl. by destruct (rs !! i).
  - apply NoDup_cons in Hnd as [Hj Hnd]. unfold alter_all in *. simpl.
    rewrite IH by done. destruct (decide (i = j)) as [->|Hne].
    + rewrite list_lookup_alter_eq.
      rewrite (bool_decide_eq_false_2 _ Hj).
      rewrite bool_decide_eq_true_2 by left.
      by destruct (rs !! j).
    + rewrite list_lookup_alter_ne by done.
      destruct (bool_decide (i ∈ objs)) eqn:E.
      * apply bool_decide_eq_true in E.
        rewrite bool_decide_eq_true_2 by (by right). done.
      * apply bool_decide_eq_false in E.
        rewrite bool_decide_eq_false_2; [done|].
        intros [?|?]%elem_of_cons; done.
Qed.

Lemma alter_all_fixed f objs rs :
  (∀ r, r ∈ rs → f r = r) → alter_all f objs rs = rs.
Proof.
  intros Hf. induction objs as [|i objs IH]; [done|].
  unfold alter_all in *. simpl.
  assert (alter f i rs = rs) as ->; [|done].
  apply list_eq. intros j. destruct (decide (i = j)) as [->|Hne].
  - rewrite list_lookup_alter_eq. destruct (rs !! j) as [r|] eqn:E; [|done].
    simpl. f_equal. apply Hf. by eapply list_elem_of_lookup_2.
  - by rewrite list_lookup_alter_ne.
Qed.

Lemma filter_from_bounds k p rs i :
  i ∈ filter_from k p rs → (k ≤ i < k + length rs)%nat.
Proof.
  revert k. induction rs as [|r rs IH]; intros k; simpl.
  - intros H. by apply elem_of_nil in H.
  - destruct (p r).
    + intros [->|H]%elem_of_cons; [lia|]. apply IH in H. lia.
    + intros H. apply IH in H. lia.
Qed.

Lemma filter_from_NoDup k p rs : NoDup (filter_from k p rs).
Proof.
  revert k. induction rs as [|r rs IH]; intros k; simpl; [apply NoDup_nil_2|].
  destruct (p r); [|apply IH].
  apply NoDup_cons. split; [|apply IH].
  intros H%filter_from_bounds. lia.
Qed.

Lemma filter_from_spec k p rs i :
  i ∈ filter_from k p rs
  ↔ ∃ r, (k ≤ i)%nat ∧ rs !! (i - k)%nat = Some r ∧ p r = true.
Proof.
  revert k. induction rs as [|r0 rs IH]; intros k; simpl.
  - split; [intros H; by apply elem_of_nil in H | intros (r & _ & H & _); done].
  - assert (i ∈ filter_from (S k) p rs
            ↔ ∃ r, (S k ≤ i)%nat ∧ (r0 :: rs) !! (i - k)%nat = Some r ∧ p r = true)
      as IH'.
    { rewrite IH. split; intros (r & Hk & Hr & Hp); exists r; split_and!; try done.
      - replace (i - k)%nat with (S (i - S k)) by lia. done.
      - replace (i - k)%nat with (S (i - S k)) in Hr by lia. done. }
    destruct (p r0) eqn:Hp0.
    + rewrite elem_of_cons, IH'. split.
      * intros [->|(r & Hk & Hr & Hp)].
        -- exists r0. rewrite Nat.sub_diag. done.
        -- exists r. split_and!; [lia|done..].
      * intros (r & Hk & Hr & Hp). destruct (decide (i = k)) as [->|Hne]; [by left|].
        right. exists r. split_and!; [lia|done..].
    + rewrite IH'. split.
      * intros (r & Hk & Hr & Hp). exists r. split_and!; [lia|done..].
      * intros (r & Hk & Hr & Hp). destruct (decide (i = k)) as [->|Hne].
        -- rewrite Nat.sub_diag in Hr. simpl in Hr. congruence.
        -- exists r. split_and!; [lia|done..].
Qed.

Lemma scope_objs_NoDup relayUrls m : NoDup (scope_objs (target_scope relayUrls m) m).
Proof.
  destruct relayUrls; simpl; [apply filter_from_NoDup | apply NoDup_seq].
Qed.

Lemma filter_from_includes_nil k rs : filter_from k (includes []) rs = [].
Proof.
  revert k. induction rs as [|r rs IH]; intros k; simpl; [done|].
  apply IH.
Qed.

Lemma bind_Ok {A B} (c : M A) (k : A → M B) m a m' :
  c m = (Ok a, m') → (c ≫= k) m = k a m'.
Proof. intros H. unfold mbind, M_bind, bind. by rewrite H. Qed.

Lemma alter_out_of_range (f : NostrRelay → NostrRelay) i (rs : list NostrRelay) :
  rs !! i = None → alter f i rs = rs.
Proof.
  intros Hi. apply list_eq. intros j. destruct (decide (i = j)) as [->|Hne].
  - by rewrite list_lookup_alter_eq, Hi.
  - by rewrite list_lookup_alter_ne.
Qed.

Lemma keepAlive_relay_run now i m :
  let m' := (keepAlive_relay now i m).2 in
  (keepAlive_relay now i m).1 = Ok tt
  ∧ relays m' = alter (wake now) i (relays m)
  ∧ params m' = params m ∧ gcTimeout m' = gcTimeout m
  ∧ authenticatedRelays m' = authenticatedRelays m ∧ nextSub m' = nextSub m
  ∧ ∃ es, trace m' = trace m ++ es ∧ Forall (λ e, ∃ u, e = RelayConnect u) es.
Proof.
  unfold keepAlive_relay. destruct (relays m !! i) as [r|] eqn:Hi; simpl.
  - split_and!; try done; try by destruct (sleeping r).
    destruct (sleeping r); simpl.
    + exists [RelayConnect (url r)]. split; [done|]. repeat constructor. by eexists.
    + exists []. by rewrite app_nil_r.
  - split_and!; try done.
    + by rewrite alter_out_of_range.
    + exists []. by rewrite app_nil_r.
Qed.

Lemma keepAlive_run now objs m :
  let m' := (keepAlive now objs m).2 in
  (keepAlive now objs m).1 = Ok tt
  ∧ relays m' = alter_all (wake now) objs (relays m)
  ∧ params m' = params m ∧ gcTimeout m' = gcTimeout m
  ∧ authenticatedRelays m' = authenticatedRelays m ∧ nextSub m' = nextSub m
  ∧ ∃ es, trace m' = trace m ++ es ∧ Forall (λ e, ∃ u, e = RelayConnect u) es.
Proof.
  revert m. induction objs as [|i objs IH]; intros m.
  - simpl. split_and!; try done. exists []. by rewrite app_nil_r.
  - destruct (keepAlive_relay_run now i m) as (Hok & Hr & Hp & Hg & Ha & Hn & es1 & Ht & Hes1).
    destruct (keepAlive_relay now i m) as [res m1] eqn:E. simpl in *. subst res.
    assert (keepAlive now (i :: objs) m = keepAlive now objs m1) as ->.
    { unfold keepAlive. simpl. unfold bind. by rewrite E. }
    cbv zeta. specialize (IH m1). cbv zeta in IH.
    destruct IH as (Hok' & Hr' & Hp' & Hg' & Ha' & Hn' & es2 & Ht' & Hes2).
    split_and!; try congruence.
    exists (es1 ++ es2). split.
    + rewrite Ht', Ht. by rewrite app_assoc.
    + by apply Forall_app.
Qed.

Lemma for_of_addRelay_run now us m :
  let m' := (for_of us (addRelay now) m).2 in
  (for_of us (addRelay now) m).1 = Ok tt
  ∧ params m' = params m ∧ gcTimeout m' = gcTimeout m
  ∧ authenticatedRelays m' = authenticatedRelays m ∧ nextSub m' = nextSub m
  ∧ (registry_wf m → registry_wf m')
  ∧ (∀ u, u ∈ us → u ∈ url <$> relays m')
  ∧ (∃ new, relays m' = relays m ++ new
            ∧ Forall (λ r, activeSubs r = [] ∧ authenticated r = false) new)
  ∧ handshakes (trace m') = handshakes (trace m).
Proof.
  revert m. induction us as [|u us IH]; intros m.
  - simpl. split_and!; try done.
    + intros u Hu. by apply elem_of_nil in Hu.
    + exists []. by rewrite app_nil_r.
  - assert (∀ res m1, addRelay now u m = (res, m1) → res = Ok tt →
              for_of (u :: us) (addRelay now) m = for_of us (addRelay now) m1) as Hstep.
    { intros res m1 E ->. simpl. unfold bind. by rewrite E. }
    pose proof (addRelay_ok now u m) as Hok.
    pose proof (addRelay_wf now u m) as Hwf.
    pose proof (addRelay_registered now u m) as Hreg.
    assert (params (addRelay now u m).2 = params m
            ∧ gcTimeout (addRelay now u m).2 = gcTimeout m
            ∧ authenticatedRelays (addRelay now u m).2 = authenticatedRelays m
            ∧ nextSub (addRelay now u m).2 = nextSub m
            ∧ (∃ new, relays (addRelay now u m).2 = relays m ++ new
                      ∧ Forall (λ r, activeSubs r = [] ∧ authenticated r = false) new)
            ∧ handshakes (trace (addRelay now u m).2) = handshakes (trace m))
      as (Hp & Hg & Ha & Hn & (new1 & Hr & Hnew1) & Hh).
    { unfold addRelay. destruct (find_relay u (relays m)); simpl.
      - split_and!; try done. exists []. by rewrite app_nil_r.
      - split_and!; try done.
        + eexists. split; [done|]. by repeat constructor.
        + unfold handshakes. rewrite omap_app. simpl. by rewrite app_nil_r. }
    destruct (addRelay now u m) as [res m1]. simpl in *. subst res.
    rewrite (Hstep _ _ eq_refl eq_refl). clear Hstep.
    cbv zeta. specialize (IH m1). cbv zeta in IH.
    destruct IH as (Hok' & Hp' & Hg' & Ha' & Hn' & Hwf' & Hreg' & (new2 & Hr' & Hnew2) & Hh').
    split_and!; try congruence.
    + auto.
    + intros u' [->|Hu']%elem_of_cons; [|by apply Hreg'].
      rewrite Hr', fmap_app. apply elem_of_app. by left.
    + exists (new1 ++ new2). split.
      * rewrite Hr', Hr. by rewrite app_assoc.
      * by apply Forall_app.
Qed.

Lemma ensure_relays_run now relayUrls m :
  let m' := (ensure_relays now relayUrls m).2 in
  (ensure_relays now relayUrls m).1 = Ok tt
  ∧ params m' = params m ∧ gcTimeout m' = gcTimeout m
  ∧ authenticatedRelays m' = authenticatedRelays m ∧ nextSub m' = nextSub m
  ∧ (registry_wf m → registry_wf m')
  ∧ (∃ new, relays m' = relays m ++ new
            ∧ Forall (λ r, activeSubs r = [] ∧ authenticated r = false) new)
  ∧ handshakes (trace m') = handshakes (trace m).
Proof.
  destruct relayUrls as [us|]; simpl.
  - destruct (for_of_addRelay_run now us m) as (? & ? & ? & ? & ? & ? & _ & ? & ?).
    done.
  - split_and!; try done. exists []. by rewrite app_nil_r.
Qed.

(** ** Running a method *)

Lemma run_get {B} (k : NostrManager → M B) m : (get ≫= k) m = k m m.
Proof. reflexivity. Qed.

Lemma run_modify {B} f (k : unit → M B) m : (modify f ≫= k) m = k tt (f m).
Proof. reflexivity. Qed.

Lemma run_perform {B} e (k : unit → M B) m : (perform e ≫= k) m = k tt (emit e m).
Proof. reflexivity. Qed.

Lemma run_ret {A B} (a : A) (k : A → M B) m : (ret a ≫= k) m = k a m.
Proof. reflexivity. Qed.

Lemma run_throw {A B} e (k : A → M B) m : (throw e ≫= k) m = (Throw e, m).
Proof. reflexivity. Qed.

Lemma run_update_all {B} f objs (k : unit → M B) m :
  (for_of objs (λ i, update_relay i f) ≫= k) m
  = k tt (with_relays (alter_all f objs (relays m)) m).
Proof. apply bind_Ok, for_of_update_relay. Qed.

Lemma run_assoc {A B C} (c : M A) (k1 : A → M B) (k2 : B → M C) m :
  ((c ≫= k1) ≫= k2) m = (c ≫= (λ a, k1 a ≫= k2)) m.
Proof.
  unfold mbind, M_bind, bind. destruct (c m) as [[a|e] m']; [|done].
  reflexivity.
Qed.

Ltac mrun :=
  repeat first
    [ rewrite run_assoc | rewrite run_get | rewrite run_modify | rewrite run_perform
    | rewrite run_ret | rewrite run_throw | rewrite run_update_all ].

(** ** Subscribing and closing *)

Section Subscriptions.

Variable verifyEvent : NostrEvent → bool.

Lemma subscribe_refused {W} now (prm : SubscribeManyParams W) relayUrls m :
  readable (params m) = false →
  subscribe verifyEvent now prm relayUrls m = (Throw ErrNotReadable, m).
Proof. intros H. unfold subscribe. mrun. by rewrite H. Qed.

Lemma subscribe_run {W} now (prm : SubscribeManyParams W) relayUrls m :
  readable (params m) = true →
  let m1 := (ensure_relays now relayUrls m).2 in
  let scope := target_scope relayUrls m1 in
  let objs := scope_objs scope m1 in
  let ref := nextSub m1 in
  let m2 := emit (PoolSubscribeMany (urls_of objs m1) ref) (with_nextSub (S ref) m1) in
  let m3 := with_relays (alter_all (push_sub ref) objs (relays m2)) m2 in
  subscribe verifyEvent now prm relayUrls m
  = (Ok {| sub_ref := ref; sub_relays := scope;
           sub_params := {| onevent := wrap_onevent verifyEvent <$> onevent prm |} |},
     (keepAlive now objs m3).2).
Proof.
  intros H. cbv zeta. unfold subscribe. mrun. rewrite H. simpl.
  destruct (ensure_relays_run now relayUrls m) as (Hok & _).
  destruct (ensure_relays now relayUrls m) as [res m1] eqn:E. simpl in *. subst res.
  rewrite (bind_Ok _ _ _ _ _ E). mrun.
  match goal with |- (keepAlive ?n ?o ≫= _) ?m0 = _ =>
    destruct (keepAlive_run n o m0) as (Hk & _);
    change m0 with (with_relays (alter_all (push_sub (nextSub m1)) o
      (relays (emit (PoolSubscribeMany (urls_of o m1) (nextSub m1))
                 (with_nextSub (S (nextSub m1)) m1))))
      (emit (PoolSubscribeMany (urls_of o m1) (nextSub m1))
            (with_nextSub (S (nextSub m1)) m1))) in *;
    destruct (keepAlive n o _) as [res m4] eqn:E4 end.
  cbn [fst snd] in *. subst res. by rewrite (bind_Ok _ _ _ _ _ E4).
Qed.

Lemma publish_refused now env event relayUrls signer m :
  writable (params m) = false →
  publish now env event relayUrls signer m = (Throw ErrNotWritable, m).
Proof. intros H. unfold publish. mrun. by rewrite H. Qed.

Lemma index_of_None x l : index_of x l = None ↔ x ∉ l.
Proof.
  induction l as [|y l IH]; simpl.
  - split; [intros _; apply not_elem_of_nil | done].
  - rewrite not_elem_of_cons. case_bool_decide as Hy.
    + split; [done | intros [? _]; congruence].
    + destruct (index_of x l); simpl.
      * split; [done|]. intros [_ Hx]. by apply IH in Hx.
      * split; [|done]. intros _. split; [congruence | by apply IH].
Qed.

Lemma index_of_pushed x l : x ∉ l → index_of x (l ++ [x]) = Some (length l).
Proof.
  induction l as [|y l IH]; simpl; intros Hx.
  - by rewrite bool_decide_eq_true_2.
  - apply not_elem_of_cons in Hx as [Hne Hx].
    rewrite bool_decide_eq_false_2 by congruence. by rewrite IH.
Qed.

Lemma drop_sub_absent x l : x ∉ l → drop_sub x l = l.
Proof. intros Hx. apply index_of_None in Hx. unfold drop_sub. by rewrite Hx. Qed.

Lemma drop_sub_pushed x l : x ∉ l → drop_sub x (l ++ [x]) = l.
Proof.
  intros Hx. unfold drop_sub. rewrite index_of_pushed by done.
  rewrite take_app_length. rewrite drop_app_ge by lia.
  replace (S (length l) - length l)%nat with 1%nat by lia. simpl.
  by rewrite app_nil_r.
Qed.

Lemma remove_sub_absent ref r : ref ∉ activeSubs r → remove_sub ref r = r.
Proof.
  intros Hx. unfold remove_sub. rewrite drop_sub_absent by done. by destruct r.
Qed.

Lemma scope_objs_length sc m m' :
  length (relays m') = length (relays m) → scope_objs sc m' = scope_objs sc m.
Proof. intros H. destruct sc; simpl; by rewrite ?H. Qed.

Lemma sub_close_run {W} (sub : NostrSub W) m :
  let m' := emit (SubCloserClose (sub_ref sub)) m in
  sub_close sub m
  = (Ok tt, with_relays (alter_all (remove_sub (sub_ref sub))
                           (scope_objs (sub_relays sub) m) (relays m)) m').
Proof.
  cbv zeta. unfold sub_close. mrun. by rewrite for_of_update_relay.
Qed.

End Subscriptions.

(** C4. On a subscription made by [subscribe] with a caller's [onevent],
    an event delivered by the pool reaches the caller's callback exactly
    when [verifyEvent] accepts it: for an accepted event the delivery is
    the caller's callback itself, and for a rejected one the delivery
    returns normally and leaves the caller's world untouched, whatever the
    callback would have done (also one that throws or leaves a mark on
    every call), so the callback is not invoked and no error surfaces. *)
Theorem subscribe_delivers_verified_only {W} (verifyEvent : NostrEvent → bool)
    (now : Z) (cb : Callback W) (relayUrls : option (list string))
    (m m' : NostrManager) (sub : NostrSub W) :
  subscribe verifyEvent now {| onevent := Some cb |} relayUrls m = (Ok sub, m') →
  ∀ event w,
    (verifyEvent event = true → deliver sub event w = cb event w)
    ∧ (verifyEvent event = false → deliver sub event w = (Ok tt, w)).
Proof.
  intros Hsub event w.
  destruct (readable (params m)) eqn:Hr.
  - rewrite subscribe_run in Hsub by done. injection Hsub as <- _.
    unfold deliver, wrap_onevent. simpl. split; intros ->; done.
  - rewrite subscribe_refused in Hsub by done. discriminate.
Qed.

(** C5. On a manager whose [readable] is false every [subscribe] throws
    "not readable", and on one whose [writable] is false every [publish]
    throws "not writable"; in both cases the manager is left exactly as it
    was: no session is added or changed and nothing is appended to the
    trace, so no relay was contacted.  A manager constructed with the
    option set to false has that parameter false. *)
Theorem capability_errors {W} (verifyEvent : NostrEvent → bool) (now : Z)
    (prm : SubscribeManyParams W) (env : string → AuthOutcome)
    (event : NostrEvent) (relayUrls : option (list string)) (signer : bool)
    (m : NostrManager) :
  (readable (params m) = false →
   subscribe verifyEvent now prm relayUrls m = (Throw ErrNotReadable, m))
  ∧ (writable (params m) = false →
     publish now env event relayUrls signer m = (Throw ErrNotWritable, m))
  ∧ (∀ t us o, params (new_NostrManager t us o) = resolve_options o).
Proof.
  split_and!.
  - apply subscribe_refused.
  - apply publish_refused.
  - intros t us o. unfold new_NostrManager.
    destruct (gc_run (λ _, t) (λ _, false)
                (addRelays t us (empty_manager (resolve_options o))).2)
      as (_ & -> & _).
    unfold addRelays.
    by destruct (for_of_addRelay_run t us (empty_manager (resolve_options o)))
      as (_ & -> & _).
Qed.

(** Every session targeted by a new subscription lists its handle. *)
Lemma subscribe_registers {W} (verifyEvent : NostrEvent → bool) now
    (prm : SubscribeManyParams W) relayUrls m sub m1 :
  subscribe verifyEvent now prm relayUrls m = (Ok sub, m1) →
  ∀ i r, i ∈ scope_objs (sub_relays sub) m1 → relays m1 !! i = Some r →
         sub_ref sub ∈ activeSubs r.
Proof.
  intros Hsub.
  destruct (readable (params m)) eqn:Hrd;
    [|rewrite subscribe_refused in Hsub by done; discriminate].
  rewrite subscribe_run in Hsub by done.
  set (m0 := (ensure_relays now relayUrls m).2) in *.
  set (objs := scope_objs (target_scope relayUrls m0) m0) in *.
  set (ref := nextSub m0) in *.
  injection Hsub as <- <-. simpl.
  assert (NoDup objs) as Hnd by apply scope_objs_NoDup.
  match goal with |- context [keepAlive now objs ?m3] =>
    destruct (keepAlive_run now objs m3) as (_ & Hr1 & _);
    set (m1 := (keepAlive now objs m3).2) in *
  end.
  simpl in Hr1.
  assert (scope_objs (target_scope relayUrls m0) m1 = objs) as ->.
  { apply scope_objs_length. by rewrite Hr1, !alter_all_length. }
  intros i r Hi Hr. rewrite Hr1, !alter_all_lookup in Hr by done.
  rewrite bool_decide_eq_true_2 in Hr by done.
  destruct (relays m0 !! i) as [r0|]; [|done]. simpl in Hr. injection Hr as <-.
  simpl. apply elem_of_app. right. by left.
Qed.

(** A fetch whose timer fires first: the promise is rejected with the
    timeout error and every targeted session still lists the handle, in
    the manager as [fetch] left it, which the timer cannot reach. *)
Lemma fetch_timeout_keeps_handle {W} (verifyEvent : NostrEvent → bool) now
    (onEvent : option (Callback W)) onEose relayUrls m f m1 :
  fetch_start verifyEvent now onEvent onEose relayUrls m = (Ok f, m1) →
  fetch_promise (fetch_timeout f) = Rejected ErrTimeout
  ∧ ∀ i r, i ∈ scope_objs (sub_relays (fetch_sub f)) m1 →
           relays m1 !! i = Some r → sub_ref (fetch_sub f) ∈ activeSubs r.
Proof.
  unfold fetch_start. intros Hf.
  match type of Hf with (?c ≫= _) m = _ => destruct (c m) as [[sub|e] m'] eqn:E end.
  - rewrite (bind_Ok _ _ _ _ _ E) in Hf. injection Hf as <- <-. simpl.
    split; [done|]. by eapply subscribe_registers.
  - unfold mbind, M_bind, bind in Hf. rewrite E in Hf. discriminate.
Qed.

(** ** Authentication and publish *)

Lemma authenticateToRelay_run now o u m :
  let m0 := emit (PoolEnsureRelay u) (addRelay now u m).2 in
  authenticateToRelay now o u m
  = match o with
    | EnsureRelayRejects => (Ok false, emit (Console LogError u) m0)
    | HandshakeThrows =>
        (Ok false, emit (Console LogError u) (emit (Nip42Handshake u) m0))
    | HandshakeReturns b =>
        (Ok b,
         emit (Console (if b then LogInfo else LogWarn) u)
           (with_relays (mark_authenticated u b (relays m0))
              (with_authenticatedRelays (<[u:=b]> (authenticatedRelays m0))
                 (emit (Nip42Handshake u) m0))))
    end.
Proof.
  cbv zeta. unfold authenticateToRelay, try_catch. rewrite run_get.
  assert ((match find_relay u (relays m) with
           | Some _ => ret tt
           | None => addRelay now u
           end : M unit) m = (Ok tt, (addRelay now u m).2)) as Hadd.
  { unfold addRelay. destruct (find_relay u (relays m)) eqn:E; [done|].
    cbv beta. by rewrite E. }
  rewrite (bind_Ok _ _ _ _ _ Hadd).
  unfold pool_ensureRelay, helper_authenticateToRelay, record_outcome.
  destruct o; mrun; try done.
  all: unfold mbind, M_bind, bind; done.
Qed.

Lemma authenticateToRelay_never_throws now o u m :
  (authenticateToRelay now o u m).1 = Ok (outcome_result o).
Proof. rewrite authenticateToRelay_run. by destruct o. Qed.

Lemma isRelayAuthenticated_lookup u m :
  isRelayAuthenticated u m = true ↔ authenticatedRelays m !! u = Some true.
Proof. unfold isRelayAuthenticated. apply bool_decide_eq_true. Qed.

Lemma mark_authenticated_urls u b rs :
  url <$> mark_authenticated u b rs = url <$> rs.
Proof.
  induction rs as [|r rs IH]; simpl; [done|].
  case_bool_decide; simpl; [done|]. f_equal. exact IH.
Qed.

Lemma mark_authenticated_other u b rs j r :
  rs !! j = Some r → url r ≠ u → mark_authenticated u b rs !! j = Some r.
Proof.
  revert j. induction rs as [|r0 rs IH]; intros j Hj Hne; simpl; [done|].
  destruct j as [|j]; simpl in Hj.
  - injection Hj as ->. by rewrite bool_decide_eq_false_2.
  - case_bool_decide; simpl; [done|]. by apply IH.
Qed.

Lemma mark_authenticated_hit u b rs j r :
  NoDup (url <$> rs) → rs !! j = Some r → url r = u →
  mark_authenticated u b rs !! j = Some (set_authenticated b r).
Proof.
  revert j. induction rs as [|r0 rs IH]; intros j Hnd Hj Hu; simpl; [done|].
  simpl in Hnd. apply NoDup_cons in Hnd as [Hr0 Hnd].
  destruct j as [|j]; simpl in Hj.
  - injection Hj as ->. by rewrite bool_decide_eq_true_2.
  - rewrite bool_decide_eq_false_2; [simpl; by apply IH|].
    intros H0. apply Hr0. rewrite H0, <- Hu.
    apply list_elem_of_fmap_2. by eapply list_elem_of_lookup_2.
Qed.

Lemma registry_wf_lookup m i j r s :
  registry_wf m → relays m !! i = Some r → relays m !! j = Some s →
  url r = url s → i = j.
Proof.
  intros Hwf Hi Hj Hu. eapply NoDup_lookup; [exact Hwf| |].
  - rewrite list_lookup_fmap, Hi. done.
  - rewrite list_lookup_fmap, Hj. simpl. by rewrite Hu.
Qed.

(** When the handshake returns, its verdict is what the record and the
    session say afterwards. *)
Lemma authenticateToRelay_records now b u m :
  registry_wf m →
  let m' := (authenticateToRelay now (HandshakeReturns b) u m).2 in
  (authenticateToRelay now (HandshakeReturns b) u m).1 = Ok b
  ∧ isRelayAuthenticated u m' = b
  ∧ ∀ i r, relays m' !! i = Some r → url r = u → authenticated r = b.
Proof.
  intros Hwf. cbv zeta. rewrite authenticateToRelay_run. cbn [fst snd].
  pose proof (addRelay_wf now u m Hwf) as Hwf0.
  set (m0 := (addRelay now u m).2) in *. split_and!; [done| |].
  - unfold isRelayAuthenticated. simpl. rewrite lookup_insert_eq. by destruct b.
  - simpl. intros i r Hi Hu.
    assert ((url <$> relays m0) !! i = Some u) as Hui.
    { rewrite <- (mark_authenticated_urls u b), list_lookup_fmap, Hi. simpl.
      by rewrite Hu. }
    rewrite list_lookup_fmap in Hui.
    destruct (relays m0 !! i) as [r0|] eqn:E0; [|done]. simpl in Hui.
    injection Hui as Hu0.
    rewrite (mark_authenticated_hit u b (relays m0) i r0 Hwf0 E0 Hu0) in Hi.
    by injection Hi as <-.
Qed.


Lemma urls_of_ext objs m m' :
  url <$> relays m' = url <$> relays m → urls_of objs m' = urls_of objs m.
Proof.
  intros H. unfold urls_of. induction objs as [|i objs IH]; [done|].
  change (i :: objs) with ([i] ++ objs). rewrite !omap_app, IH. f_equal.
  simpl. by rewrite <- !list_lookup_fmap, H.
Qed.



Lemma alter_all_preserves (f : NostrRelay → NostrRelay) objs rs :
  (∀ r, url (f r) = url r ∧ authenticated (f r) = authenticated r) →
  url <$> alter_all f objs rs = url <$> rs
  ∧ ∀ i r', alter_all f objs rs !! i = Some r' →
            ∃ r, rs !! i = Some r ∧ url r' = url r
                 ∧ authenticated r' = authenticated r.
Proof.
  intros Hf. revert rs. induction objs as [|j objs IH]; intros rs.
  - split; [done|]. intros i r' Hi. by exists r'.
  - unfold alter_all in *. simpl. destruct (IH (alter f j rs)) as [IH1 IH2]. split.
    + rewrite IH1. apply list_eq. intros i. rewrite !list_lookup_fmap.
      rewrite list_lookup_alter. case_decide; [subst|done].
      destruct (rs !! i); [|done]. simpl. f_equal. apply Hf.
    + intros i r' Hi. destruct (IH2 i r' Hi) as (r1 & Hr1 & Hu & Ha).
      rewrite list_lookup_alter in Hr1. case_decide.
      * subst. destruct (rs !! i) as [r|]; [|done]. simpl in Hr1.
        injection Hr1 as <-. exists r. destruct (Hf r) as [Hfu Hfa].
        split_and!; congruence.
      * by exists r1.
Qed.


(** ** The hypotheses of the statements hold of every manager built by
       the constructor, and the methods keep them *)

Lemma gc_sweep_fmap {A} (g : NostrRelay → A) kat clock fails k rs :
  (∀ r, g (set_sleeping true r) = g r) →
  g <$> (gc_sweep kat clock fails k rs).1 = g <$> rs.
Proof.
  intros Hg. revert k. induction rs as [|r rs IH]; intros k; simpl; [done|].
  specialize (IH (S k)). destruct (gc_sweep kat clock fails (S k) rs) as [rs' es].
  simpl in IH. destruct (gc_idle kat (clock k) r); simpl; rewrite ?Hg; f_equal; exact IH.
Qed.

Lemma gc_wf clock fails m : registry_wf m → registry_wf (gc clock fails m).2.
Proof.
  unfold registry_wf. destruct (gc_run clock fails m) as (_ & _ & -> & _).
  by rewrite gc_sweep_fmap.
Qed.

Lemma new_NostrManager_wf now us o : registry_wf (new_NostrManager now us o).
Proof.
  unfold new_NostrManager. apply gc_wf. unfold addRelays.
  destruct (for_of_addRelay_run now us (empty_manager (resolve_options o)))
    as (_ & _ & _ & _ & _ & Hwf & _).
  apply Hwf. apply NoDup_nil_2.
Qed.

Lemma new_NostrManager_allocated now us o : subs_allocated (new_NostrManager now us o).
Proof.
  unfold new_NostrManager, addRelays.
  destruct (for_of_addRelay_run now us (empty_manager (resolve_options o)))
    as (_ & _ & _ & _ & _ & _ & _ & (new & Hr & Hnew) & _).
  set (m1 := (for_of us (addRelay now) (empty_manager (resolve_options o))).2) in *.
  simpl in Hr. intros r s Hin Hs.
  destruct (gc_run (λ _, now) (λ _, false) m1) as (_ & _ & Hrs & _).
  assert (activeSubs r ∈ activeSubs <$> relays (gc (λ _, now) (λ _, false) m1).2)
    as Hact by (by apply list_elem_of_fmap_2).
  rewrite Hrs, gc_sweep_fmap, Hr in Hact by done.
  apply list_elem_of_fmap in Hact as (r0 & Heq & Hr0).
  rewrite Forall_forall in Hnew. destruct (Hnew r0 Hr0) as [He _].
  rewrite Heq, He in Hs. by apply elem_of_nil in Hs.
Qed.

Lemma subscribe_keeps_allocated {W} (verifyEvent : NostrEvent → bool) now
    (prm : SubscribeManyParams W) relayUrls m :
  subs_allocated m → subs_allocated (subscribe verifyEvent now prm relayUrls m).2.
Proof.
  intros Halloc. destruct (readable (params m)) eqn:Hrd;
    [|by rewrite subscribe_refused].
  rewrite subscribe_run by done. cbn [snd].
  destruct (ensure_relays_run now relayUrls m)
    as (_ & _ & _ & _ & Hn & _ & (new & Hrs & Hnew) & _).
  set (m0 := (ensure_relays now relayUrls m).2) in *.
  set (objs := scope_objs (target_scope relayUrls m0) m0) in *.
  assert (NoDup objs) as Hnd by apply scope_objs_NoDup.
  match goal with |- context [keepAlive now objs ?m3] =>
    destruct (keepAlive_run now objs m3) as (_ & Hr1 & _ & _ & _ & Hn1 & _);
    set (m1 := (keepAlive now objs m3).2) in *
  end.
  simpl in Hr1, Hn1. intros r s [i Hi]%list_elem_of_lookup Hs. rewrite Hn1.
  rewrite Hr1, !alter_all_lookup in Hi by done.
  destruct (relays m0 !! i) as [r0|] eqn:E0; [|done]. simpl in Hi.
  assert (∀ s, s ∈ activeSubs r0 → (s < nextSub m0)%nat) as H0.
  { intros s' Hs'. apply list_elem_of_lookup_2 in E0. rewrite Hrs in E0.
    apply elem_of_app in E0 as [E0|E0].
    - rewrite Hn. by eapply Halloc.
    - rewrite Forall_forall in Hnew. destruct (Hnew r0 E0) as [He _].
      rewrite He in Hs'. by apply elem_of_nil in Hs'. }
  case_bool_decide; simpl in Hi; injection Hi as <-; simpl in Hs.
  - apply elem_of_app in Hs as [Hs|Hs%list_elem_of_singleton]; [|lia].
    apply H0 in Hs. lia.
  - apply H0 in Hs. lia.
Qed.

(** ** The code at the inputs where it departs from its specification *)

(** C2. A manager built with [keepAliveTime] 1000 and [gcInterval] 5000
    keeps 5000 as its [gcInterval], yet the timer the constructor leaves,
    and the timer every later sweep leaves, has delay 1000: [gc] passes
    [this.params.keepAliveTime] to [setTimeout], and [gcInterval] is read
    nowhere. *)
Theorem gc_timer_delay_is_keepAliveTime :
  let o := {| opt_connectionTimeout := None; opt_keepAliveTime := Some 1000%Z;
              opt_gcInterval := Some 5000%Z; opt_readable := None;
              opt_writable := None; opt_autoAuth := None |} in
  let m := new_NostrManager 0 ["wss://relay.example"] (Some o) in
  gcInterval (params m) = 5000%Z
  ∧ gcTimeout m = Some 1000%Z
  ∧ ∀ clock fails,
      gcTimeout (gc clock fails m).2 = Some 1000%Z
      ∧ last (trace (gc clock fails m).2) = Some (SetTimeout 1000).
Proof.
  cbv zeta. split_and!; [done..|]. intros clock fails.
  match goal with |- context [gc clock fails ?m] =>
    destruct (gc_run clock fails m) as (_ & _ & _ & -> & ->) end.
  split; [done|]. by rewrite !app_assoc, last_snoc.
Qed.

(** C1. A fetch on a fresh manager with one relay, whose timer fires while
    the promise is pending: the promise is rejected with the timeout
    error, and the handle made by the fetch is still listed by the
    session, since only the [oneose] callback closes it (after that
    callback the session lists nothing). *)
Theorem fetch_timeout_leaves_subscription :
  let m := new_NostrManager 0 ["wss://relay.example"] None in
  let res := fetch_start (W:=unit) (λ _, true) 10 None None None m in
  ∃ f : Fetch unit,
    res.1 = Ok f
    ∧ fetch_promise f = Pending
    ∧ fetch_promise (fetch_timeout f) = Rejected ErrTimeout
    ∧ activeSubs <$> relays res.2 = [[sub_ref (fetch_sub f)]]
    ∧ activeSubs <$> relays (fetch_oneose f ([], tt) res.2).2 = [[]].
Proof.
  vm_compute. eexists. split; [reflexivity|]. done.
Qed.

(** C8. After a successful authentication to a relay, a second attempt in
    which [pool.ensureRelay] rejects returns [false], yet the
    authentication record and the session's flag still say [true]: the
    [catch] branch returns without storing the outcome. *)
Theorem authenticateToRelay_error_not_recorded :
  let u := "wss://relay.example" in
  let m0 := new_NostrManager 0 [u] None in
  let a1 := authenticateToRelay 1 (HandshakeReturns true) u m0 in
  let a2 := authenticateToRelay 2 EnsureRelayRejects u a1.2 in
  a1.1 = Ok true
  ∧ a2.1 = Ok false
  ∧ isRelayAuthenticated u a2.2 = true
  ∧ authenticated <$> relays a2.2 = [true].
Proof. cbv zeta. by vm_compute. Qed.

(** ** The statements at concrete managers *)

Lemma demo_manager_allocated : subs_allocated demo_manager.
Proof.
  unfold demo_manager. apply subscribe_keeps_allocated.
  intros r s Hr Hs. vm_compute in Hr.
  apply elem_of_cons in Hr as [->|Hr]; [by apply elem_of_nil in Hs|].
  apply elem_of_cons in Hr as [->|Hr]; [by apply elem_of_nil in Hs|].
  by apply elem_of_nil in Hr.
Qed.

(** A sweep at time 400000 puts the idle session of [relay_a] to sleep
    and leaves the session of [relay_b], which has a subscription. *)
Lemma gc_uninterrupted_sweep_at_demo :
  let ra := {| url := relay_a; activeSubs := []; sleeping := false;
               lastActive := 0; authenticated := true |} in
  let rb := {| url := relay_b; activeSubs := [0%nat]; sleeping := false;
               lastActive := 0; authenticated := false |} in
  let m' := (gc (λ _, 400000%Z) (λ _, false) demo_manager).2 in
  relays demo_manager = [ra; rb]
  ∧ relays m' !! 0%nat = Some (set_sleeping true ra)
  ∧ relays m' !! 1%nat = Some rb.
Proof.
  cbv zeta.
  match goal with |- relays _ = [?ra; ?rb] ∧ _ =>
    destruct (gc_uninterrupted_sweep (λ _, 400000%Z) (λ _, false) demo_manager
                0 ra eq_refl) as (_ & Hidle & _ & _);
    destruct (gc_uninterrupted_sweep (λ _, 400000%Z) (λ _, false) demo_manager
                1 rb eq_refl) as (_ & _ & Hkeep & _)
  end.
  split_and!.
  - by vm_compute.
  - apply Hidle. split_and!; [reflexivity | reflexivity | by vm_compute].
  - apply Hkeep. intros (_ & Hsubs & _). discriminate Hsubs.
Defined.

Lemma subscribe_delivers_verified_only_witness :
  let res := subscribe demo_verify 1 {| onevent := Some demo_callback |} None
               demo_manager in
  let sub := {| sub_ref := 1; sub_relays := WholeRegistry;
                sub_params := {| onevent := Some (wrap_onevent demo_verify demo_callback) |} |} in
  res.1 = Ok sub
  ∧ deliver sub (demo_event "forged") [] = (Ok tt, [])
  ∧ deliver sub (demo_event "valid") []
    = (Throw (ErrOther "callback"), [demo_event "valid"]).
Proof.
  cbv zeta.
  match goal with |- (?res).1 = Ok ?sub ∧ _ =>
    assert (res = (Ok sub, res.2)) as Hsub by (by vm_compute);
    pose proof (subscribe_delivers_verified_only demo_verify 1 demo_callback None
                  demo_manager _ sub Hsub) as H
  end.
  split_and!.
  - by rewrite Hsub.
  - apply (H (demo_event "forged") []). reflexivity.
  - rewrite (proj1 (H (demo_event "valid") [])); reflexivity.
Defined.

Lemma capability_errors_witness :
  let m := new_NostrManager 0 [relay_a] (Some (demo_options false false false)) in
  subscribe (W:=unit) demo_verify 1 {| onevent := None |} (Some [relay_b]) m
  = (Throw ErrNotReadable, m)
  ∧ publish 1 (λ _, HandshakeReturns true) (demo_event "valid") None true m
    = (Throw ErrNotWritable, m).
Proof.
  cbv zeta.
  destruct (capability_errors (W:=unit) demo_verify 1 {| onevent := None |}
              (λ _, HandshakeReturns true) (demo_event "valid") (Some [relay_b]) true
              (new_NostrManager 0 [relay_a] (Some (demo_options false false false))))
    as (Hs & _ & _).
  destruct (capability_errors (W:=unit) demo_verify 1 {| onevent := None |}
              (λ _, HandshakeReturns true) (demo_event "valid") None true
              (new_NostrManager 0 [relay_a] (Some (demo_options false false false))))
    as (_ & Hp & _).
  split; [apply Hs | apply Hp]; reflexivity.
Defined.

Lemma addRelay_idempotent_witness :
  let m1 := (addRelay 5 "wss://c.example" demo_manager).2 in
  addRelay 9 "wss://c.example" m1 = (Ok tt, m1)
  ∧ url <$> relays m1 = [relay_a; relay_b; "wss://c.example"].
Proof.
  cbv zeta.
  destruct (addRelay_idempotent 5 9 "wss://c.example" demo_manager)
    as (_ & H & _).
  - unfold registry_wf. apply (bool_decide_unpack _). by vm_compute.
  - split; [exact H | by vm_compute].
Defined.


(** * Further properties of the manager *)

(** ** Registry growth *)

Lemma for_of_addRelay_new now us m :
  let m' := (for_of us (addRelay now) m).2 in
  ∃ new, relays m' = relays m ++ new
    ∧ Forall (λ r, r = new_relay (url r) now) new
    ∧ NoDup (url <$> new)
    ∧ (∀ u, u ∈ url <$> new ↔ u ∈ us ∧ u ∉ url <$> relays m)
    ∧ trace m' = trace m ++ (PoolEnsureRelay <$> (url <$> new)).
Proof.
  revert m. induction us as [|u us IH]; intros m; cbv zeta.
  - exists []. simpl. rewrite !app_nil_r. split_and!; try done; [apply NoDup_nil_2|].
    intros u. split; [intros H; by apply elem_of_nil in H|].
    intros [H _]. by apply elem_of_nil in H.
  - assert (for_of (u :: us) (addRelay now) m
            = for_of us (addRelay now) (addRelay now u m).2) as ->.
    { simpl. unfold bind. pose proof (addRelay_ok now u m) as Hok.
      destruct (addRelay now u m) as [res m1]. simpl in *. by subst. }
    specialize (IH (addRelay now u m).2). cbv zeta in IH.
    destruct IH as (new2 & Hr & Hnew & Hnd & Hin & Ht).
    destruct (decide (u ∈ url <$> relays m)) as [Hu|Hu].
    + rewrite addRelay_present in * by done. simpl in *.
      exists new2. split_and!; try done.
      intros u'. rewrite Hin, elem_of_cons. split; [tauto|].
      intros [[->|?] ?]; [done|tauto].
    + rewrite addRelay_absent in * by done. simpl in *.
      exists (new_relay u now :: new2).
      assert (u ∉ url <$> new2) as Hfresh.
      { intros H. apply Hin in H as [_ H]. apply H. rewrite fmap_app.
        apply elem_of_app. right. by left. }
      split_and!.
      * by rewrite Hr, <- app_assoc.
      * by constructor.
      * simpl. by apply NoDup_cons.
      * intros u'. simpl. rewrite !elem_of_cons, Hin, fmap_app, elem_of_app.
        simpl. rewrite list_elem_of_singleton.
        destruct (decide (u' = u)) as [->|Hne]; [tauto|]. tauto.
      * rewrite Ht. simpl. by rewrite <- !app_assoc.
Qed.

(** X1. [addRelays] returns normally, leaves every existing session where
    and as it was, and appends one freshly initialised session for each
    given url that had none (once, however often the url is given); the
    pool is asked to connect exactly to those new urls, in that order. *)
Theorem addRelays_appends_absent (now : Z) (us : list string) (m : NostrManager) :
  let m' := (addRelays now us m).2 in
  (addRelays now us m).1 = Ok tt
  ∧ ∃ new, relays m' = relays m ++ new
      ∧ Forall (λ r, r = new_relay (url r) now) new
      ∧ NoDup (url <$> new)
      ∧ (∀ u, u ∈ url <$> new ↔ u ∈ us ∧ u ∉ url <$> relays m)
      ∧ trace m' = trace m ++ (PoolEnsureRelay <$> (url <$> new)).
Proof.
  cbv zeta. unfold addRelays. split.
  - by destruct (for_of_addRelay_run now us m) as (? & _).
  - apply for_of_addRelay_new.
Qed.

Lemma gc_sweep_asleep kat clock fails k rs :
  Forall (λ r, sleeping r = true) rs → gc_sweep kat clock fails k rs = (rs, []).
Proof.
  intros H. revert k. induction H as [|r rs Hr _ IH]; intros k; simpl; [done|].
  rewrite IH. unfold gc_idle. by rewrite Hr.
Qed.

(** X2. The constructor leaves exactly one session for every distinct url
    it is given and no other, each asleep, unauthenticated, without
    subscription and last active at construction time; the pool was asked
    to connect once per session; nothing is recorded as authenticated; and
    the first sweep has disconnected nothing and set the timer. *)
Theorem constructor_registry (now : Z) (us : list string)
    (o : option NostrManagerOptions) :
  let m := new_NostrManager now us o in
  NoDup (url <$> relays m)
  ∧ (∀ u, u ∈ url <$> relays m ↔ u ∈ us)
  ∧ Forall (λ r, r = new_relay (url r) now) (relays m)
  ∧ authenticatedRelays m = ∅
  ∧ trace m = (PoolEnsureRelay <$> (url <$> relays m))
              ++ [SetTimeout (keepAliveTime (resolve_options o))].
Proof.
  cbv zeta. unfold new_NostrManager, addRelays.
  set (m0 := empty_manager (resolve_options o)).
  destruct (for_of_addRelay_new now us m0) as (new & Hr & Hnew & Hnd & Hin & Ht).
  destruct (for_of_addRelay_run now us m0) as (_ & Hp & _ & Ha & _).
  set (m1 := (for_of us (addRelay now) m0).2) in *. simpl in Hr, Ht.
  assert (Forall (λ r, sleeping r = true) (relays m1)) as Hsl.
  { rewrite Hr. eapply Forall_impl; [exact Hnew|]. intros r ->. done. }
  unfold gc. rewrite gc_sweep_asleep by done. simpl.
  rewrite Hr, Ht, Hp, Ha. split_and!; try done.
  intros u. rewrite Hin. simpl. split; [tauto|]. intros H. split; [done|].
  apply not_elem_of_nil.
Qed.

(** ** More on the sweep *)

Lemma gc_fields clock fails m :
  let m' := (gc clock fails m).2 in
  authenticatedRelays m' = authenticatedRelays m ∧ nextSub m' = nextSub m.
Proof.
  cbv zeta. unfold gc. destruct (gc_sweep _ clock fails 0 (relays m)) as [rs es].
  simpl. by destruct (emit_all_fields es (with_relays rs m)) as (_ & _ & _ & -> & -> & _).
Qed.

Lemma gc_sweep_fails_indep kat clock fails fails' k rs :
  (gc_sweep kat clock fails k rs).1 = (gc_sweep kat clock fails' k rs).1
  ∧ disconnects (gc_sweep kat clock fails k rs).2
    = disconnects (gc_sweep kat clock fails' k rs).2.
Proof.
  revert k. induction rs as [|r rs IH]; intros k; simpl; [done|].
  destruct (IH (S k)) as [IH1 IH2].
  destruct (gc_sweep kat clock fails (S k) rs) as [rs1 es1].
  destruct (gc_sweep kat clock fails' (S k) rs) as [rs2 es2].
  simpl in *. subst rs2.
  destruct (gc_idle kat (clock k) r); simpl; [|done]. split; [done|].
  f_equal. unfold disconnects in *. rewrite !omap_app, IH2.
  by destruct (fails (url r)), (fails' (url r)).
Qed.

Lemma gc_sweep_logged kat clock fails k rs u :
  Console LogError u ∈ (gc_sweep kat clock fails k rs).2
  ↔ fails u = true ∧ RelayDisconnect u ∈ (gc_sweep kat clock fails k rs).2.
Proof.
  revert k. induction rs as [|r rs IH]; intros k; simpl.
  - split; [intros H; by apply elem_of_nil in H | intros [_ H]; by apply elem_of_nil in H].
  - specialize (IH (S k)). destruct (gc_sweep kat clock fails (S k) rs) as [rs1 es1].
    simpl in IH. destruct (gc_idle kat (clock k) r); simpl; [|done].
    rewrite !elem_of_cons, !elem_of_app, IH.
    destruct (fails (url r)) eqn:Hf.
    + rewrite list_elem_of_singleton. split.
      * intros [?|[Heq|[? ?]]]; [done| |].
        -- injection Heq as ->. split; [done|by left].
        -- split; [done|]. right. by right.
      * intros [Hu [Heq|[Hl|?]]].
        -- injection Heq as ->. right. by left.
        -- apply list_elem_of_singleton in Hl. done.
        -- right; right; done.
    + split.
      * intros [?|[H|[? ?]]]; [done|by apply elem_of_nil in H|].
        split; [done|]. right. by right.
      * intros [Hu [Heq|[H|?]]].
        -- injection Heq as ->. congruence.
        -- by apply elem_of_nil in H.
        -- right; right; done.
Qed.

(** X3. A sweep never throws, and a relay whose [disconnect] rejects
    changes nothing in its result: the sessions, the relays disconnected
    and the timer are the same whichever disconnects fail; a failure is
    logged, for the failing relays only; and the next sweep is scheduled
    in every case. *)
Theorem gc_survives_disconnect_failures (clock : nat → Z)
    (fails fails' : string → bool) (m : NostrManager) :
  let m1 := (gc clock fails m).2 in
  let m2 := (gc clock fails' m).2 in
  let new := drop (length (trace m)) (trace m1) in
  (gc clock fails m).1 = Ok tt
  ∧ relays m1 = relays m2
  ∧ gcTimeout m1 = gcTimeout m2
  ∧ disconnects (trace m1) = disconnects (trace m2)
  ∧ (∀ u, Console LogError u ∈ new ↔ fails u = true ∧ RelayDisconnect u ∈ new)
  ∧ last (trace m1) = Some (SetTimeout (keepAliveTime (params m))).
Proof.
  cbv zeta.
  destruct (gc_run clock fails m) as (Hok & _ & Hr1 & Hg1 & Ht1).
  destruct (gc_run clock fails' m) as (_ & _ & Hr2 & Hg2 & Ht2).
  destruct (gc_sweep_fails_indep (keepAliveTime (params m)) clock fails fails' 0
              (relays m)) as [Hrs Hds].
  rewrite Hr1, Hr2, Hg1, Hg2, Ht1, Ht2, drop_app_length. split_and!; try done.
  - unfold disconnects in *. rewrite !omap_app. by rewrite Hds.
  - intros u. rewrite !elem_of_app, gc_sweep_logged, !list_elem_of_singleton.
    split; [intros [[? ?]|?]; [tauto|done] | intros [? [?|?]]; [tauto|done]].
  - by rewrite !app_assoc, last_snoc.
Qed.

Lemma gc_sweep_again kat clock fails fails' k rs :
  gc_sweep kat clock fails' k (gc_sweep kat clock fails k rs).1
  = ((gc_sweep kat clock fails k rs).1, []).
Proof.
  revert k. induction rs as [|r rs IH]; intros k; simpl; [done|].
  specialize (IH (S k)). destruct (gc_sweep kat clock fails (S k) rs) as [rs1 es1].
  simpl in IH. destruct (gc_idle kat (clock k) r) eqn:Hidle; simpl; rewrite IH.
  - done.
  - by rewrite Hidle.
Qed.

(** X4. A sweep only ever turns [sleeping] from false to true: the url,
    the subscriptions, the activity time and the authentication flag of
    every session, the authentication record and the configuration stay
    as they were, and no session is woken.  A second sweep reading the
    same clock disconnects nothing and changes no session. *)
Theorem gc_only_puts_to_sleep (clock : nat → Z) (fails fails' : string → bool)
    (m : NostrManager) :
  let m' := (gc clock fails m).2 in
  let m'' := (gc clock fails' m').2 in
  (λ r, (url r, activeSubs r, lastActive r, authenticated r)) <$> relays m'
  = (λ r, (url r, activeSubs r, lastActive r, authenticated r)) <$> relays m
  ∧ authenticatedRelays m' = authenticatedRelays m
  ∧ params m' = params m
  ∧ (∀ i r, relays m !! i = Some r → sleeping r = true → relays m' !! i = Some r)
  ∧ relays m'' = relays m'
  ∧ disconnects (drop (length (trace m')) (trace m'')) = [].
Proof.
  cbv zeta.
  destruct (gc_run clock fails m) as (_ & Hp & Hr & _ & _).
  destruct (gc_fields clock fails m) as [Ha _].
  destruct (gc_run clock fails' (gc clock fails m).2) as (_ & _ & Hr' & _ & Ht').
  rewrite Hr', Ht', Hp, Hr, drop_app_length, gc_sweep_again. simpl.
  split_and!; try done.
  - by apply gc_sweep_fmap.
  - intros i r Hi Hs.
    rewrite (gc_sweep_lookup _ clock fails 0 _ _ _ Hi). unfold gc_idle. by rewrite Hs.
Qed.

(** ** The sweep and its [await] *)

Lemma run_meanwhile {B} others (k : unit → M B) m :
  (meanwhile others ≫= k) m = k tt (others m).2.
Proof. reflexivity. Qed.

Lemma gc_body_run clock fails during k relay m :
  gc_body clock fails during k relay m
  = if gc_idle (keepAliveTime (params m)) (clock k) relay then
      let m1 := (during k (emit (RelayDisconnect (url relay)) m)).2 in
      let m2 := if fails (url relay) then emit (Console LogError (url relay)) m1
                else m1 in
      (Ok tt, with_relays (alter (set_sleeping true) k (relays m2)) m2)
    else (Ok tt, m).
Proof.
  unfold gc_body. rewrite run_get.
  destruct (gc_idle _ _ relay); [|done].
  rewrite run_perform, run_meanwhile. cbv zeta.
  by destruct (fails (url relay)).
Qed.

(** Whatever has become of the session while the sweep was suspended, it
    is marked asleep when the sweep resumes. *)
Lemma gc_body_marks_asleep clock fails during k relay m r' :
  gc_idle (keepAliveTime (params m)) (clock k) relay = true →
  relays (during k (emit (RelayDisconnect (url relay)) m)).2 !! k = Some r' →
  relays (gc_body clock fails during k relay m).2 !! k = Some (set_sleeping true r').
Proof.
  intros Hidle Hr. rewrite gc_body_run, Hidle. cbv zeta. cbn [snd relays with_relays].
  rewrite list_lookup_alter_eq.
  by destruct (fails (url relay)); cbn [relays emit]; rewrite Hr.
Qed.

(** When nothing lands while the sweep is suspended, the loop from
    position [length pre] on does what [gc_sweep] does to the sessions
    from there on. *)
Lemma gc_loop_alone clock fails rs :
  ∀ pre m fuel,
    relays m = pre ++ rs → (length rs < fuel)%nat →
    let sw := gc_sweep (keepAliveTime (params m)) clock fails (length pre) rs in
    let res := gc_loop fuel clock fails (λ _, ret tt) (length pre) m in
    res.1 = Ok true
    ∧ params res.2 = params m
    ∧ relays res.2 = pre ++ sw.1
    ∧ gcTimeout res.2 = gcTimeout m
    ∧ authenticatedRelays res.2 = authenticatedRelays m
    ∧ nextSub res.2 = nextSub m
    ∧ trace res.2 = trace m ++ sw.2.
Proof.
  induction rs as [|r rs IH]; intros pre m fuel Hm Hfuel; cbv zeta.
  - destruct fuel as [|fuel]; [simpl in Hfuel; lia|]. simpl.
    rewrite run_get. rewrite app_nil_r in Hm.
    rewrite Hm, lookup_ge_None_2 by lia. rewrite !app_nil_r.
    by split_and!.
  - destruct fuel as [|fuel]; [simpl in Hfuel; lia|]. simpl in Hfuel.
    cbn [gc_loop]. rewrite run_get.
    rewrite Hm, (list_lookup_middle pre rs r (length pre) eq_refl).
    assert (gc_body clock fails (λ _, ret tt) (length pre) r m
            = (Ok tt, (gc_body clock fails (λ _, ret tt) (length pre) r m).2)) as Hb.
    { rewrite gc_body_run. by destruct (gc_idle _ _ r). }
    rewrite (bind_Ok _ _ _ _ _ Hb).
    set (m1 := (gc_body clock fails (λ _, ret tt) (length pre) r m).2) in *.
    set (r1 := if gc_idle (keepAliveTime (params m)) (clock (length pre)) r
               then set_sleeping true r else r).
    set (es := if gc_idle (keepAliveTime (params m)) (clock (length pre)) r
               then RelayDisconnect (url r)
                      :: (if fails (url r) then [Console LogError (url r)] else [])
               else []).
    assert (params m1 = params m ∧ relays m1 = (pre ++ [r1]) ++ rs
            ∧ gcTimeout m1 = gcTimeout m
            ∧ authenticatedRelays m1 = authenticatedRelays m
            ∧ nextSub m1 = nextSub m ∧ trace m1 = trace m ++ es) as (Hp & Hr & Hg & Ha & Hn & Ht).
    { unfold m1, r1, es. rewrite gc_body_run.
      destruct (gc_idle _ _ r); cbv zeta; cbn [snd].
      - unfold ret. cbn [snd].
        assert (∀ m', relays m' = relays m →
                  alter (set_sleeping true) (length pre) (relays m')
                  = (pre ++ [set_sleeping true r]) ++ rs) as Halt.
        { intros m' ->. rewrite Hm.
          rewrite (alter_app_r_alt _ pre (r :: rs)) by lia.
          replace (length pre - length pre)%nat with 0%nat by lia.
          by rewrite <- app_assoc. }
        destruct (fails (url r)); cbn; rewrite Halt by done;
          split_and!; try done; by rewrite <- app_assoc.
      - split_and!; try done; [by rewrite Hm, <- app_assoc|by rewrite app_nil_r]. }
    specialize (IH (pre ++ [r1]) m1 fuel Hr ltac:(lia)). cbv zeta in IH.
    rewrite length_app in IH. simpl in IH.
    replace (length pre + 1)%nat with (S (length pre)) in IH by lia.
    destruct IH as (Hok & Hp' & Hr' & Hg' & Ha' & Hn' & Ht').
    rewrite Hp in Hr', Ht'.
    cbn [gc_sweep].
    destruct (gc_sweep (keepAliveTime (params m)) clock fails (S (length pre)) rs)
      as [rs' es'] eqn:Esw. cbn [fst snd] in *.
    split_and!; try congruence.
    + rewrite Hr'. unfold r1. rewrite <- app_assoc.
      by destruct (gc_idle _ _ r).
    + rewrite Ht', Ht. unfold es.
      destruct (gc_idle _ _ r); cbn [snd]; rewrite <- ?app_assoc; [|done].
      simpl. by rewrite <- ?app_assoc.
Qed.

(** A sweep during which nothing else runs is the sweep [gc]. *)
Lemma gc_await_alone fuel clock fails m :
  (length (relays m) < fuel)%nat →
  gc_await fuel clock fails (λ _, ret tt) m = (Ok true, (gc clock fails m).2).
Proof.
  intros Hfuel. unfold gc_await.
  destruct (gc_loop_alone clock fails (relays m) [] m fuel eq_refl Hfuel)
    as (Hok & Hp & Hr & Hg & Ha & Hn & Ht).
  cbv zeta in *. simpl in *.
  destruct (gc_loop fuel clock fails (λ _, ret tt) 0 m) as [res m1] eqn:E.
  cbn [fst snd] in *. subst res. rewrite (bind_Ok _ _ _ _ _ E).
  rewrite run_get, run_perform, run_modify. unfold ret. f_equal.
  destruct (gc_run clock fails m) as (_ & Hp2 & Hr2 & Hg2 & Ht2).
  destruct (gc_fields clock fails m) as [Ha2 Hn2]. cbv zeta in *.
  apply manager_eq; simpl; try congruence.
  rewrite Ht2, Ht, Hp. by rewrite <- app_assoc.
Qed.

(** C3. A sweep that was suspended at its [await] marks the session asleep
    when it resumes, without testing it again.  In [demo_manager] the
    session of [relay_a] is awake, idle and without subscription.  A sweep
    at time 400000 calls [disconnect] on it; a [subscribe] to [relay_a]
    lands while the sweep waits; the sweep then assigns [sleeping]: the
    session ends asleep and disconnected with the new subscription in its
    list.  Had nothing landed, the sweep would have been [gc], which
    leaves the session asleep without subscription. *)
Theorem gc_interrupted_sweep_sleeps_subscribed :
  let clock := λ _ : nat, 400000%Z in
  let landing := λ k : nat,
    if bool_decide (k = 0%nat)
    then subscribe (W:=unit) demo_verify 400000 {| onevent := None |} (Some [relay_a])
           ≫= λ _, ret tt
    else ret tt in
  let res := gc_await 3 clock (λ _, false) landing demo_manager in
  relays demo_manager !! 0%nat
  = Some {| url := relay_a; activeSubs := []; sleeping := false;
            lastActive := 0; authenticated := true |}
  ∧ res.1 = Ok true
  ∧ relays res.2 !! 0%nat
    = Some {| url := relay_a; activeSubs := [1%nat]; sleeping := true;
              lastActive := 400000; authenticated := true |}
  ∧ drop (length (trace demo_manager)) (trace res.2)
    = [RelayDisconnect relay_a; PoolSubscribeMany [relay_a] 1; SetTimeout 300000]
  ∧ gc_await 3 clock (λ _, false) (λ _, ret tt) demo_manager
    = (Ok true, (gc clock (λ _, false) demo_manager).2)
  ∧ relays (gc clock (λ _, false) demo_manager).2 !! 0%nat
    = Some {| url := relay_a; activeSubs := []; sleeping := true;
              lastActive := 0; authenticated := true |}.
Proof.
  cbv zeta.
  split_and!; [by vm_compute | by vm_compute | by vm_compute | by vm_compute | |
               by vm_compute].
  apply gc_await_alone. vm_compute. lia.
Qed.

(** ** Waking sessions *)

Lemma asleep_urls_alter_other f i objs (rs : list NostrRelay) :
  i ∉ objs → asleep_urls objs (alter f i rs) = asleep_urls objs rs.
Proof.
  intros Hi. unfold asleep_urls. induction objs as [|j objs IH]; [done|].
  apply not_elem_of_cons in Hi as [Hne Hi].
  change (j :: objs) with ([j] ++ objs). rewrite !omap_app, IH by done.
  f_equal. simpl. by rewrite list_lookup_alter_ne.
Qed.

Lemma keepAlive_trace now objs m :
  NoDup objs →
  trace (keepAlive now objs m).2
  = trace m ++ (RelayConnect <$> asleep_urls objs (relays m)).
Proof.
  revert m. induction objs as [|i objs IH]; intros m Hnd.
  - simpl. by rewrite app_nil_r.
  - apply NoDup_cons in Hnd as [Hi Hnd].
    destruct (keepAlive_relay_run now i m) as (Hok & Hr & _).
    assert (trace (keepAlive_relay now i m).2
            = trace m ++ (RelayConnect <$> asleep_urls [i] (relays m))) as Ht.
    { unfold keepAlive_relay, asleep_urls. simpl.
      destruct (relays m !! i) as [r|]; simpl; [|by rewrite app_nil_r].
      destruct (sleeping r); simpl; [done|by rewrite app_nil_r]. }
    destruct (keepAlive_relay now i m) as [res mi] eqn:E. cbn [fst snd] in *.
    subst res.
    assert (keepAlive now (i :: objs) m = keepAlive now objs mi) as ->.
    { unfold keepAlive. simpl. unfold bind. by rewrite E. }
    rewrite IH, Ht, Hr by done. rewrite asleep_urls_alter_other by done.
    rewrite <- app_assoc, <- fmap_app. do 2 f_equal.
    unfold asleep_urls. change (i :: objs) with ([i] ++ objs). by rewrite omap_app.
Qed.

(** X5. [keepAlive] on a list of distinct sessions: each of them ends
    awake with its activity time set to now and everything else about it
    unchanged, the sessions outside the list are untouched, and a
    connection is opened for exactly the listed sessions that were asleep
    (an awake session is not reconnected). *)
Theorem keepAlive_wakes_targets (now : Z) (objs : list nat) (m : NostrManager) :
  NoDup objs →
  let m' := (keepAlive now objs m).2 in
  (keepAlive now objs m).1 = Ok tt
  ∧ (∀ i, relays m' !! i
          = (if bool_decide (i ∈ objs)
             then λ r, {| url := url r; activeSubs := activeSubs r; sleeping := false;
                          lastActive := now; authenticated := authenticated r |}
             else id) <$> relays m !! i)
  ∧ trace m' = trace m ++ (RelayConnect <$> asleep_urls objs (relays m)).
Proof.
  intros Hnd. cbv zeta.
  destruct (keepAlive_run now objs m) as (Hok & Hr & _).
  split_and!; [done| |by apply keepAlive_trace].
  intros i. rewrite Hr, alter_all_lookup by done. done.
Qed.

(** ** Which relays an operation targets *)

Lemma elem_of_urls_of u objs m :
  u ∈ urls_of objs m ↔ ∃ i r, i ∈ objs ∧ relays m !! i = Some r ∧ url r = u.
Proof.
  unfold urls_of. rewrite list_elem_of_omap. split.
  - intros (i & Hi & Hu). destruct (relays m !! i) as [r|] eqn:E; [|done].
    simpl in Hu. injection Hu as <-. by exists i, r.
  - intros (i & r & Hi & Hr & <-). exists i. by rewrite Hr.
Qed.

Lemma urls_of_NoDup objs m :
  registry_wf m → NoDup objs → NoDup (urls_of objs m).
Proof.
  intros Hwf. induction objs as [|i objs IH]; intros Hnd; [apply NoDup_nil_2|].
  apply NoDup_cons in Hnd as [Hi Hnd]. unfold urls_of in *.
  change (i :: objs) with ([i] ++ objs). rewrite omap_app. simpl.
  destruct (relays m !! i) as [r|] eqn:E; simpl; [|by apply IH].
  apply NoDup_cons. split; [|by apply IH].
  intros (j & s & Hj & Hs & Hu)%elem_of_urls_of.
  assert (j = i) as -> by (by eapply (registry_wf_lookup m)). done.
Qed.

Lemma urls_of_whole pre rs m :
  relays m = pre ++ rs →
  urls_of (seq (length pre) (length rs)) m = url <$> rs.
Proof.
  revert pre. induction rs as [|r rs IH]; intros pre Hm; [done|].
  cbn [length seq]. unfold urls_of in *.
  change (length pre :: seq (S (length pre)) (length rs))
    with ([length pre] ++ seq (S (length pre)) (length rs)).
  rewrite omap_app. simpl. rewrite Hm.
  rewrite lookup_app_r, Nat.sub_diag by lia. simpl. f_equal.
  rewrite <- Hm. specialize (IH (pre ++ [r])). rewrite length_app in IH. simpl in IH.
  replace (length pre + 1)%nat with (S (length pre)) in IH by lia.
  apply IH. by rewrite <- app_assoc.
Qed.

(** The urls of the sessions an operation targets, once the given urls
    have sessions: without repetition, and exactly the given urls, or
    those of the whole registry when none is given. *)
Lemma target_urls now relayUrls m :
  registry_wf m →
  let m1 := (ensure_relays now relayUrls m).2 in
  let targets := urls_of (scope_objs (target_scope relayUrls m1) m1) m1 in
  NoDup targets
  ∧ ∀ u, u ∈ targets ↔ match relayUrls with
                        | Some us => u ∈ us
                        | None => u ∈ url <$> relays m
                        end.
Proof.
  intros Hwf. cbv zeta.
  destruct (ensure_relays_run now relayUrls m) as (_ & _ & _ & _ & _ & Hwf1 & _).
  specialize (Hwf1 Hwf). split.
  - apply urls_of_NoDup; [done | apply scope_objs_NoDup].
  - intros u. destruct relayUrls as [us|]; simpl.
    + destruct (for_of_addRelay_run now us m) as (_ & _ & _ & _ & _ & _ & Hreg & _).
      set (m1 := (for_of us (addRelay now) m).2) in *.
      rewrite elem_of_urls_of. split.
      * intros (i & r & Hi & Hr & <-). apply filter_from_spec in Hi as (r' & _ & Hr' & Hp).
        rewrite Nat.sub_0_r in Hr'. assert (r' = r) as -> by congruence.
        unfold includes in Hp. by apply bool_decide_eq_true in Hp.
      * intros Hu. pose proof (Hreg u Hu) as Hx.
        apply list_elem_of_lookup in Hx as [i Hi].
        rewrite list_lookup_fmap in Hi.
        destruct (relays m1 !! i) as [r|] eqn:E; [|done]. simpl in Hi.
        injection Hi as Hi. exists i, r. split_and!; [|done..].
        apply filter_from_spec. exists r. rewrite Nat.sub_0_r.
        split_and!; [lia|done|]. unfold includes. apply bool_decide_eq_true.
        by rewrite Hi.
    + pose proof (urls_of_whole [] (relays m) m eq_refl) as H. simpl in H.
      unfold ret. simpl. by rewrite H.
Qed.


(** X7. What [subscribe] does to the sessions of a readable manager: every
    targeted session ends awake, active now, and with the new handle
    appended to its subscriptions; every other session is untouched; the
    authentication record and the configuration are unchanged. *)
Theorem subscribe_marks_targets {W} (verifyEvent : NostrEvent → bool) (now : Z)
    (prm : SubscribeManyParams W) (relayUrls : option (list string))
    (m : NostrManager) :
  readable (params m) = true →
  let m1 := (ensure_relays now relayUrls m).2 in
  let objs := scope_objs (target_scope relayUrls m1) m1 in
  let m' := (subscribe verifyEvent now prm relayUrls m).2 in
  (∀ i, relays m' !! i
        = (if bool_decide (i ∈ objs)
           then λ r, {| url := url r; activeSubs := activeSubs r ++ [nextSub m];
                        sleeping := false; lastActive := now;
                        authenticated := authenticated r |}
           else id) <$> relays m1 !! i)
  ∧ authenticatedRelays m' = authenticatedRelays m
  ∧ params m' = params m.
Proof.
  intros Hrd. cbv zeta. rewrite subscribe_run by done. cbn [snd].
  destruct (ensure_relays_run now relayUrls m) as (_ & Hp & _ & Ha & Hn & _).
  set (m1 := (ensure_relays now relayUrls m).2) in *.
  set (objs := scope_objs (target_scope relayUrls m1) m1) in *.
  assert (NoDup objs) as Hnd by apply scope_objs_NoDup.
  match goal with |- context [keepAlive now objs ?m3] =>
    destruct (keepAlive_run now objs m3) as (_ & Hr & Hp' & _ & Ha' & _);
    set (m4 := (keepAlive now objs m3).2) in *
  end.
  simpl in Hr, Hp', Ha'. split_and!; [|congruence..].
  intros i. rewrite Hr, !alter_all_lookup by done. rewrite <- Hn.
  destruct (relays m1 !! i); simpl; [|done]. by case_bool_decide.
Qed.

(** ** More on publish *)

Lemma publish_run now env event relayUrls signer m :
  writable (params m) = true →
  let m1 := (ensure_relays now relayUrls m).2 in
  let scope := target_scope relayUrls m1 in
  let objs := scope_objs scope m1 in
  let m2 := (keepAlive now objs m1).2 in
  let loop := (if autoAuth (params m) && signer
               then for_of objs (publish_auth now env) else ret tt) m2 in
  publish now env event relayUrls signer m
  = match loop with
    | (Ok _, m3) =>
        (Ok tt, emit (PoolPublish (urls_of (scope_objs scope m3) m3) event) m3)
    | (Throw e, m3) => (Throw e, m3)
    end.
Proof.
  intros Hw. cbv zeta. unfold publish. rewrite run_get, Hw. simpl.
  destruct (ensure_relays_run now relayUrls m) as (Hok1 & Hp1 & _).
  destruct (ensure_relays now relayUrls m) as [res1 m1] eqn:E1. cbn [fst snd] in *.
  subst res1. rewrite (bind_Ok _ _ _ _ _ E1), run_get.
  destruct (keepAlive_run now (scope_objs (target_scope relayUrls m1) m1) m1)
    as (Hok2 & _).
  destruct (keepAlive now _ m1) as [res2 m2] eqn:E2. cbn [fst snd] in *.
  subst res2. rewrite (bind_Ok _ _ _ _ _ E2). rewrite Hp1.
  match goal with |- (?c ≫= _) m2 = _ => destruct (c m2) as [[[]|e] m3] eqn:E3 end.
  - rewrite (bind_Ok _ _ _ _ _ E3), run_get. done.
  - unfold mbind, M_bind, bind. by rewrite E3.
Qed.

Lemma mark_authenticated_fmap {A} (g : NostrRelay → A) u b rs :
  (∀ r, g (set_authenticated b r) = g r) →
  g <$> mark_authenticated u b rs = g <$> rs.
Proof.
  intros Hg. induction rs as [|r rs IH]; simpl; [done|].
  case_bool_decide; simpl; [by rewrite Hg|]. f_equal. exact IH.
Qed.

Lemma publish_auth_fmap {A} (g : NostrRelay → A) now env i m :
  (∀ b r, g (set_authenticated b r) = g r) →
  (publish_auth now env i m).1 = Ok tt
  ∧ g <$> relays (publish_auth now env i m).2 = g <$> relays m.
Proof.
  intros Hg. unfold publish_auth. rewrite run_get.
  destruct (relays m !! i) as [r|] eqn:Hi; [|done].
  destruct (authenticated r); simpl; [done|].
  assert (url r ∈ url <$> relays m) as Hin.
  { apply list_elem_of_fmap_2. by eapply list_elem_of_lookup_2. }
  unfold try_catch.
  pose proof (authenticateToRelay_run now (env (url r)) (url r) m) as Hrun.
  cbv zeta in Hrun. rewrite addRelay_present in Hrun by done. cbn [fst snd] in Hrun.
  destruct (env (url r)) as [| |[|]]; rewrite (bind_Ok _ _ _ _ _ Hrun); simpl;
    (split; [done|]); try done; by apply mark_authenticated_fmap.
Qed.

Lemma publish_auth_loop_fmap {A} (g : NostrRelay → A) now env objs m :
  (∀ b r, g (set_authenticated b r) = g r) →
  (for_of objs (publish_auth now env) m).1 = Ok tt
  ∧ g <$> relays (for_of objs (publish_auth now env) m).2 = g <$> relays m.
Proof.
  intros Hg. revert m. induction objs as [|i objs IH]; intros m; [done|].
  destruct (publish_auth_fmap g now env i m Hg) as [Hok Hr].
  destruct (publish_auth now env i m) as [res mi] eqn:E. cbn [fst snd] in *. subst res.
  assert (for_of (i :: objs) (publish_auth now env) m
          = for_of objs (publish_auth now env) mi) as ->.
  { simpl. unfold bind. by rewrite E. }
  destruct (IH mi) as [Hok' Hr']. split; [done|congruence].
Qed.

(** X8. On a writable manager, [publish] without auto-authentication (the
    option is off, or no signer is given) returns normally, wakes and
    refreshes exactly the targeted sessions, and hands the event to the
    pool for their urls; apart from ensuring the given urls it does
    nothing else: no handshake is started and the authentication record
    and flags stay as they were. *)
Theorem publish_without_authentication (now : Z) (env : string → AuthOutcome)
    (event : NostrEvent) (relayUrls : option (list string)) (signer : bool)
    (m : NostrManager) :
  writable (params m) = true →
  autoAuth (params m) && signer = false →
  let m1 := (ensure_relays now relayUrls m).2 in
  let objs := scope_objs (target_scope relayUrls m1) m1 in
  let res := publish now env event relayUrls signer m in
  res.1 = Ok tt
  ∧ (∀ i, relays res.2 !! i
          = (if bool_decide (i ∈ objs) then wake now else id) <$> relays m1 !! i)
  ∧ authenticatedRelays res.2 = authenticatedRelays m
  ∧ trace res.2 = trace m1 ++ (RelayConnect <$> asleep_urls objs (relays m1))
                  ++ [PoolPublish (urls_of objs m1) event].
Proof.
  intros Hw Hna. cbv zeta. rewrite publish_run by done. rewrite Hna.
  destruct (ensure_relays_run now relayUrls m) as (_ & _ & _ & Ha & _).
  set (m1 := (ensure_relays now relayUrls m).2) in *.
  set (objs := scope_objs (target_scope relayUrls m1) m1) in *.
  assert (NoDup objs) as Hnd by apply scope_objs_NoDup.
  destruct (keepAlive_run now objs m1) as (_ & Hr & _ & _ & Ha2 & _).
  pose proof (keepAlive_trace now objs m1 Hnd) as Ht.
  set (m2 := (keepAlive now objs m1).2) in *.
  unfold ret. cbn [fst snd emit relays authenticatedRelays trace].
  assert (scope_objs (target_scope relayUrls m1) m2 = objs) as ->.
  { apply scope_objs_length. by rewrite Hr, alter_all_length. }
  split_and!; [done| |congruence|].
  - intros i. by rewrite Hr, alter_all_lookup.
  - rewrite Ht, <- app_assoc. do 2 f_equal. rewrite (urls_of_ext objs m1 m2); [done|].
    rewrite Hr.
    by destruct (alter_all_preserves (wake now) objs (relays m1)) as [-> _].
Qed.

(** X9. On a writable manager with one session per url, [publish] returns
    normally in every case; it never changes the url or the subscriptions
    of a session; the targeted sessions end awake and active now, the
    others keep their state of sleep and activity time; and its last
    effect hands the event to the pool for the urls of the targeted
    sessions, which contain no repetition and are exactly the given urls,
    or those of the whole registry when none is given. *)
Theorem publish_refreshes_and_broadcasts (now : Z) (env : string → AuthOutcome)
    (event : NostrEvent) (relayUrls : option (list string)) (signer : bool)
    (m : NostrManager) :
  registry_wf m →
  writable (params m) = true →
  let m1 := (ensure_relays now relayUrls m).2 in
  let objs := scope_objs (target_scope relayUrls m1) m1 in
  let res := publish now env event relayUrls signer m in
  res.1 = Ok tt
  ∧ (λ r, (url r, activeSubs r)) <$> relays res.2
    = (λ r, (url r, activeSubs r)) <$> relays m1
  ∧ (λ r, (sleeping r, lastActive r)) <$> relays res.2
    = (λ r, (sleeping r, lastActive r)) <$> alter_all (wake now) objs (relays m1)
  ∧ ∃ targets,
      last (trace res.2) = Some (PoolPublish targets event)
      ∧ NoDup targets
      ∧ ∀ u, u ∈ targets ↔ match relayUrls with
                            | Some us => u ∈ us
                            | None => u ∈ url <$> relays m
                            end.
Proof.
  intros Hwf Hw. cbv zeta. rewrite publish_run by done.
  destruct (target_urls now relayUrls m Hwf) as [Hnd Hin].
  set (m1 := (ensure_relays now relayUrls m).2) in *.
  set (objs := scope_objs (target_scope relayUrls m1) m1) in *.
  destruct (keepAlive_run now objs m1) as (_ & Hr & _).
  set (m2 := (keepAlive now objs m1).2) in *.
  assert (∃ m3, (if autoAuth (params m) && signer
                 then for_of objs (publish_auth now env) else ret tt) m2 = (Ok tt, m3)
                ∧ ∀ A (g : NostrRelay → A),
                    (∀ b r, g (set_authenticated b r) = g r) →
                    g <$> relays m3 = g <$> relays m2) as (m3 & -> & Hg).
  { destruct (autoAuth (params m) && signer).
    - destruct (for_of objs (publish_auth now env) m2) as [res3 m3] eqn:E3.
      exists m3. split.
      + destruct (publish_auth_loop_fmap url now env objs m2) as [Hok _]; [done|].
        rewrite E3 in Hok. simpl in Hok. by subst.
      + intros A g Hg0.
        destruct (publish_auth_loop_fmap g now env objs m2 Hg0) as [_ H].
        by rewrite E3 in H.
    - by exists m2. }
  cbn [fst snd emit relays trace].
  assert (url <$> relays m3 = url <$> relays m1) as Hu.
  { rewrite (Hg _ url) by done. rewrite Hr.
    by destruct (alter_all_preserves (wake now) objs (relays m1)) as [-> _]. }
  split_and!.
  - done.
  - rewrite (Hg _ (λ r, (url r, activeSubs r))) by done. rewrite Hr.
    clear. generalize (relays m1). induction objs as [|i objs IH]; intros rs; [done|].
    unfold alter_all in *. simpl. rewrite IH. apply list_eq. intros j.
    rewrite !list_lookup_fmap, list_lookup_alter. case_decide; [subst|done].
    by destruct (rs !! j).
  - rewrite (Hg _ (λ r, (sleeping r, lastActive r))) by done. by rewrite Hr.
  - exists (urls_of objs m1). split_and!; [|done..].
    rewrite last_snoc. do 2 f_equal.
    rewrite (scope_objs_length _ m1 m3)
      by (by rewrite <- (length_fmap url), Hu, length_fmap).
    by apply urls_of_ext.
Qed.

(** ** More on handles *)

Lemma alter_all_fmap {A} (g : NostrRelay → A) f objs rs :
  (∀ r, g (f r) = g r) → g <$> alter_all f objs rs = g <$> rs.
Proof.
  intros Hg. revert rs. induction objs as [|i objs IH]; intros rs; [done|].
  unfold alter_all in *. simpl. rewrite IH. apply list_eq. intros j.
  rewrite !list_lookup_fmap, list_lookup_alter. case_decide; [subst|done].
  destruct (rs !! j); [|done]. simpl. by rewrite Hg.
Qed.

Lemma index_of_Some x l i : index_of x l = Some i → l !! i = Some x.
Proof.
  revert i. induction l as [|y l IH]; intros i; simpl; [done|].
  case_bool_decide as Hy.
  - intros [= <-]. simpl. by rewrite Hy.
  - destruct (index_of x l) as [j|]; simpl; [|done]. intros [= <-]. by apply IH.
Qed.

Lemma drop_sub_others ref l :
  filter (λ s, s ≠ ref) (drop_sub ref l) = filter (λ s, s ≠ ref) l.
Proof.
  unfold drop_sub. destruct (index_of ref l) as [i|] eqn:E; [|done].
  apply index_of_Some in E.
  rewrite <- (take_drop_middle l i ref E) at 3.
  rewrite !filter_app, filter_cons_False; [done|]. by intros H.
Qed.

(** X10. Closing a handle, whatever its scope and whatever the state of
    the manager, returns normally and closes the pool's subscription; in
    every session the other handles stay listed in the same order, and the
    url, the state of sleep, the activity time and the authentication flag
    are untouched, as are the authentication record and the number of
    sessions: a close neither wakes nor refreshes nor disconnects. *)
Theorem close_leaves_other_handles {W} (sub : NostrSub W) (m : NostrManager) :
  let m' := (sub_close sub m).2 in
  let view (r : NostrRelay) :=
    (url r, sleeping r, lastActive r, authenticated r,
     filter (λ s, s ≠ sub_ref sub) (activeSubs r)) in
  (sub_close sub m).1 = Ok tt
  ∧ view <$> relays m' = view <$> relays m
  ∧ authenticatedRelays m' = authenticatedRelays m
  ∧ trace m' = trace m ++ [SubCloserClose (sub_ref sub)].
Proof.
  cbv zeta. rewrite sub_close_run. cbn [fst snd relays with_relays emit trace
    authenticatedRelays]. split_and!; try done.
  apply alter_all_fmap. intros r. simpl. by rewrite drop_sub_others.
Qed.

(** *** Handles, wherever they are listed *)

Lemma occurrences_app ref l1 l2 :
  occurrences ref (l1 ++ l2) = (occurrences ref l1 + occurrences ref l2)%nat.
Proof. unfold occurrences. by rewrite filter_app, length_app. Qed.

Lemma occurrences_zero ref l : occurrences ref l = 0%nat ↔ ref ∉ l.
Proof.
  unfold occurrences. induction l as [|x l IH].
  - split; [intros _; apply not_elem_of_nil|done].
  - rewrite not_elem_of_cons. destruct (decide (x = ref)) as [->|Hne].
    + rewrite filter_cons_True by done. simpl. split; [lia|]. by intros [? _].
    + rewrite filter_cons_False by done. rewrite IH. split; [|tauto].
      intros ?. split; [congruence|done].
Qed.

Lemma occurrences_pos ref l : ref ∈ l ↔ (0 < occurrences ref l)%nat.
Proof.
  destruct (decide (ref ∈ l)) as [Hin|Hout].
  - split; [|done]. intros _.
    destruct (occurrences ref l) eqn:E; [|lia]. by apply occurrences_zero in E.
  - split; [done|]. apply occurrences_zero in Hout. lia.
Qed.


(** [splice] at the position found by [indexOf] removes a handle that is
    listed once, wherever in the list it stands. *)
Lemma drop_sub_once ref l : (occurrences ref l ≤ 1)%nat → ref ∉ drop_sub ref l.
Proof.
  intros Hocc. unfold drop_sub. destruct (index_of ref l) as [i|] eqn:E.
  - apply index_of_Some in E. rewrite <- (take_drop_middle l i ref E) in Hocc.
    change (ref :: drop (S i) l) with ([ref] ++ drop (S i) l) in Hocc.
    rewrite !occurrences_app in Hocc.
    assert (occurrences ref [ref] = 1%nat) as H1.
    { unfold occurrences. by rewrite filter_cons_True. }
    rewrite not_elem_of_app. split; apply occurrences_zero; lia.
  - by apply index_of_None.
Qed.

Lemma subs_at_lookup i m r : relays m !! i = Some r → subs_at i m = activeSubs r.
Proof. unfold subs_at. by intros ->. Qed.

Lemma subs_at_ext m m' :
  activeSubs <$> relays m' = activeSubs <$> relays m → ∀ i, subs_at i m' = subs_at i m.
Proof. intros H i. unfold subs_at. by rewrite <- !list_lookup_fmap, H. Qed.

Lemma not_added_since_refl ref m : not_added_since ref m m.
Proof. by intros i. Qed.

Lemma not_added_since_trans ref m1 m2 m3 :
  not_added_since ref m1 m2 → not_added_since ref m2 m3 → not_added_since ref m1 m3.
Proof. intros H1 H2 i. specialize (H1 i). specialize (H2 i). lia. Qed.

(** A handle listed at most once per session, and only by sessions within
    its scope, is listed by no session once it is closed. *)
Lemma sub_close_removes {W} (sub : NostrSub W) m :
  NoDup (scope_objs (sub_relays sub) m) →
  (∀ i, (occurrences (sub_ref sub) (subs_at i m) ≤ 1)%nat) →
  (∀ i, sub_ref sub ∈ subs_at i m → i ∈ scope_objs (sub_relays sub) m) →
  ∀ r, r ∈ relays (sub_close sub m).2 → sub_ref sub ∉ activeSubs r.
Proof.
  intros Hnd Honce Hscope r. rewrite sub_close_run. simpl.
  intros [i Hi]%list_elem_of_lookup. rewrite alter_all_lookup in Hi by done.
  destruct (relays m !! i) as [r0|] eqn:E0; [|done]. simpl in Hi.
  specialize (Honce i). specialize (Hscope i).
  rewrite (subs_at_lookup i m r0 E0) in Honce, Hscope.
  case_bool_decide as Hin; simpl in Hi; injection Hi as <-.
  - simpl. by apply drop_sub_once.
  - intros Hl. by apply Hin, Hscope.
Qed.

(** Closing a handle that no session lists changes no session. *)
Lemma sub_close_again {W} (sub : NostrSub W) m :
  (∀ r, r ∈ relays m → sub_ref sub ∉ activeSubs r) →
  (sub_close sub m).1 = Ok tt ∧ relays (sub_close sub m).2 = relays m.
Proof.
  intros Hgone. rewrite sub_close_run. simpl. split; [done|].
  apply alter_all_fixed. intros r Hr. by apply remove_sub_absent, Hgone.
Qed.

Section NewHandle.

Context {W : Type} (verifyEvent : NostrEvent → bool) (now : Z)
  (prm : SubscribeManyParams W) (relayUrls : option (list string))
  (m m1 : NostrManager) (sub : NostrSub W).
Hypothesis Halloc : subs_allocated m.
Hypothesis Hsub : subscribe verifyEvent now prm relayUrls m = (Ok sub, m1).

(** What [subscribe] leaves: the new handle is listed once by each session
    it targets and by no other, and its scope names each session once. *)
Lemma subscribe_lists_once :
  NoDup (scope_objs (sub_relays sub) m1)
  ∧ ∀ i, occurrences (sub_ref sub) (subs_at i m1)
         = if bool_decide (i ∈ scope_objs (sub_relays sub) m1
                           ∧ i < length (relays m1))%nat
           then 1%nat else 0%nat.
Proof.
  destruct (readable (params m)) eqn:Hrd;
    [|rewrite subscribe_refused in Hsub by done; discriminate].
  rewrite subscribe_run in Hsub by done.
  destruct (ensure_relays_run now relayUrls m)
    as (_ & _ & _ & _ & Hn & _ & (new & Hrs & Hnew) & _).
  set (m0 := (ensure_relays now relayUrls m).2) in *.
  set (objs := scope_objs (target_scope relayUrls m0) m0) in *.
  set (ref := nextSub m0) in *.
  injection Hsub as <- <-. cbn [sub_ref sub_relays].
  assert (NoDup objs) as Hnd by apply scope_objs_NoDup.
  assert (∀ r, r ∈ relays m0 → ref ∉ activeSubs r) as Hfresh.
  { intros r Hr Hin. rewrite Hrs in Hr. apply elem_of_app in Hr as [Hr|Hr].
    - specialize (Halloc r ref Hr Hin). unfold ref in Halloc. lia.
    - rewrite Forall_forall in Hnew. destruct (Hnew r Hr) as [He _].
      rewrite He in Hin. by apply elem_of_nil in Hin. }
  match goal with |- context [keepAlive now objs ?m3] =>
    destruct (keepAlive_run now objs m3) as (_ & Hr1 & _);
    set (m' := (keepAlive now objs m3).2) in *
  end.
  simpl in Hr1.
  assert (length (relays m') = length (relays m0)) as Hlen.
  { by rewrite Hr1, !alter_all_length. }
  assert (scope_objs (target_scope relayUrls m0) m' = objs) as Hsc.
  { by apply scope_objs_length. }
  rewrite Hsc. split; [done|].
  intros i. rewrite Hlen. unfold subs_at. rewrite Hr1, !alter_all_lookup by done.
  destruct (relays m0 !! i) as [r0|] eqn:E0; simpl.
  - assert (ref ∉ activeSubs r0) as H0
      by (apply Hfresh; by eapply list_elem_of_lookup_2).
    apply occurrences_zero in H0. apply lookup_lt_Some in E0.
    destruct (decide (i ∈ objs)) as [Hi|Hi].
    + rewrite !(bool_decide_eq_true_2 (i ∈ objs)) by done.
      rewrite bool_decide_eq_true_2 by (split; [done|lia]).
      simpl. rewrite occurrences_app, H0. unfold occurrences.
      by rewrite filter_cons_True.
    + rewrite !(bool_decide_eq_false_2 (i ∈ objs)) by done.
      rewrite bool_decide_eq_false_2 by tauto. done.
  - apply lookup_ge_None in E0.
    rewrite bool_decide_eq_false_2 by (intros [_ ?]; lia). done.
Qed.

(** The close of a handle made by [subscribe], in any later state in
    which the handle has not been added to a session again. *)
Lemma close_later (ma : NostrManager) :
  not_added_since (sub_ref sub) m1 ma →
  (sub_close sub ma).1 = Ok tt
  ∧ (∀ r, r ∈ relays (sub_close sub ma).2 → sub_ref sub ∉ activeSubs r)
  ∧ (sub_close sub (sub_close sub ma).2).1 = Ok tt
  ∧ relays (sub_close sub (sub_close sub ma).2).2 = relays (sub_close sub ma).2.
Proof.
  intros Hlater. destruct subscribe_lists_once as (Hnd & Hocc).
  assert (∀ r, r ∈ relays (sub_close sub ma).2 → sub_ref sub ∉ activeSubs r) as Hgone.
  { apply sub_close_removes.
    - destruct (sub_relays sub); [apply NoDup_seq|exact Hnd].
    - intros i. specialize (Hlater i). rewrite Hocc in Hlater.
      case_bool_decide; lia.
    - intros i Hl. apply occurrences_pos in Hl as Hpos.
      specialize (Hlater i). rewrite Hocc in Hlater.
      case_bool_decide as Hi; [|lia].
      destruct (sub_relays sub); simpl in *; [|tauto].
      apply elem_of_seq. split; [lia|]. simpl.
      unfold subs_at in Hl. destruct (relays ma !! i) eqn:E; [|by apply elem_of_nil in Hl].
      by apply lookup_lt_Some in E. }
  destruct (sub_close_again sub (sub_close sub ma).2 Hgone) as [Hok Hsame].
  split_and!; try done. by rewrite sub_close_run.
Qed.

End NewHandle.

(** C7. Let [subscribe] return a handle on a manager whose sessions list
    only handles created so far.  The handle is then listed by every
    session it targets.  Whenever [close()] is called afterwards, in any
    state [ma] of the manager in which the handle has not been added to a
    session again (no method does that), it returns normally and no
    session of the registry lists the handle any more, wherever in a
    session's list the handle stood; a second [close()] returns normally
    too and leaves every session exactly as the first one left it. *)
Theorem close_removes_handle_idempotent {W} (verifyEvent : NostrEvent → bool)
    (now : Z) (prm : SubscribeManyParams W) (relayUrls : option (list string))
    (m m1 ma : NostrManager) (sub : NostrSub W) :
  subs_allocated m →
  subscribe verifyEvent now prm relayUrls m = (Ok sub, m1) →
  not_added_since (sub_ref sub) m1 ma →
  let m2 := (sub_close sub ma).2 in
  let m3 := (sub_close sub m2).2 in
  (∀ i r, i ∈ scope_objs (sub_relays sub) m1 → relays m1 !! i = Some r →
          sub_ref sub ∈ activeSubs r)
  ∧ (sub_close sub ma).1 = Ok tt
  ∧ (∀ r, r ∈ relays m2 → sub_ref sub ∉ activeSubs r)
  ∧ (sub_close sub m2).1 = Ok tt
  ∧ relays m3 = relays m2.
Proof.
  intros Halloc Hsub Hlater. cbv zeta.
  destruct (close_later verifyEvent now prm relayUrls m m1 sub Halloc Hsub ma Hlater)
    as (Hok & Hgone & Hok2 & Hsame).
  split_and!; try done. by eapply subscribe_registers.
Qed.

(** ** More on fetch *)

Lemma fetch_start_inv {W} (verifyEvent : NostrEvent → bool) now
    (onEvent : option (Callback W)) onEose relayUrls m f m1 :
  fetch_start verifyEvent now onEvent onEose relayUrls m = (Ok f, m1) →
  ∃ sub,
    subscribe verifyEvent now
      {| onevent := Some (fetch_onevent (default (λ _ w, (Ok tt, w)) onEvent)) |}
      relayUrls m = (Ok sub, m1)
    ∧ f = {| fetch_sub := sub; fetch_onEose := default (λ w, (Ok tt, w)) onEose;
             fetch_promise := Pending |}.
Proof.
  unfold fetch_start. intros Hf.
  match type of Hf with (?c ≫= _) m = _ => destruct (c m) as [[sub|e] m'] eqn:E end.
  - rewrite (bind_Ok _ _ _ _ _ E) in Hf. injection Hf as <- <-. by exists sub.
  - unfold mbind, M_bind, bind in Hf. rewrite E in Hf. discriminate.
Qed.

(** X11. While a fetch is pending, the events the pool delivers are
    collected in delivery order, those accepted by [verifyEvent] and no
    other; the caller's [onevent] (a callback doing nothing when none is
    given) is run on exactly the collected events, in the same order, and
    an event is collected even when that callback throws on it. *)
Theorem fetch_collects_verified {W} (verifyEvent : NostrEvent → bool) (now : Z)
    (onEvent : option (Callback W)) (onEose : option (W → Result unit * W))
    (relayUrls : option (list string)) (m m1 : NostrManager) (f : Fetch W) :
  fetch_start verifyEvent now onEvent onEose relayUrls m = (Ok f, m1) →
  ∀ evs fetched w,
    deliver_all (fetch_sub f) evs (fetched, w)
    = (fetched ++ filter (λ e, verifyEvent e = true) evs,
       run_callback (default (λ _ w, (Ok tt, w)) onEvent)
         (filter (λ e, verifyEvent e = true) evs) w).
Proof.
  intros Hf. apply fetch_start_inv in Hf as (sub & Hsub & ->). cbn [fetch_sub].
  destruct (readable (params m)) eqn:Hrd;
    [|rewrite subscribe_refused in Hsub by done; discriminate].
  rewrite subscribe_run in Hsub by done. injection Hsub as <- _.
  set (cb := default (λ _ w, (Ok tt, w)) onEvent).
  induction evs as [|e evs IH]; intros fetched w; simpl.
  - by rewrite app_nil_r.
  - unfold deliver at 1. cbn [sub_params onevent].
    unfold wrap_onevent, fetch_onevent. cbn [fst snd].
    destruct (verifyEvent e) eqn:He.
    + rewrite filter_cons_True by done. destruct (cb e w) as [r w'] eqn:Ecb.
      cbn [snd]. rewrite IH. unfold run_callback. simpl. rewrite Ecb. simpl.
      by rewrite <- app_assoc.
    + rewrite filter_cons_False by congruence. cbn [snd]. apply IH.
Qed.

(** X12. When the [oneose] callback that [fetch] installed runs, in
    whatever state [ma] the manager is by then (the handle not having
    been added to a session again, which no method does): the handle is
    closed at the pool first and is then listed by no session, wherever
    it stood in a session's list; the promise is resolved with the events
    collected so far (the empty sequence when none was delivered); and
    the caller's [oneose] is then run once, its outcome being that of the
    callback.  A timer that fires later leaves the promise resolved. *)
Theorem fetch_eose_resolves_and_closes {W} (verifyEvent : NostrEvent → bool)
    (now : Z) (onEvent : option (Callback W)) (onEose : option (W → Result unit * W))
    (relayUrls : option (list string)) (m m1 ma : NostrManager) (f : Fetch W)
    (fetched : list NostrEvent) (w : W) :
  subs_allocated m →
  fetch_start verifyEvent now onEvent onEose relayUrls m = (Ok f, m1) →
  not_added_since (sub_ref (fetch_sub f)) m1 ma →
  let res := fetch_oneose f (fetched, w) ma in
  let out := default (λ w, (Ok tt, w)) onEose w in
  ∃ f', res.1 = Ok (f', (out.1, (fetched, out.2)))
    ∧ fetch_promise f' = Resolved fetched
    ∧ fetch_promise (fetch_timeout f') = Resolved fetched
    ∧ (∀ r, r ∈ relays res.2 → sub_ref (fetch_sub f) ∉ activeSubs r)
    ∧ ∃ es, drop (length (trace ma)) (trace res.2)
            = SubCloserClose (sub_ref (fetch_sub f)) :: es.
Proof.
  intros Halloc Hf Hlater. cbv zeta. apply fetch_start_inv in Hf as (sub & Hsub & ->).
  cbn [fetch_sub] in Hlater.
  destruct (close_later _ _ _ _ _ _ _ Halloc Hsub ma Hlater) as (_ & Hgone & _).
  unfold fetch_oneose. cbn [fetch_sub fetch_onEose fetch_promise fst snd].
  pose proof (sub_close_run sub ma) as Hc. cbv zeta in Hc.
  rewrite Hc in Hgone. rewrite (bind_Ok _ _ _ _ _ Hc).
  destruct (default (λ w0, (Ok tt, w0)) onEose w) as [r w'] eqn:Eo.
  eexists. cbn [fst snd]. split; [reflexivity|]. split_and!; try done.
  exists []. unfold ret. cbn [snd trace with_relays emit]. by rewrite drop_app_length.
Qed.

(** X13. The promise of a fetch settles once.  If the timer fires first
    and the [oneose] callback runs afterwards, whenever that is (the
    handle not having been added to a session again, which no method
    does), the promise stays rejected with the timeout error, and it is
    this late callback that closes the handle: from then on no session
    lists it, wherever it stood in a session's list. *)
Theorem fetch_late_eose_closes {W} (verifyEvent : NostrEvent → bool)
    (now : Z) (onEvent : option (Callback W)) (onEose : option (W → Result unit * W))
    (relayUrls : option (list string)) (m m1 ma : NostrManager) (f : Fetch W)
    (fetched : list NostrEvent) (w : W) :
  subs_allocated m →
  fetch_start verifyEvent now onEvent onEose relayUrls m = (Ok f, m1) →
  not_added_since (sub_ref (fetch_sub f)) m1 ma →
  let res := fetch_oneose (fetch_timeout f) (fetched, w) ma in
  ∃ f' out, res.1 = Ok (f', out)
    ∧ fetch_promise f' = Rejected ErrTimeout
    ∧ (∀ r, r ∈ relays res.2 → sub_ref (fetch_sub f) ∉ activeSubs r).
Proof.
  intros Halloc Hf Hlater. cbv zeta. apply fetch_start_inv in Hf as (sub & Hsub & ->).
  cbn [fetch_sub] in Hlater.
  destruct (close_later _ _ _ _ _ _ _ Halloc Hsub ma Hlater) as (_ & Hgone & _).
  unfold fetch_oneose, fetch_timeout. cbn [fetch_sub fetch_onEose fetch_promise fst snd].
  pose proof (sub_close_run sub ma) as Hc. cbv zeta in Hc.
  rewrite Hc in Hgone. rewrite (bind_Ok _ _ _ _ _ Hc).
  destruct (default (λ w0, (Ok tt, w0)) onEose w) as [r w'] eqn:Eo.
  eexists _, _. cbn [fst snd]. split; [reflexivity|]. by split.
Qed.

(** ** More on authentication *)

Lemma record_outcome_run u b m :
  record_outcome u b m
  = (Ok tt, with_relays (mark_authenticated u b (relays m))
              (with_authenticatedRelays (<[u:=b]> (authenticatedRelays m)) m)).
Proof. unfold record_outcome. by mrun. Qed.

Lemma mark_authenticated_lookup u b rs i r :
  NoDup (url <$> rs) → rs !! i = Some r →
  mark_authenticated u b rs !! i
  = Some (if bool_decide (url r = u) then set_authenticated b r else r).
Proof.
  intros Hnd Hi. case_bool_decide as Hu.
  - by apply mark_authenticated_hit.
  - by apply mark_authenticated_other.
Qed.

(** X14. [authenticateToRelay] never throws, whatever the pool and the
    handshake do: it returns the handshake's verdict, or false when
    something threw.  It makes sure the relay has a session and keeps one
    session per url.  When the handshake returns a verdict, that verdict is
    what [isRelayAuthenticated] answers for the url afterwards and what
    the flag of the url's session holds; the record of every other url
    and every other session are untouched. *)
Theorem authenticateToRelay_stores_verdict (now : Z) (o : AuthOutcome)
    (u : string) (m : NostrManager) :
  registry_wf m →
  let res := authenticateToRelay now o u m in
  let m0 := (addRelay now u m).2 in
  res.1 = Ok (outcome_result o)
  ∧ u ∈ url <$> relays res.2
  ∧ registry_wf res.2
  ∧ ∀ b, o = HandshakeReturns b →
      isRelayAuthenticated u res.2 = b
      ∧ (∀ v, v ≠ u → authenticatedRelays res.2 !! v = authenticatedRelays m !! v)
      ∧ (∀ i r, relays m0 !! i = Some r →
           relays res.2 !! i
           = Some (if bool_decide (url r = u) then set_authenticated b r else r)).
Proof.
  intros Hwf. cbv zeta. rewrite authenticateToRelay_run.
  pose proof (addRelay_wf now u m Hwf) as Hwf0.
  pose proof (addRelay_registered now u m) as Hreg.
  assert (authenticatedRelays (addRelay now u m).2 = authenticatedRelays m) as Ha.
  { unfold addRelay. by destruct (find_relay u (relays m)). }
  set (m0 := (addRelay now u m).2) in *.
  destruct o as [| |b]; cbn [fst snd outcome_result relays emit with_relays
    with_authenticatedRelays authenticatedRelays].
  - split_and!; try done.
  - split_and!; try done.
  - split_and!; try done.
    + by rewrite mark_authenticated_urls.
    + unfold registry_wf. simpl. by rewrite mark_authenticated_urls.
    + intros b' [= <-]. split_and!.
      * unfold isRelayAuthenticated. simpl. rewrite lookup_insert_eq. by destruct b.
      * intros v Hv. rewrite lookup_insert_ne by done. by rewrite Ha.
      * intros i r Hi. by apply mark_authenticated_lookup.
Qed.

Lemma for_of_record_step ur results m :
  for_of (ur :: results) (λ ur, record_outcome ur.1 ur.2) m
  = for_of results (λ ur, record_outcome ur.1 ur.2)
      (with_relays (mark_authenticated ur.1 ur.2 (relays m))
         (with_authenticatedRelays (<[ur.1:=ur.2]> (authenticatedRelays m)) m)).
Proof. simpl. unfold bind. by rewrite record_outcome_run. Qed.

Lemma for_of_record_frame results m :
  let m' := (for_of results (λ ur, record_outcome ur.1 ur.2) m).2 in
  (for_of results (λ ur, record_outcome ur.1 ur.2) m).1 = Ok tt
  ∧ url <$> relays m' = url <$> relays m
  ∧ trace m' = trace m
  ∧ (∀ v, v ∉ results.*1 → authenticatedRelays m' !! v = authenticatedRelays m !! v)
  ∧ (∀ i r, relays m !! i = Some r → url r ∉ results.*1 → relays m' !! i = Some r).
Proof.
  revert m. induction results as [|[u b] results IH]; intros m; cbv zeta.
  - done.
  - rewrite for_of_record_step. cbn [fst snd].
    specialize (IH (with_relays (mark_authenticated u b (relays m))
                      (with_authenticatedRelays (<[u:=b]> (authenticatedRelays m)) m))).
    cbv zeta in IH. destruct IH as (Hok & Hu & Ht & Hrec & Hses).
    simpl in Hu, Ht, Hrec, Hses. split_and!; try done.
    + by rewrite Hu, mark_authenticated_urls.
    + intros v [Hne Hv]%not_elem_of_cons. rewrite Hrec by done.
      by rewrite lookup_insert_ne.
    + intros i r Hi [Hne Hv]%not_elem_of_cons. apply Hses; [|done].
      by apply mark_authenticated_other.
Qed.

Lemma for_of_record_hit results m u b :
  NoDup results.*1 → registry_wf m → (u, b) ∈ results →
  let m' := (for_of results (λ ur, record_outcome ur.1 ur.2) m).2 in
  authenticatedRelays m' !! u = Some b
  ∧ ∀ i r, relays m !! i = Some r → url r = u →
           relays m' !! i = Some (set_authenticated b r).
Proof.
  revert m. induction results as [|[u0 b0] results IH]; intros m Hnd Hwf Hin; cbv zeta.
  - by apply elem_of_nil in Hin.
  - simpl in Hnd. apply NoDup_cons in Hnd as [Hu0 Hnd].
    rewrite for_of_record_step. cbn [fst snd].
    set (m1 := with_relays (mark_authenticated u0 b0 (relays m))
                 (with_authenticatedRelays (<[u0:=b0]> (authenticatedRelays m)) m)).
    assert (registry_wf m1) as Hwf1.
    { unfold registry_wf, m1. simpl. by rewrite mark_authenticated_urls. }
    apply elem_of_cons in Hin as [[= -> ->]|Hin].
    + destruct (for_of_record_frame results m1) as (_ & _ & _ & Hrec & Hses).
      split.
      * rewrite Hrec by done. unfold m1. simpl. apply lookup_insert_eq.
      * intros i r Hi Hu. apply Hses.
        -- unfold m1. simpl. by apply mark_authenticated_hit.
        -- simpl. by rewrite Hu.
    + destruct (IH m1 Hnd Hwf1 Hin) as [Hrec Hses]. split; [done|].
      intros i r Hi Hu. apply Hses; [|done]. unfold m1. simpl.
      apply mark_authenticated_other; [done|]. intros Heq. apply Hu0.
      rewrite <- Heq, Hu. by apply (list_elem_of_fmap_2 fst _ (u, b)).
Qed.

(** C10. An explicitly empty list of relay urls is not treated alike by
    the public operations.  [subscribe] with [[]] adds no session, spans
    no session (its scope is the empty selection and the pool is asked to
    subscribe to no url) and touches no session; [publish] with [[]] sends
    the event to no url and does nothing else; neither falls back to the
    registry.  [authenticateToRelays] with [[]] targets the urls of every
    known session, exactly as when the list is left out: the helper is
    called with the urls of all sessions, and what it throws or returns is
    what the method throws or returns. *)
Theorem empty_relay_list_asymmetry {W} (verifyEvent : NostrEvent → bool)
    (now : Z) (prm : SubscribeManyParams W) (env : string → AuthOutcome)
    (event : NostrEvent) (signer : bool)
    (helper : list string → M (list (string * bool))) (m : NostrManager) :
  (readable (params m) = true →
   ∃ sub, subscribe verifyEvent now prm (Some []) m
          = (Ok sub, emit (PoolSubscribeMany [] (nextSub m))
                          (with_nextSub (S (nextSub m)) m))
          ∧ sub_relays sub = Selected [])
  ∧ (writable (params m) = true →
     publish now env event (Some []) signer m
     = (Ok tt, emit (PoolPublish [] event) m))
  ∧ auth_targets (Some []) m = url <$> relays m
  ∧ authenticateToRelays helper (Some []) m = authenticateToRelays helper None m
  ∧ authenticateToRelays helper (Some []) m
    = authenticateToRelays helper (Some (url <$> relays m)) m
  ∧ (let pre := emit (HelperAuthenticateToRelays (url <$> relays m))
                  (emit (Console LogInfo "") m) in
     let res := authenticateToRelays helper (Some []) m in
     (∀ e mh, helper (url <$> relays m) pre = (Throw e, mh) → res = (Throw e, mh))
     ∧ (∀ results mh, helper (url <$> relays m) pre = (Ok results, mh) →
          res.1 = Ok results ∧ trace res.2 = trace mh ++ [Console LogInfo ""])).
Proof.
  split_and!.
  - intros Hr. rewrite subscribe_run by done. simpl.
    rewrite filter_from_includes_nil. simpl. eexists.
    split; [apply (f_equal2 pair); [reflexivity | by apply manager_eq] | done].
  - intros Hw. unfold publish. mrun. rewrite Hw. simpl. mrun.
    rewrite filter_from_includes_nil. simpl. unfold keepAlive. simpl. mrun.
    destruct (autoAuth (params m) && signer); simpl; mrun; done.
  - done.
  - done.
  - unfold authenticateToRelays. rewrite !run_get.
    assert (auth_targets (Some (url <$> relays m)) m = auth_targets (Some []) m)
      as -> by (unfold auth_targets; by destruct (relays m)).
    done.
  - cbv zeta. unfold authenticateToRelays. rewrite run_get, !run_perform.
    change (auth_targets (Some []) m) with (url <$> relays m). split.
    + intros e mh He. unfold mbind, M_bind, bind. by rewrite He.
    + intros results mh Hh. rewrite (bind_Ok _ _ _ _ _ Hh).
      destruct (for_of_record_frame results mh) as (Hok & _ & Ht & _).
      destruct (for_of results (λ ur, record_outcome ur.1 ur.2) mh) as [r1 m1] eqn:E.
      cbn [fst snd] in *. subst r1. rewrite (bind_Ok _ _ _ _ _ E), run_perform.
      unfold ret. cbn [fst snd trace emit]. by rewrite Ht.
Qed.

(** X15. [authenticateToRelays] hands the helper the given urls, or those
    of every known session when none is given.  If the helper throws, so
    does the method, and nothing is recorded.  If the helper returns its
    map of verdicts, the method returns that map, and afterwards each url
    of the map has its own verdict both as the answer of
    [isRelayAuthenticated] and as the flag of its session, while the record
    of every other url and every other session are as the helper left
    them. *)
Theorem authenticateToRelays_records_each
    (helper : list string → M (list (string * bool)))
    (relayUrls : option (list string)) (m mh : NostrManager) :
  let targets := auth_targets relayUrls m in
  let pre := emit (HelperAuthenticateToRelays targets) (emit (Console LogInfo "") m) in
  let res := authenticateToRelays helper relayUrls m in
  (∀ e, helper targets pre = (Throw e, mh) → res = (Throw e, mh))
  ∧ (∀ results,
       helper targets pre = (Ok results, mh) →
       NoDup results.*1 → registry_wf mh →
       res.1 = Ok results
       ∧ (∀ u b, (u, b) ∈ results →
            isRelayAuthenticated u res.2 = b
            ∧ ∀ r, r ∈ relays res.2 → url r = u → authenticated r = b)
       ∧ (∀ v, v ∉ results.*1 →
            authenticatedRelays res.2 !! v = authenticatedRelays mh !! v)
       ∧ (∀ i r, relays mh !! i = Some r → url r ∉ results.*1 →
            relays res.2 !! i = Some r)
       ∧ registry_wf res.2).
Proof.
  cbv zeta. unfold authenticateToRelays. rewrite run_get, !run_perform. split.
  - intros e He. unfold mbind, M_bind, bind. by rewrite He.
  - intros results Hh Hnd Hwf. rewrite (bind_Ok _ _ _ _ _ Hh).
    destruct (for_of_record_frame results mh) as (Hok & Hu & _ & Hrec & Hses).
    destruct (for_of results (λ ur, record_outcome ur.1 ur.2) mh) as [r1 m1] eqn:E.
    cbn [fst snd] in *. subst r1. rewrite (bind_Ok _ _ _ _ _ E), run_perform.
    cbn [fst snd ret relays emit authenticatedRelays]. unfold ret.
    cbn [fst snd relays emit authenticatedRelays].
    split_and!; try done.
    + intros u b Hin.
      pose proof (for_of_record_hit results mh u b Hnd Hwf Hin) as Hhit.
      cbv zeta in Hhit. rewrite E in Hhit. cbn [snd] in Hhit.
      destruct Hhit as [Hr Hs]. split.
      * unfold isRelayAuthenticated. simpl. rewrite Hr. by destruct b.
      * intros r [i Hi]%list_elem_of_lookup Hur.
        assert ((url <$> relays mh) !! i = Some u) as Hx.
        { rewrite <- Hu, list_lookup_fmap, Hi. simpl. by rewrite Hur. }
        rewrite list_lookup_fmap in Hx.
        destruct (relays mh !! i) as [r0|] eqn:E0; [|done]. simpl in Hx.
        injection Hx as Hx. rewrite (Hs i r0 E0 Hx) in Hi. by injection Hi as <-.
    + unfold registry_wf. simpl. by rewrite Hu.
Qed.

(** ** What every method keeps true *)

Lemma Inv_sessions m :
  Inv m ↔ NoDup (url <$> relays m)
          ∧ Forall (session_ok (nextSub m) (authenticatedRelays m)) (relays m).
Proof.
  unfold Inv, registry_wf, awake_if_subscribed, subs_allocated, flag_recorded,
    session_ok. rewrite Forall_forall. split.
  - intros (Hwf & Haw & Hal & Hfl). split; [done|]. intros r Hr. split_and!; eauto.
  - intros (Hwf & H). split_and!; [done|..]; intros r; intros; by eapply H.
Qed.

Lemma session_ok_new n rec u now : session_ok n rec (new_relay u now).
Proof.
  split_and!; simpl; [done| |done]. intros s Hs. by apply elem_of_nil in Hs.
Qed.

Lemma session_ok_mono n n' rec r :
  (n ≤ n')%nat → session_ok n rec r → session_ok n' rec r.
Proof.
  intros Hn (H1 & H2 & H3). split_and!; [done| |done].
  intros s Hs. specialize (H2 s Hs). lia.
Qed.

Lemma session_ok_wake n rec now r : session_ok n rec r → session_ok n rec (wake now r).
Proof. intros (H1 & H2 & H3). by split_and!. Qed.

Lemma drop_sub_subseteq ref l s : s ∈ drop_sub ref l → s ∈ l.
Proof.
  unfold drop_sub. destruct (index_of ref l) as [i|] eqn:E; [|done].
  intros [H|H]%elem_of_app.
  - by eapply subseteq_take.
  - by eapply subseteq_drop.
Qed.

Lemma session_ok_remove n rec ref r :
  session_ok n rec r → session_ok n rec (remove_sub ref r).
Proof.
  intros (H1 & H2 & H3). split_and!; simpl; [|by eauto using drop_sub_subseteq|done].
  intros Hne. apply H1. intros Hnil. rewrite Hnil in Hne. by apply Hne.
Qed.

Lemma session_ok_asleep n rec r :
  activeSubs r = [] → session_ok n rec r → session_ok n rec (set_sleeping true r).
Proof. intros He (H1 & H2 & H3). split_and!; simpl; [by rewrite He|done..]. Qed.

Lemma alter_all_Forall (Q : NostrRelay → Prop) f objs rs :
  (∀ r, Q r → Q (f r)) → Forall Q rs → Forall Q (alter_all f objs rs).
Proof.
  intros Hf. revert rs. induction objs as [|i objs IH]; intros rs Hrs; [done|].
  unfold alter_all in *. simpl. apply IH. apply Forall_alter; [done|].
  intros r _. by apply Hf.
Qed.

Lemma Inv_frame m m' :
  Inv m → url <$> relays m' = url <$> relays m →
  Forall (session_ok (nextSub m') (authenticatedRelays m')) (relays m') → Inv m'.
Proof.
  intros [Hwf _]%Inv_sessions Hu Hok. apply Inv_sessions. by rewrite Hu.
Qed.

Lemma Inv_ensure_relays now relayUrls m :
  Inv m → Inv (ensure_relays now relayUrls m).2.
Proof.
  intros HI. pose proof HI as [Hwf Hok]%Inv_sessions.
  destruct (ensure_relays_run now relayUrls m)
    as (_ & _ & _ & Ha & Hn & Hwf' & (new & Hr & Hnew) & _).
  apply Inv_sessions. split; [by apply Hwf', HI|].
  rewrite Hr, Ha, Hn. apply Forall_app. split; [done|].
  eapply Forall_impl; [exact Hnew|]. intros r [He Hau]. split_and!.
  - by rewrite He.
  - intros s Hs. rewrite He in Hs. by apply elem_of_nil in Hs.
  - by rewrite Hau.
Qed.

Lemma Inv_addRelay now u m : Inv m → Inv (addRelay now u m).2.
Proof.
  intros HI. pose proof (Inv_ensure_relays now (Some [u]) m HI) as H.
  simpl in H. unfold bind in H.
  destruct (addRelay now u m) as [[[]|e] m1]; exact H.
Qed.

Lemma Inv_keepAlive now objs m : Inv m → Inv (keepAlive now objs m).2.
Proof.
  intros HI. pose proof HI as [Hwf Hok]%Inv_sessions.
  destruct (keepAlive_run now objs m) as (_ & Hr & _ & _ & Ha & Hn & _).
  apply (Inv_frame m); [done| |].
  - rewrite Hr. by apply alter_all_fmap.
  - rewrite Hr, Ha, Hn. apply alter_all_Forall; [|done].
    intros r. apply session_ok_wake.
Qed.

Lemma Inv_gc clock fails m : Inv m → Inv (gc clock fails m).2.
Proof.
  intros HI. pose proof HI as [Hwf Hok]%Inv_sessions.
  destruct (gc_run clock fails m) as (_ & _ & Hr & _).
  destruct (gc_fields clock fails m) as [Ha Hn].
  apply (Inv_frame m); [done| |].
  - rewrite Hr. by apply gc_sweep_fmap.
  - rewrite Ha, Hn. apply Forall_lookup. intros i r' Hi.
    assert (i < length (relays m))%nat as Hlt.
    { apply lookup_lt_Some in Hi. by rewrite Hr, gc_sweep_length in Hi. }
    apply lookup_lt_is_Some in Hlt as [r Hr0].
    rewrite Hr, (gc_sweep_lookup _ clock fails 0 _ _ _ Hr0) in Hi.
    rewrite Forall_lookup in Hok. specialize (Hok i r Hr0).
    injection Hi as <-. destruct (gc_idle _ _ r) eqn:Hidle; [|done].
    apply gc_idle_spec in Hidle as (_ & He & _). by apply session_ok_asleep.
Qed.

Lemma Inv_subscribe {W} verifyEvent now (prm : SubscribeManyParams W) relayUrls m :
  Inv m → Inv (subscribe verifyEvent now prm relayUrls m).2.
Proof.
  intros HI. destruct (readable (params m)) eqn:Hrd;
    [|by rewrite subscribe_refused].
  rewrite subscribe_run by done. cbn [snd].
  pose proof (Inv_ensure_relays now relayUrls m HI) as HI1.
  set (m1 := (ensure_relays now relayUrls m).2) in *.
  set (objs := scope_objs (target_scope relayUrls m1) m1) in *.
  assert (NoDup objs) as Hnd by apply scope_objs_NoDup.
  pose proof HI1 as [Hwf Hok]%Inv_sessions.
  match goal with |- context [keepAlive now objs ?m3] =>
    destruct (keepAlive_run now objs m3) as (_ & Hr & _ & _ & Ha & Hn & _);
    set (m4 := (keepAlive now objs m3).2) in *
  end.
  simpl in Hr, Ha, Hn. apply (Inv_frame m1); [done| |].
  - rewrite Hr, !alter_all_fmap; done.
  - rewrite Ha, Hn. apply Forall_lookup. intros i r' Hi.
    rewrite Hr, !alter_all_lookup in Hi by done.
    destruct (relays m1 !! i) as [r|] eqn:E; [|done].
    rewrite Forall_lookup in Hok. specialize (Hok i r E) as (H1 & H2 & H3).
    case_bool_decide; simpl in Hi; injection Hi as <-.
    + split_and!; simpl; [done| |done].
      intros s [Hs|Hs%list_elem_of_singleton]%elem_of_app; [|lia].
      specialize (H2 s Hs). lia.
    + apply (session_ok_mono (nextSub m1)); [lia|done].
Qed.

Lemma Inv_sub_close {W} (sub : NostrSub W) m : Inv m → Inv (sub_close sub m).2.
Proof.
  intros HI. pose proof HI as [Hwf Hok]%Inv_sessions.
  rewrite sub_close_run. cbn [snd]. apply (Inv_frame m); [done| |]; simpl.
  - by apply alter_all_fmap.
  - apply alter_all_Forall; [|done]. intros r. apply session_ok_remove.
Qed.

Lemma Inv_authenticateToRelay now o u m :
  Inv m → Inv (authenticateToRelay now o u m).2.
Proof.
  intros HI. rewrite authenticateToRelay_run.
  pose proof (Inv_addRelay now u m HI) as HI0.
  set (m0 := (addRelay now u m).2) in *.
  pose proof HI0 as [Hwf Hok]%Inv_sessions.
  destruct o as [| |b]; cbn [snd].
  - by apply (Inv_frame m0).
  - by apply (Inv_frame m0).
  - apply (Inv_frame m0); [done| |]; simpl.
    + apply mark_authenticated_urls.
    + apply Forall_lookup. intros i r' Hi.
      assert (i < length (relays m0))%nat as Hlt.
      { apply lookup_lt_Some in Hi.
        by rewrite <- (length_fmap url), mark_authenticated_urls, length_fmap in Hi. }
      apply lookup_lt_is_Some in Hlt as [r Hr0].
      rewrite (mark_authenticated_lookup u b _ i r Hwf Hr0) in Hi.
      rewrite Forall_lookup in Hok. specialize (Hok i r Hr0) as (H1 & H2 & H3).
      injection Hi as <-. case_bool_decide as Hu.
      * split_and!; simpl; [done..|]. intros ->. rewrite Hu. apply lookup_insert_eq.
      * split_and!; [done..|]. intros Hau. rewrite lookup_insert_ne by done. eauto.
Qed.

Lemma Inv_for_of {A} (xs : list A) (body : A → M unit) m :
  (∀ x m, Inv m → Inv (body x m).2) → Inv m → Inv (for_of xs body m).2.
Proof.
  intros Hb. revert m. induction xs as [|x xs IH]; intros m HI; [done|].
  simpl. unfold bind. specialize (Hb x m HI).
  destruct (body x m) as [[[]|e] m1]; simpl in *; [by apply IH|done].
Qed.

Lemma Inv_emit e m : Inv m → Inv (emit e m).
Proof. intros HI. by apply (Inv_frame m); [| |apply Inv_sessions in HI as [_ ?]]. Qed.

Lemma Inv_publish_auth now env i m : Inv m → Inv (publish_auth now env i m).2.
Proof.
  intros HI. unfold publish_auth. rewrite run_get.
  destruct (relays m !! i) as [r|]; [|done].
  destruct (authenticated r); simpl; [done|]. unfold try_catch.
  pose proof (Inv_authenticateToRelay now (env (url r)) (url r) m HI) as HI1.
  pose proof (authenticateToRelay_never_throws now (env (url r)) (url r) m) as Hok.
  destruct (authenticateToRelay now (env (url r)) (url r) m) as [res m1] eqn:E.
  cbn [fst snd] in *. subst res. rewrite (bind_Ok _ _ _ _ _ E).
  destruct (outcome_result (env (url r))); simpl; [done|by apply Inv_emit].
Qed.

Lemma Inv_publish now env event relayUrls signer m :
  Inv m → Inv (publish now env event relayUrls signer m).2.
Proof.
  intros HI. destruct (writable (params m)) eqn:Hw; [|by rewrite publish_refused].
  rewrite publish_run by done.
  pose proof (Inv_ensure_relays now relayUrls m HI) as HI1.
  set (m1 := (ensure_relays now relayUrls m).2) in *.
  set (objs := scope_objs (target_scope relayUrls m1) m1) in *.
  pose proof (Inv_keepAlive now objs m1 HI1) as HI2.
  set (m2 := (keepAlive now objs m1).2) in *.
  assert (Inv ((if autoAuth (params m) && signer
                then for_of objs (publish_auth now env) else ret tt) m2).2) as HI3.
  { destruct (autoAuth (params m) && signer); [|done].
    apply Inv_for_of; [|done]. intros x m'. apply Inv_publish_auth. }
  destruct ((if autoAuth (params m) && signer
             then for_of objs (publish_auth now env) else ret tt) m2)
    as [[[]|e] m3]; simpl in *; [by apply Inv_emit|done].
Qed.

(** ** Shutdown *)

Lemma drop_sub_filter (P : nat → Prop) `{∀ s, Decision (P s)} ref l :
  ¬ P ref → filter P (drop_sub ref l) = filter P l.
Proof.
  intros Hn. unfold drop_sub. destruct (index_of ref l) as [i|] eqn:E; [|done].
  apply index_of_Some in E.
  rewrite <- (take_drop_middle l i ref E) at 3.
  by rewrite !filter_app, filter_cons_False.
Qed.

Lemma close_handles_run {W} (handle : nat → NostrSub W) refs m :
  (∀ ref, sub_ref (handle ref) = ref) →
  let m' := (for_of refs (λ ref, sub_close (handle ref)) m).2 in
  let view (r : NostrRelay) := (url r, filter (λ s, s ∉ refs) (activeSubs r)) in
  (for_of refs (λ ref, sub_close (handle ref)) m).1 = Ok tt
  ∧ view <$> relays m' = view <$> relays m
  ∧ authenticatedRelays m' = authenticatedRelays m
  ∧ gcTimeout m' = gcTimeout m
  ∧ params m' = params m
  ∧ trace m' = trace m ++ (SubCloserClose <$> refs).
Proof.
  intros Hh. cbv zeta. revert m.
  assert (∀ l m,
    (∀ ref, ref ∈ l → ref ∈ refs) →
    (for_of l (λ ref, sub_close (handle ref)) m).1 = Ok tt
    ∧ (λ r, (url r, filter (λ s, s ∉ refs) (activeSubs r)))
        <$> relays (for_of l (λ ref, sub_close (handle ref)) m).2
      = (λ r, (url r, filter (λ s, s ∉ refs) (activeSubs r))) <$> relays m
    ∧ authenticatedRelays (for_of l (λ ref, sub_close (handle ref)) m).2
      = authenticatedRelays m
    ∧ gcTimeout (for_of l (λ ref, sub_close (handle ref)) m).2 = gcTimeout m
    ∧ params (for_of l (λ ref, sub_close (handle ref)) m).2 = params m
    ∧ trace (for_of l (λ ref, sub_close (handle ref)) m).2
      = trace m ++ (SubCloserClose <$> l)) as Hgen.
  { induction l as [|ref l IH]; intros m Hsub.
    - simpl. by rewrite app_nil_r.
    - simpl. unfold bind. rewrite sub_close_run, Hh.
      destruct (IH (with_relays
                      (alter_all (remove_sub ref) (scope_objs (sub_relays (handle ref)) m)
                         (relays m)) (emit (SubCloserClose ref) m)))
        as (Hok & Hv & Ha & Hg & Hp & Ht).
      { intros ref' Hin. apply Hsub. by right. }
      simpl in Hv, Ha, Hg, Hp, Ht. split_and!; try done.
      + rewrite Hv. apply alter_all_fmap. intros r. simpl. f_equal.
        apply drop_sub_filter. intros Hnot. apply Hnot, Hsub. by left.
      + rewrite Ht. by rewrite <- app_assoc. }
  intros m. by apply Hgen.
Qed.

Lemma close_relay_run scopes i m :
  let m' := (close_relay scopes i m).2 in
  let refs := default [] (activeSubs <$> relays m !! i) in
  let view (r : NostrRelay) := (url r, filter (λ s, s ∉ refs) (activeSubs r)) in
  (close_relay scopes i m).1 = Ok tt
  ∧ view <$> relays m' = view <$> relays m
  ∧ authenticatedRelays m' = authenticatedRelays m
  ∧ gcTimeout m' = gcTimeout m
  ∧ params m' = params m
  ∧ trace m' = trace m ++ (SubCloserClose <$> refs)
               ++ default [] ((λ r, [RelayDisconnect (url r)]) <$> relays m !! i).
Proof.
  cbv zeta. unfold close_relay. rewrite run_get.
  destruct (relays m !! i) as [r|] eqn:Hi; simpl.
  - destruct (close_handles_run (handle_of scopes) (activeSubs r) m)
      as (Hok & Hv & Ha & Hg & Hp & Ht); [done|].
    destruct (for_of (activeSubs r) (λ ref, sub_close (handle_of scopes ref)) m)
      as [res m1] eqn:E. cbn [fst snd] in *. subst res.
    rewrite (bind_Ok _ _ _ _ _ E). cbn [fst snd perform modify emit relays
      authenticatedRelays gcTimeout params trace].
    split_and!; try done. rewrite Ht. by rewrite <- app_assoc.
  - by rewrite app_nil_r.
Qed.

Lemma view_lookup (refs : list nat) (rs rs' : list NostrRelay) i r :
  (λ r, (url r, filter (λ s, s ∉ refs) (activeSubs r))) <$> rs'
  = (λ r, (url r, filter (λ s, s ∉ refs) (activeSubs r))) <$> rs →
  rs !! i = Some r →
  ∃ r', rs' !! i = Some r' ∧ url r' = url r
        ∧ ∀ s, s ∉ refs → s ∈ activeSubs r → s ∈ activeSubs r'.
Proof.
  intros Hv Hi.
  assert (((λ r, (url r, filter (λ s, s ∉ refs) (activeSubs r))) <$> rs') !! i
          = Some (url r, filter (λ s, s ∉ refs) (activeSubs r))) as Hx.
  { by rewrite Hv, list_lookup_fmap, Hi. }
  rewrite list_lookup_fmap in Hx. destruct (rs' !! i) as [r'|]; [|done].
  simpl in Hx. injection Hx as Hu Hf. exists r'. split_and!; [done..|].
  intros s Hs Hin.
  assert (s ∈ filter (λ s, s ∉ refs) (activeSubs r')) as Hy.
  { rewrite Hf. by apply list_elem_of_filter. }
  by apply list_elem_of_filter in Hy as [_ ?].
Qed.

Lemma closed_handles_app es1 es2 :
  closed_handles (es1 ++ es2) = closed_handles es1 ++ closed_handles es2.
Proof. apply omap_app. Qed.

Lemma disconnects_app es1 es2 :
  disconnects (es1 ++ es2) = disconnects es1 ++ disconnects es2.
Proof. apply omap_app. Qed.

Lemma closed_handles_closes refs : closed_handles (SubCloserClose <$> refs) = refs.
Proof.
  induction refs as [|r refs IH]; [done|].
  change (r :: closed_handles (SubCloserClose <$> refs) = r :: refs). by f_equal.
Qed.

Lemma disconnects_closes refs : disconnects (SubCloserClose <$> refs) = [].
Proof. induction refs as [|r refs IH]; [done|]. exact IH. Qed.

Lemma close_loop scopes objs m :
  let m' := (for_of objs (close_relay scopes) m).2 in
  (for_of objs (close_relay scopes) m).1 = Ok tt
  ∧ url <$> relays m' = url <$> relays m
  ∧ authenticatedRelays m' = authenticatedRelays m
  ∧ gcTimeout m' = gcTimeout m
  ∧ params m' = params m
  ∧ ∃ es, trace m' = trace m ++ es
      ∧ disconnects es = urls_of objs m
      ∧ Forall (λ e, (∃ ref, e = SubCloserClose ref) ∨ (∃ u, e = RelayDisconnect u)) es
      ∧ ∀ i r ref, i ∈ objs → relays m !! i = Some r → ref ∈ activeSubs r →
                   ref ∈ closed_handles es.
Proof.
  revert m. induction objs as [|i objs IH]; intros m; cbv zeta.
  - simpl. split_and!; try done. exists []. rewrite app_nil_r.
    split_and!; try done. intros i r ref Hi. by apply elem_of_nil in Hi.
  - destruct (close_relay_run scopes i m) as (Hok & Hv & Ha & Hg & Hp & Ht).
    destruct (close_relay scopes i m) as [res mi] eqn:E. cbn [fst snd] in *.
    subst res.
    assert (for_of (i :: objs) (close_relay scopes) m
            = for_of objs (close_relay scopes) mi) as ->.
    { simpl. unfold bind. by rewrite E. }
    specialize (IH mi). cbv zeta in IH.
    destruct IH as (Hok' & Hu' & Ha' & Hg' & Hp' & es & Ht' & Hd & Hall & Hcl).
    set (refs := default [] (activeSubs <$> relays m !! i)) in *.
    assert (url <$> relays mi = url <$> relays m) as Hu.
    { apply (f_equal (fmap fst)) in Hv. by rewrite <- !list_fmap_compose in Hv. }
    split_and!; try congruence.
    eexists. split; [rewrite Ht', Ht, <- !app_assoc; reflexivity|]. split_and!.
    + rewrite !disconnects_app, disconnects_closes, Hd, (urls_of_ext objs m mi Hu).
      assert (urls_of (i :: objs) m
              = option_list (url <$> relays m !! i) ++ urls_of objs m) as ->.
      { unfold urls_of. change (i :: objs) with ([i] ++ objs).
        rewrite omap_app. f_equal. }
      rewrite app_nil_l. f_equal. by destruct (relays m !! i).
    + apply Forall_app. split; [|apply Forall_app; split; [|done]].
      * apply Forall_fmap, Forall_true. intros ref. left. by eexists.
      * destruct (relays m !! i); simpl; [|done]. constructor; [|done].
        right. by eexists.
    + intros j r ref Hj Hr Hin. rewrite !closed_handles_app, closed_handles_closes.
      destruct (decide (ref ∈ refs)) as [Hc|Hc].
      { apply elem_of_app. by left. }
      apply elem_of_cons in Hj as [->|Hj].
      { unfold refs in Hc. rewrite Hr in Hc. simpl in Hc. done. }
      apply elem_of_app. right. apply elem_of_app. right.
      destruct (view_lookup refs _ _ j r Hv Hr) as (r' & Hr' & _ & Hkeep).
      apply (Hcl j r'); [done..|]. by apply Hkeep.
Qed.

Lemma close_run scopes m :
  let res := close scopes m in
  res.1 = Ok (gcTimeout m)
  ∧ relays res.2 = []
  ∧ authenticatedRelays res.2 = ∅
  ∧ params res.2 = params m
  ∧ ∃ es, trace res.2 = trace m ++ es
      ∧ disconnects es = url <$> relays m
      ∧ Forall (λ e, (∃ ref, e = SubCloserClose ref) ∨ (∃ u, e = RelayDisconnect u)) es
      ∧ ∀ r ref, r ∈ relays m → ref ∈ activeSubs r → ref ∈ closed_handles es.
Proof.
  cbv zeta. unfold close. rewrite run_get, run_modify.
  set (m0 := with_authenticatedRelays ∅ m).
  destruct (close_loop scopes (seq 0 (length (relays m))) m0)
    as (Hok & Hu & Ha & Hg & Hp & es & Ht & Hd & Hall & Hcl).
  destruct (for_of (seq 0 (length (relays m))) (close_relay scopes) m0)
    as [res m1] eqn:E. cbn [fst snd] in *. subst res.
  rewrite (bind_Ok _ _ _ _ _ E), run_modify. unfold ret.
  cbn [fst snd relays with_relays authenticatedRelays params trace].
  split_and!; try done. exists es. split_and!; try done.
  - rewrite Hd. apply (urls_of_whole [] (relays m) m0). done.
  - intros r ref [i Hi]%list_elem_of_lookup Hin. apply (Hcl i r); [|done..].
    apply elem_of_seq. apply lookup_lt_Some in Hi. lia.
Qed.

(** X16. Shutting the manager down never throws and hands the timer of
    the next sweep to [clearTimeout]; afterwards the registry is empty and
    no url is recorded as authenticated; every session was disconnected
    once, in registry order, and every handle that some session listed was
    closed at the pool; nothing else was done to the outside world, and
    the configuration is untouched. *)
Theorem close_shuts_down (scopes : nat → RelayScope) (m : NostrManager) :
  let res := close scopes m in
  let new := drop (length (trace m)) (trace res.2) in
  res.1 = Ok (gcTimeout m)
  ∧ relays res.2 = []
  ∧ (∀ u, isRelayAuthenticated u res.2 = false)
  ∧ params res.2 = params m
  ∧ disconnects new = url <$> relays m
  ∧ Forall (λ e, (∃ ref, e = SubCloserClose ref) ∨ (∃ u, e = RelayDisconnect u)) new
  ∧ ∀ r ref, r ∈ relays m → ref ∈ activeSubs r → ref ∈ closed_handles new.
Proof.
  cbv zeta. destruct (close_run scopes m)
    as (Hok & Hr & Ha & Hp & es & Ht & Hd & Hall & Hcl).
  rewrite Ht, drop_app_length. split_and!; try done.
  intros u. unfold isRelayAuthenticated. rewrite Ha, lookup_empty.
  by apply bool_decide_eq_false.
Qed.

(** ** Sequences of calls *)

Lemma bind_ret_state {A B} (c : M A) (f : A → B) m :
  (bind c (λ a, ret (f a)) m).2 = (c m).2.
Proof. unfold bind, ret. by destruct (c m) as [[a|e] m1]. Qed.

Lemma fetch_start_state {W} verifyEvent now (onEvent : option (Callback W))
    onEose relayUrls m :
  (fetch_start verifyEvent now onEvent onEose relayUrls m).2
  = (subscribe verifyEvent now
       {| onevent := Some (fetch_onevent (default (λ _ w, (Ok tt, w)) onEvent)) |}
       relayUrls m).2.
Proof. unfold fetch_start. apply bind_ret_state. Qed.

Lemma fetch_oneose_state {W} (f : Fetch W) fw m :
  (fetch_oneose f fw m).2 = (sub_close (fetch_sub f) m).2.
Proof.
  unfold fetch_oneose. destruct (fetch_onEose f fw.2) as [r w'].
  apply (bind_ret_state (sub_close (fetch_sub f)) (λ _, _)).
Qed.

Lemma Inv_empty p : Inv (empty_manager p).
Proof. apply Inv_sessions. split; [constructor|constructor]. Qed.

Lemma Inv_new now us o : Inv (new_NostrManager now us o).
Proof.
  unfold new_NostrManager. apply Inv_gc. unfold addRelays.
  apply Inv_for_of; [intros; by apply Inv_addRelay|apply Inv_empty].
Qed.

Lemma Inv_close scopes m : Inv (close scopes m).2.
Proof.
  destruct (close_run scopes m) as (_ & Hr & _). apply Inv_sessions.
  rewrite Hr. split; constructor.
Qed.

Lemma step_Inv m m' : Inv m → step m m' → Inv m'.
Proof.
  intros HI Hs. destruct Hs.
  - by apply Inv_addRelay.
  - unfold addRelays. apply Inv_for_of; [intros; by apply Inv_addRelay|done].
  - by apply Inv_gc.
  - by apply Inv_subscribe.
  - by apply Inv_sub_close.
  - rewrite fetch_start_state. by apply Inv_subscribe.
  - rewrite fetch_oneose_state. by apply Inv_sub_close.
  - by apply Inv_publish.
  - by apply Inv_authenticateToRelay.
  - apply Inv_close.
Qed.

Lemma reachable_Inv m : reachable m → Inv m.
Proof. induction 1; [apply Inv_new|by eapply step_Inv]. Qed.

Lemma demo_manager_reachable : reachable demo_manager.
Proof.
  unfold demo_manager. eapply reachable_step; [|apply step_subscribe].
  eapply reachable_step; [|apply step_publish]. apply reachable_new.
Defined.

(** X17. On a manager made by the constructor, as long as the methods are
    called one after the other, each call running to its end before the
    next starts ([authenticateToRelays], whose helper is not among the
    sources, left aside), a session that lists a subscription is never
    asleep.  For the sweep this asks that nothing lands while it is
    suspended at its [await]: such a sweep keeps the property too, while
    one that is interrupted can break it. *)
Theorem subscribed_sessions_stay_awake (m : NostrManager) :
  reachable m →
  awake_if_subscribed m
  ∧ ∀ fuel clock fails,
      (length (relays m) < fuel)%nat →
      awake_if_subscribed (gc_await fuel clock fails (λ _, ret tt) m).2.
Proof.
  intros H. split; [by apply reachable_Inv in H as (_ & ? & _)|].
  intros fuel clock fails Hfuel. rewrite gc_await_alone by done. cbn [snd].
  assert (reachable (gc clock fails m).2) as H'
    by (eapply reachable_step; [exact H|apply step_gc]).
  by apply reachable_Inv in H' as (_ & ? & _).
Qed.

(** X18. On a manager made by the constructor, however the methods are
    called one after the other, each call running to its end before the
    next starts ([authenticateToRelays], whose helper is not among the
    sources, left aside), the registry never holds two sessions for one
    url. *)
Theorem registry_urls_stay_unique (m : NostrManager) :
  reachable m → registry_wf m.
Proof. intros H. by apply reachable_Inv in H as (? & _). Qed.

(** X19. However the methods are called one after the other on a manager
    made by the constructor, a session whose [authenticated] flag is set
    has its url recorded as authenticated, so [isRelayAuthenticated]
    answers true for it. *)
Theorem flagged_sessions_are_recorded (m : NostrManager) :
  reachable m →
  ∀ r, r ∈ relays m → authenticated r = true → isRelayAuthenticated (url r) m = true.
Proof.
  intros H r Hr Ha. apply reachable_Inv in H as (_ & _ & _ & Hf).
  unfold isRelayAuthenticated. rewrite (Hf r Hr Ha). by apply bool_decide_eq_true.
Qed.

Lemma params_for_of {A} (xs : list A) (body : A → M unit) m :
  (∀ x m, params (body x m).2 = params m) → params (for_of xs body m).2 = params m.
Proof.
  intros Hb. revert m. induction xs as [|x xs IH]; intros m; [done|].
  simpl. unfold bind. specialize (Hb x m).
  destruct (body x m) as [[[]|e] m1]; simpl in *; [by rewrite IH|done].
Qed.

Lemma params_addRelay now u m : params (addRelay now u m).2 = params m.
Proof.
  destruct (decide (u ∈ url <$> relays m)) as [H|H].
  - by rewrite addRelay_present.
  - by rewrite addRelay_absent.
Qed.

Lemma params_subscribe {W} verifyEvent now (prm : SubscribeManyParams W) relayUrls m :
  params (subscribe verifyEvent now prm relayUrls m).2 = params m.
Proof.
  destruct (readable (params m)) eqn:Hr; [|by rewrite subscribe_refused].
  rewrite subscribe_run by done. cbv zeta. cbn [snd].
  destruct (ensure_relays_run now relayUrls m) as (_ & Hp & _). cbv zeta in Hp.
  match goal with |- params (keepAlive ?n ?o ?x).2 = _ =>
    destruct (keepAlive_run n o x) as (_ & _ & Hk & _) end.
  cbv zeta in Hk. rewrite Hk. exact Hp.
Qed.

Lemma params_authenticateToRelay now o u m :
  params (authenticateToRelay now o u m).2 = params m.
Proof.
  rewrite authenticateToRelay_run. cbv zeta.
  destruct o; simpl; apply params_addRelay.
Qed.

Lemma params_publish_auth now env i m : params (publish_auth now env i m).2 = params m.
Proof.
  unfold publish_auth. rewrite run_get.
  destruct (relays m !! i) as [r|]; [|done].
  destruct (authenticated r); simpl; [done|]. unfold try_catch.
  pose proof (params_authenticateToRelay now (env (url r)) (url r) m) as Hp.
  pose proof (authenticateToRelay_never_throws now (env (url r)) (url r) m) as Hok.
  destruct (authenticateToRelay now (env (url r)) (url r) m) as [res m1] eqn:E.
  cbn [fst snd] in *. subst res. rewrite (bind_Ok _ _ _ _ _ E).
  by destruct (outcome_result (env (url r))).
Qed.

Lemma params_publish now env event relayUrls signer m :
  params (publish now env event relayUrls signer m).2 = params m.
Proof.
  destruct (writable (params m)) eqn:Hw; [|by rewrite publish_refused].
  rewrite publish_run by done.
  destruct (ensure_relays_run now relayUrls m) as (_ & Hp1 & _). cbv zeta in Hp1.
  set (m1 := (ensure_relays now relayUrls m).2) in *.
  set (objs := scope_objs (target_scope relayUrls m1) m1) in *.
  destruct (keepAlive_run now objs m1) as (_ & _ & Hp2 & _). cbv zeta in Hp2.
  set (m2 := (keepAlive now objs m1).2) in *.
  assert (params ((if autoAuth (params m) && signer
                   then for_of objs (publish_auth now env) else ret tt) m2).2
          = params m2) as Hp3.
  { destruct (autoAuth (params m) && signer); [|done].
    apply params_for_of. intros x m'. apply params_publish_auth. }
  destruct ((if autoAuth (params m) && signer
             then for_of objs (publish_auth now env) else ret tt) m2)
    as [[[]|e] m3]; simpl in *; congruence.
Qed.

Lemma step_params m m' : step m m' → params m' = params m.
Proof.
  intros Hs. destruct Hs.
  - apply params_addRelay.
  - unfold addRelays. apply params_for_of. intros; apply params_addRelay.
  - by destruct (gc_run clock fails m) as (_ & ? & _).
  - apply params_subscribe.
  - by rewrite sub_close_run.
  - rewrite fetch_start_state. apply params_subscribe.
  - rewrite fetch_oneose_state. by rewrite sub_close_run.
  - apply params_publish.
  - apply params_authenticateToRelay.
  - by destruct (close_run scopes m) as (_ & _ & _ & ? & _).
Qed.

(** X20. No method changes the configuration fixed by the constructor:
    across any call the resolved options, capability flags included, are
    the same. *)
Theorem configuration_is_never_changed (m m' : NostrManager) :
  step m m' → params m' = params m.
Proof. apply step_params. Qed.

(** *** No method lists an old handle again *)

Lemma adds_no_handle_refl m : adds_no_handle m m.
Proof. split; [done|]. intros ref _. apply not_added_since_refl. Qed.

Lemma adds_no_handle_trans m1 m2 m3 :
  adds_no_handle m1 m2 → adds_no_handle m2 m3 → adds_no_handle m1 m3.
Proof.
  intros [Hn1 H1] [Hn2 H2]. split; [lia|]. intros ref Href.
  eapply not_added_since_trans; [by apply H1|]. apply H2. lia.
Qed.

(** Sessions may be appended, without subscriptions. *)
Lemma adds_no_handle_grow m m' new :
  (nextSub m ≤ nextSub m')%nat →
  activeSubs <$> relays m' = (activeSubs <$> relays m) ++ new →
  Forall (λ l, l = []) new →
  adds_no_handle m m'.
Proof.
  intros Hn Hs Hnew. split; [done|]. intros ref _ i. unfold subs_at.
  rewrite <- !list_lookup_fmap, Hs.
  destruct (decide (i < length (activeSubs <$> relays m))%nat) as [Hlt|Hge].
  - by rewrite lookup_app_l.
  - rewrite lookup_app_r by lia.
    destruct (new !! _) as [l|] eqn:E; simpl; [|unfold occurrences; simpl; lia].
    rewrite Forall_lookup in Hnew. rewrite (Hnew _ _ E).
    unfold occurrences. simpl. lia.
Qed.

Lemma adds_no_handle_same m m' :
  (nextSub m ≤ nextSub m')%nat →
  activeSubs <$> relays m' = activeSubs <$> relays m →
  adds_no_handle m m'.
Proof.
  intros Hn Hs. apply (adds_no_handle_grow m m' []); [done| |done].
  by rewrite app_nil_r.
Qed.


Lemma adds_no_handle_for_of {A} (xs : list A) (body : A → M unit) m :
  (∀ x m, adds_no_handle m (body x m).2) → adds_no_handle m (for_of xs body m).2.
Proof.
  intros Hb. revert m. induction xs as [|x xs IH]; intros m.
  - apply adds_no_handle_refl.
  - simpl. unfold bind. specialize (Hb x m).
    destruct (body x m) as [[[]|e] m1]; simpl in *; [|done].
    eapply adds_no_handle_trans; [exact Hb|apply IH].
Qed.







Lemma adds_no_handle_emit e m : adds_no_handle m (emit e m).
Proof. by apply adds_no_handle_same. Qed.









(** Nor does a sweep that is interrupted, if what lands does not, nor
    [authenticateToRelays], if its helper does not. *)
Lemma adds_no_handle_gc_body clock fails during k relay m :
  (∀ k m0, adds_no_handle m0 (during k m0).2) →
  (gc_body clock fails during k relay m).1 = Ok tt
  ∧ adds_no_handle m (gc_body clock fails during k relay m).2.
Proof.
  intros Hd. rewrite gc_body_run.
  destruct (gc_idle _ _ relay); cbv zeta; cbn [fst snd];
    [|split; [done|apply adds_no_handle_refl]].
  split; [done|].
  apply (adds_no_handle_trans _ (emit (RelayDisconnect (url relay)) m));
    [apply adds_no_handle_emit|].
  apply (adds_no_handle_trans _ (during k (emit (RelayDisconnect (url relay)) m)).2);
    [apply Hd|].
  set (m1 := (during k (emit (RelayDisconnect (url relay)) m)).2).
  apply adds_no_handle_same.
  - by destruct (fails (url relay)).
  - cbn [relays with_relays].
    assert (∀ rs, activeSubs <$> alter (set_sleeping true) k rs = activeSubs <$> rs)
      as -> by (intros rs; by apply (alter_all_fmap activeSubs _ [k] rs)).
    by destruct (fails (url relay)).
Qed.

Lemma adds_no_handle_gc_loop fuel clock fails during :
  (∀ k m0, adds_no_handle m0 (during k m0).2) →
  ∀ k m, adds_no_handle m (gc_loop fuel clock fails during k m).2.
Proof.
  intros Hd. induction fuel as [|fuel IH]; intros k m; [apply adds_no_handle_refl|].
  cbn [gc_loop]. rewrite run_get.
  destruct (relays m !! k) as [relay|]; [|apply adds_no_handle_refl].
  destruct (adds_no_handle_gc_body clock fails during k relay m Hd) as [Hok Hb].
  destruct (gc_body clock fails during k relay m) as [res m1] eqn:E.
  cbn [fst snd] in *. subst res. rewrite (bind_Ok _ _ _ _ _ E).
  eapply adds_no_handle_trans; [exact Hb|apply IH].
Qed.

Lemma adds_no_handle_gc_await fuel clock fails during m :
  (∀ k m0, adds_no_handle m0 (during k m0).2) →
  adds_no_handle m (gc_await fuel clock fails during m).2.
Proof.
  intros Hd. unfold gc_await.
  pose proof (adds_no_handle_gc_loop fuel clock fails during Hd 0%nat m) as Hl.
  assert (∃ b, (gc_loop fuel clock fails during 0 m).1 = Ok b) as [b Hb].
  { clear Hl. generalize 0%nat. revert m.
    induction fuel as [|fuel IH]; intros m k; [by exists false|].
    cbn [gc_loop]. rewrite run_get.
    destruct (relays m !! k) as [relay|]; [|by exists true].
    destruct (adds_no_handle_gc_body clock fails during k relay m Hd) as [Hok _].
    destruct (gc_body clock fails during k relay m) as [res m1] eqn:E.
    cbn [fst snd] in *. subst res. rewrite (bind_Ok _ _ _ _ _ E). apply IH. }
  destruct (gc_loop fuel clock fails during 0 m) as [res m1] eqn:E.
  cbn [fst snd] in *. subst res. rewrite (bind_Ok _ _ _ _ _ E).
  destruct b; [|done]. rewrite run_get, run_perform, run_modify. unfold ret.
  cbn [snd]. eapply adds_no_handle_trans; [exact Hl|]. by apply adds_no_handle_same.
Qed.

Lemma adds_no_handle_record_outcome u b m : adds_no_handle m (record_outcome u b m).2.
Proof.
  rewrite record_outcome_run. apply adds_no_handle_same; [done|].
  by apply mark_authenticated_fmap.
Qed.

Lemma adds_no_handle_authenticateToRelays helper relayUrls m :
  (∀ us m0, adds_no_handle m0 (helper us m0).2) →
  adds_no_handle m (authenticateToRelays helper relayUrls m).2.
Proof.
  intros Hh. unfold authenticateToRelays. rewrite run_get, !run_perform.
  set (pre := emit _ (emit _ m)).
  assert (adds_no_handle m pre) as Hpre by (by apply adds_no_handle_same).
  pose proof (Hh (auth_targets relayUrls m) pre) as Hrun.
  destruct (helper (auth_targets relayUrls m) pre) as [[results|e] mh] eqn:E.
  - rewrite (bind_Ok _ _ _ _ _ E). cbn [snd] in Hrun.
    destruct (for_of_record_frame results mh) as (Hok & _).
    pose proof (adds_no_handle_for_of results (λ ur, record_outcome ur.1 ur.2) mh
                  (λ ur m0, adds_no_handle_record_outcome ur.1 ur.2 m0)) as Hrec.
    destruct (for_of results (λ ur, record_outcome ur.1 ur.2) mh) as [r1 m1] eqn:E1.
    cbn [fst snd] in *. subst r1. rewrite (bind_Ok _ _ _ _ _ E1), run_perform.
    unfold ret. cbn [snd].
    eapply adds_no_handle_trans; [exact Hpre|].
    eapply adds_no_handle_trans; [exact Hrun|].
    eapply adds_no_handle_trans; [exact Hrec|apply adds_no_handle_emit].
  - unfold mbind, M_bind, bind. rewrite E. cbn [snd] in *.
    eapply adds_no_handle_trans; [exact Hpre|exact Hrun].
Qed.


(** ** The further properties at work *)

(** Of two sleeping sessions, [keepAlive] on the second connects to
    [relay_b] only and leaves the first as it was. *)
Lemma keepAlive_wakes_targets_witness :
  let m := new_NostrManager 0 [relay_a; relay_b] None in
  let m' := (keepAlive 9 [1%nat] m).2 in
  trace m' = trace m ++ [RelayConnect relay_b]
  ∧ relays m' !! 0%nat = relays m !! 0%nat
  ∧ relays m' !! 1%nat
    = Some {| url := relay_b; activeSubs := []; sleeping := false;
              lastActive := 9; authenticated := false |}.
Proof.
  cbv zeta.
  pose proof (keepAlive_wakes_targets 9 [1%nat]
                (new_NostrManager 0 [relay_a; relay_b] None)) as H.
  cbv zeta in H. destruct H as (_ & Hl & Ht).
  - apply (bool_decide_unpack _). by vm_compute.
  - split_and!; [rewrite Ht | rewrite Hl | rewrite Hl]; by vm_compute.
Defined.


Lemma subscribe_marks_targets_witness :
  let m' := (subscribe (W:=unit) demo_verify 9 {| onevent := None |}
               (Some [relay_a]) demo_manager).2 in
  relays m' !! 0%nat
  = Some {| url := relay_a; activeSubs := [1%nat]; sleeping := false;
            lastActive := 9; authenticated := true |}
  ∧ relays m' !! 1%nat = relays demo_manager !! 1%nat.
Proof.
  cbv zeta.
  pose proof (subscribe_marks_targets (W:=unit) demo_verify 9 {| onevent := None |}
                (Some [relay_a]) demo_manager) as H.
  cbv zeta in H. destruct H as (Hl & _ & _).
  - reflexivity.
  - split; rewrite Hl; by vm_compute.
Defined.

(** Without a signer the unauthenticated [relay_b] is published to with no
    handshake. *)
Lemma publish_without_authentication_witness :
  let res := publish 0 (λ _, HandshakeReturns true) (demo_event "valid") None false
               demo_manager in
  res.1 = Ok tt
  ∧ drop (length (trace demo_manager)) (trace res.2)
    = [PoolPublish [relay_a; relay_b] (demo_event "valid")]
  ∧ authenticatedRelays res.2 = authenticatedRelays demo_manager.
Proof.
  cbv zeta.
  pose proof (publish_without_authentication 0 (λ _, HandshakeReturns true)
                (demo_event "valid") None false demo_manager) as H.
  cbv zeta in H. destruct H as (Hok & _ & Ha & Ht).
  - reflexivity.
  - reflexivity.
  - split_and!; [exact Hok | | exact Ha].
    rewrite Ht. change (ensure_relays 0 None demo_manager).2 with demo_manager.
    rewrite drop_app_length. by vm_compute.
Defined.

(** A handshake that throws does not keep the event from being sent. *)
Lemma publish_refreshes_and_broadcasts_witness :
  let res := publish 7 (λ _, HandshakeThrows) (demo_event "valid") (Some [relay_b])
               true demo_manager in
  res.1 = Ok tt
  ∧ ∃ targets, last (trace res.2) = Some (PoolPublish targets (demo_event "valid"))
      ∧ (relay_b ∈ targets) ∧ (relay_a ∉ targets).
Proof.
  cbv zeta.
  pose proof (publish_refreshes_and_broadcasts 7 (λ _, HandshakeThrows)
                (demo_event "valid") (Some [relay_b]) true demo_manager) as H.
  cbv zeta in H. destruct H as (Hok & _ & _ & targets & Hl & _ & Hiff).
  - unfold registry_wf. apply (bool_decide_unpack _). by vm_compute.
  - reflexivity.
  - split; [exact Hok|]. exists targets. split_and!.
    + exact Hl.
    + apply Hiff. by left.
    + intros Hin. apply Hiff in Hin.
      apply elem_of_cons in Hin as [Hin|Hin]; [discriminate Hin|].
      by apply elem_of_nil in Hin.
Defined.

(** A forged event between two valid ones is neither collected nor shown
    to the caller; the valid ones are collected although the caller's
    callback throws on each. *)
Lemma fetch_collects_verified_witness :
  let res := fetch_start demo_verify 3 (Some demo_callback) None None demo_manager in
  ∃ f, res.1 = Ok f
    ∧ deliver_all (fetch_sub f)
        [demo_event "valid"; demo_event "forged"; demo_event "valid"] ([], [])
      = ([demo_event "valid"; demo_event "valid"],
         [demo_event "valid"; demo_event "valid"]).
Proof.
  cbv zeta.
  set (f := {| fetch_sub :=
                 {| sub_ref := 1; sub_relays := WholeRegistry;
                    sub_params :=
                      {| onevent := Some (wrap_onevent demo_verify
                                            (fetch_onevent demo_callback)) |} |};
               fetch_onEose := λ w : list NostrEvent, (Ok tt, w);
               fetch_promise := Pending |}).
  set (res := fetch_start demo_verify 3 (Some demo_callback) None None demo_manager).
  assert (res = (Ok f, res.2)) as Hf by (by vm_compute).
  exists f. split; [by rewrite Hf|].
  rewrite (fetch_collects_verified demo_verify 3 (Some demo_callback) None None
             demo_manager res.2 f Hf
             [demo_event "valid"; demo_event "forged"; demo_event "valid"] [] []).
  by vm_compute.
Defined.

(** A successful handshake with [relay_b], so far unauthenticated. *)
Lemma authenticateToRelay_stores_verdict_witness :
  let res := authenticateToRelay 3 (HandshakeReturns true) relay_b demo_manager in
  isRelayAuthenticated relay_b demo_manager = false
  ∧ res.1 = Ok true
  ∧ isRelayAuthenticated relay_b res.2 = true
  ∧ authenticated <$> relays res.2 = [true; true].
Proof.
  cbv zeta.
  pose proof (authenticateToRelay_stores_verdict 3 (HandshakeReturns true) relay_b
                demo_manager) as H.
  cbv zeta in H. destruct H as (Hok & _ & _ & Hb).
  - unfold registry_wf. apply (bool_decide_unpack _). by vm_compute.
  - destruct (Hb true eq_refl) as (Hq & _ & _).
    split_and!; [by vm_compute | exact Hok | exact Hq | by vm_compute].
Defined.

(** A helper that reports success for [relay_b] and failure for
    [relay_a], which was authenticated before. *)
Lemma authenticateToRelays_records_each_witness :
  let helper := λ _ : list string, ret [(relay_b, true); (relay_a, false)] in
  let res := authenticateToRelays helper None demo_manager in
  res.1 = Ok [(relay_b, true); (relay_a, false)]
  ∧ isRelayAuthenticated relay_b res.2 = true
  ∧ isRelayAuthenticated relay_a res.2 = false
  ∧ HelperAuthenticateToRelays [relay_a; relay_b] ∈ trace res.2.
Proof.
  cbv zeta.
  set (pre := emit (HelperAuthenticateToRelays [relay_a; relay_b])
                (emit (Console LogInfo "") demo_manager)).
  pose proof (authenticateToRelays_records_each
                (λ _, ret [(relay_b, true); (relay_a, false)]) None demo_manager pre)
    as H.
  cbv zeta in H. destruct H as (_ & H).
  destruct (H [(relay_b, true); (relay_a, false)]) as (Hok & Hrec & _).
  - reflexivity.
  - apply (bool_decide_unpack _). by vm_compute.
  - unfold registry_wf. apply (bool_decide_unpack _). by vm_compute.
  - split_and!.
    + exact Hok.
    + apply (Hrec relay_b true). by left.
    + apply (Hrec relay_a false). right. by left.
    + vm_compute. repeat (first [by left | right]).
Defined.

(** A sweep long after the last activity, following [demo_manager]'s
    subscription on [relay_b]. *)
Lemma subscribed_sessions_stay_awake_witness :
  let m := (gc (λ _, 1000000000%Z) (λ _, false) demo_manager).2 in
  (sleeping <$> relays m = [true; false]) ∧ awake_if_subscribed m.
Proof.
  cbv zeta. split; [by vm_compute|].
  apply subscribed_sessions_stay_awake.
  eapply reachable_step; [exact demo_manager_reachable | apply step_gc].
Defined.

Lemma registry_urls_stay_unique_witness :
  let m := (addRelays 5 ["wss://c.example"; relay_a; "wss://c.example"]
              demo_manager).2 in
  (url <$> relays m = [relay_a; relay_b; "wss://c.example"]) ∧ registry_wf m.
Proof.
  cbv zeta. split; [by vm_compute|].
  apply registry_urls_stay_unique.
  eapply reachable_step; [exact demo_manager_reachable | apply step_addRelays].
Defined.

Lemma flagged_sessions_are_recorded_witness :
  let ra := {| url := relay_a; activeSubs := []; sleeping := false;
               lastActive := 0; authenticated := true |} in
  (ra ∈ relays demo_manager) ∧ isRelayAuthenticated relay_a demo_manager = true.
Proof.
  cbv zeta.
  assert ({| url := relay_a; activeSubs := []; sleeping := false;
             lastActive := 0; authenticated := true |} ∈ relays demo_manager) as Hin.
  { vm_compute. by left. }
  split; [exact Hin|].
  exact (flagged_sessions_are_recorded demo_manager demo_manager_reachable _ Hin eq_refl).
Defined.

Lemma configuration_is_never_changed_witness :
  params (close (λ _, WholeRegistry) demo_manager).2 = params demo_manager
  ∧ params (gc (λ _, 400000%Z) (λ _, true) demo_manager).2 = params demo_manager.
Proof.
  split; apply configuration_is_never_changed; [apply step_close | apply step_gc].
Defined.

(** The handle 1 spans both sessions; a subscription to [relay_a] is made
    after it, so that it is not the last handle of that session's list
    when it is closed. *)
Lemma close_removes_handle_idempotent_witness :
  let res := subscribe (W:=unit) demo_verify 1 {| onevent := None |} None demo_manager in
  let sub := {| sub_ref := 1; sub_relays := WholeRegistry;
                sub_params := {| onevent := None |} |} : NostrSub unit in
  let ma := (subscribe (W:=unit) demo_verify 2 {| onevent := None |} (Some [relay_a])
               res.2).2 in
  res.1 = Ok sub
  ∧ activeSubs <$> relays ma = [[1%nat; 2%nat]; [0%nat; 1%nat]]
  ∧ activeSubs <$> relays (sub_close sub ma).2 = [[2%nat]; [0%nat]]
  ∧ (∀ r, r ∈ relays (sub_close sub ma).2 → sub_ref sub ∉ activeSubs r)
  ∧ relays (sub_close sub (sub_close sub ma).2).2 = relays (sub_close sub ma).2.
Proof.
  intros res sub ma.
  assert (res = (Ok sub, res.2)) as Hsub by (by vm_compute).
  assert (not_added_since (sub_ref sub) res.2 ma) as Hlater.
  { intros [|[|i]]; vm_compute; lia. }
  destruct (close_removes_handle_idempotent demo_verify 1 {| onevent := None |}
              None demo_manager res.2 ma sub demo_manager_allocated Hsub Hlater)
    as (_ & _ & Hgone & _ & Hsame).
  split_and!; [by rewrite Hsub | by vm_compute | by vm_compute | exact Hgone | exact Hsame].
Defined.

(** With [[]] the helper receives the urls of both sessions. *)
Lemma empty_relay_list_asymmetry_witness :
  (subscribe (W:=unit) demo_verify 3 {| onevent := None |} (Some []) demo_manager).1
  = Ok {| sub_ref := 1; sub_relays := Selected []; sub_params := {| onevent := None |} |}
  ∧ publish 3 (λ _, HandshakeReturns true) (demo_event "valid") (Some []) true
      demo_manager
    = (Ok tt, emit (PoolPublish [] (demo_event "valid")) demo_manager)
  ∧ auth_targets (Some []) demo_manager = [relay_a; relay_b]
  ∧ (authenticateToRelays (λ us, ret ((λ u, (u, true)) <$> us)) (Some [])
       demo_manager).1
    = Ok [(relay_a, true); (relay_b, true)].
Proof.
  destruct (empty_relay_list_asymmetry (W:=unit) demo_verify 3 {| onevent := None |}
              (λ _, HandshakeReturns true) (demo_event "valid") true
              (λ us, ret ((λ u, (u, true)) <$> us)) demo_manager)
    as (Hs & Hp & Ha & _ & _ & _ & Hh).
  destruct (Hs eq_refl) as (sub & Hsub & Hscope).
  destruct (Hh [(relay_a, true); (relay_b, true)]
              (emit (HelperAuthenticateToRelays (url <$> relays demo_manager))
                 (emit (Console LogInfo "") demo_manager)) eq_refl) as [Hres _].
  split_and!.
  - by vm_compute.
  - apply Hp. reflexivity.
  - rewrite Ha. reflexivity.
  - exact Hres.
Defined.

(** A subscription to every session is made after the fetch started, so
    the handle of the fetch is not the last one of its session's list
    when the end of stored events arrives. *)
Lemma fetch_eose_resolves_and_closes_witness :
  let m1 := (fetch_start (W:=unit) demo_verify 3 None None (Some [relay_a])
               demo_manager).2 in
  let f := {| fetch_sub :=
                {| sub_ref := 1; sub_relays := Selected [0%nat];
                   sub_params :=
                     {| onevent := Some (wrap_onevent demo_verify
                                           (fetch_onevent (λ _ w, (Ok tt, w)))) |} |};
              fetch_onEose := λ w : unit, (Ok tt, w);
              fetch_promise := Pending |} in
  let ma := (subscribe (W:=unit) demo_verify 4 {| onevent := None |} None m1).2 in
  let res := fetch_oneose f ([demo_event "valid"], tt) ma in
  activeSubs <$> relays ma = [[1%nat; 2%nat]; [0%nat; 2%nat]]
  ∧ activeSubs <$> relays res.2 = [[2%nat]; [0%nat; 2%nat]]
  ∧ (∀ r, r ∈ relays res.2 → 1%nat ∉ activeSubs r)
  ∧ ∃ f', res.1 = Ok (f', (Ok tt, ([demo_event "valid"], tt)))
      ∧ fetch_promise f' = Resolved [demo_event "valid"].
Proof.
  intros m1 f ma res.
  assert (fetch_start (W:=unit) demo_verify 3 None None (Some [relay_a]) demo_manager
          = (Ok f, m1)) as Hf by (by vm_compute).
  assert (not_added_since (sub_ref (fetch_sub f)) m1 ma) as Hlater.
  { intros [|[|i]]; vm_compute; lia. }
  pose proof (fetch_eose_resolves_and_closes demo_verify 3 None None (Some [relay_a])
                demo_manager m1 ma f [demo_event "valid"] tt
                demo_manager_allocated Hf Hlater) as H.
  cbv zeta in H. destruct H as (f' & Hok & Hp & _ & Hgone & _).
  split_and!.
  - by vm_compute.
  - by vm_compute.
  - exact Hgone.
  - exists f'. split; [exact Hok | exact Hp].
Defined.

Lemma fetch_late_eose_closes_witness :
  let m1 := (fetch_start (W:=unit) demo_verify 3 None None (Some [relay_a])
               demo_manager).2 in
  let f := {| fetch_sub :=
                {| sub_ref := 1; sub_relays := Selected [0%nat];
                   sub_params :=
                     {| onevent := Some (wrap_onevent demo_verify
                                           (fetch_onevent (λ _ w, (Ok tt, w)))) |} |};
              fetch_onEose := λ w : unit, (Ok tt, w);
              fetch_promise := Pending |} in
  let ma := (subscribe (W:=unit) demo_verify 4 {| onevent := None |} None m1).2 in
  let res := fetch_oneose (fetch_timeout f) ([demo_event "valid"], tt) ma in
  activeSubs <$> relays ma = [[1%nat; 2%nat]; [0%nat; 2%nat]]
  ∧ (∃ f' out, res.1 = Ok (f', out) ∧ fetch_promise f' = Rejected ErrTimeout)
  ∧ ∀ r, r ∈ relays res.2 → 1%nat ∉ activeSubs r.
Proof.
  intros m1 f ma res.
  assert (fetch_start (W:=unit) demo_verify 3 None None (Some [relay_a]) demo_manager
          = (Ok f, m1)) as Hf by (by vm_compute).
  assert (not_added_since (sub_ref (fetch_sub f)) m1 ma) as Hlater.
  { intros [|[|i]]; vm_compute; lia. }
  pose proof (fetch_late_eose_closes demo_verify 3 None None (Some [relay_a])
                demo_manager m1 ma f [demo_event "valid"] tt
                demo_manager_allocated Hf Hlater) as H.
  cbv zeta in H. destruct H as (f' & out & Hok & Hp & Hgone).
  split_and!; [by vm_compute | exists f', out; split; [exact Hok | exact Hp] | exact Hgone].
Defined.

